(** * autofile: the locator-addressed filesystem model ([autofile/model.py])

    A shallow embedding of [DataFile], [DataSeries], [DataSeriesFile],
    [JSONObject] and [JSONEntry], over an explicit model of the part of the
    operating system they drive: POSIX path strings, a directory tree, and
    the two file helpers of the package ([autofile.io_], [autofile.json_]).

    Python exceptions are results of the computation; the world reached when
    an exception is raised is kept, because a Python exception does not undo
    the effects that came before it. *)

From Stdlib Require Import Ascii String.
From stdpp Require Import gmap strings list sorting.

Set Warnings "-register-all".

Local Open Scope string_scope.
Local Open Scope list_scope.

(** ** Exceptions *)

(** The exception classes the modelled code and its primitives raise.
    [SerializationError] stands for whatever a caller-supplied [writer_] or
    [reader_] raises; [OutsideModel] marks the two places where the OS model
    is partial (a glob pattern whose literal part has metacharacters, and
    [rmtree] of a path whose last component is [.] or [..]). *)
Inductive exn : Set :=
  | AssertionError
  | ValueError
  | AttributeError
  | FileNotFoundError
  | FileExistsError
  | NotADirectoryError
  | IsADirectoryError
  | JSONDecodeError
  | RecursionError
  | SerializationError
  | OutsideModel.

Inductive res (A : Type) : Type :=
  | Ok (a : A)
  | Raise (e : exn).
Arguments Ok {A} a.
Arguments Raise {A} e.

Definition is_ok {A} (r : res A) : bool :=
  match r with Ok _ => true | Raise _ => false end.

Definition res_bind {A B} (r : res A) (k : A -> res B) : res B :=
  match r with Ok a => k a | Raise e => Raise e end.

(** ** POSIX path strings ([posixpath]) *)

Module posixpath.

Definition sep : ascii := "/"%char.

Definition isabs (p : string) : bool :=
  match p with
  | String c _ => Ascii.eqb c sep
  | EmptyString => false
  end.

Fixpoint endswith_sep (p : string) : bool :=
  match p with
  | EmptyString => false
  | String c EmptyString => Ascii.eqb c sep
  | String _ s => endswith_sep s
  end.

Definition is_empty (p : string) : bool :=
  match p with EmptyString => true | _ => false end.

(** [join(a, b)]: an absolute [b] replaces [a]. *)
Definition join2 (a b : string) : string :=
  if isabs b then b
  else if is_empty a || endswith_sep a then a +:+ b
  else a +:+ "/" +:+ b.

Definition join (a : string) (ps : list string) : string :=
  fold_left join2 ps a.

(** [p[:i], p[i:]] for [i = p.rfind('/') + 1]. *)
Fixpoint rpartition (p : string) : string * string :=
  match p with
  | EmptyString => (EmptyString, EmptyString)
  | String c s =>
      let '(h, t) := rpartition s in
      if is_empty h then
        if Ascii.eqb c sep then (String c EmptyString, t)
        else (EmptyString, String c t)
      else (String c h, t)
  end.

Fixpoint all_sep (p : string) : bool :=
  match p with
  | EmptyString => true
  | String c s => Ascii.eqb c sep && all_sep s
  end.

Fixpoint rstrip_sep (p : string) : string :=
  match p with
  | EmptyString => EmptyString
  | String c s =>
      let r := rstrip_sep s in
      if is_empty r && Ascii.eqb c sep then EmptyString else String c r
  end.

(** [os.path.split]. *)
Definition split (p : string) : string * string :=
  let '(head, tail) := rpartition p in
  if negb (is_empty head) && negb (all_sep head)
  then (rstrip_sep head, tail)
  else (head, tail).

(** [p.split('/')]. *)
Fixpoint split_sep (p : string) : list string :=
  match p with
  | EmptyString => [EmptyString]
  | String c s =>
      if Ascii.eqb c sep then EmptyString :: split_sep s
      else match split_sep s with
           | x :: r => String c x :: r
           | [] => [String c EmptyString]
           end
  end.

(** ['/'.join(comps)]. *)
Fixpoint join_sep (comps : list string) : string :=
  match comps with
  | [] => EmptyString
  | [x] => x
  | x :: r => x +:+ "/" +:+ join_sep r
  end.

(** One round of the component loop of [normpath]. *)
Definition norm_step (initial_slashes : nat) (new_comps : list string)
    (comp : string) : list string :=
  if bool_decide (comp = "") || bool_decide (comp = ".") then new_comps
  else if negb (bool_decide (comp = ".."))
          || (bool_decide (initial_slashes = 0) && bool_decide (new_comps = []))
          || bool_decide (last new_comps = Some "..")
       then new_comps ++ [comp]
       else removelast new_comps.

Definition initial_slashes (p : string) : nat :=
  match p with
  | String a (String b (String c _)) =>
      if Ascii.eqb a sep then
        if Ascii.eqb b sep && negb (Ascii.eqb c sep) then 2 else 1
      else 0
  | String a (String b EmptyString) =>
      if Ascii.eqb a sep then if Ascii.eqb b sep then 2 else 1 else 0
  | String a EmptyString => if Ascii.eqb a sep then 1 else 0
  | EmptyString => 0
  end.

Fixpoint slashes (n : nat) : string :=
  match n with O => EmptyString | S n => String sep (slashes n) end.

Definition norm_comps (p : string) : list string :=
  fold_left (norm_step (initial_slashes p)) (split_sep p) [].

Definition normpath (p : string) : string :=
  if is_empty p then "."
  else
    let r := slashes (initial_slashes p) +:+ join_sep (norm_comps p) in
    if is_empty r then "." else r.

Definition abspath (cwd p : string) : string :=
  normpath (if isabs p then p else join2 cwd p).

(** [[x for x in abspath(p).split('/') if x]]. *)
Definition abs_parts (cwd p : string) : list string :=
  filter (λ x, x ≠ "") (split_sep (abspath cwd p)).

Fixpoint common_prefix_length (a b : list string) : nat :=
  match a, b with
  | x :: a', y :: b' =>
      if bool_decide (x = y) then S (common_prefix_length a' b') else 0
  | _, _ => 0
  end.

(** [os.path.relpath(p)], relative to the current directory. *)
Definition relpath (cwd p : string) : res string :=
  if is_empty p then Raise ValueError
  else
    let start_list := abs_parts cwd "." in
    let path_list := abs_parts cwd p in
    let i := common_prefix_length start_list path_list in
    let rel_list := replicate (length start_list - i) ".." ++ drop i path_list in
    match rel_list with
    | [] => Ok "."
    | x :: r => Ok (join x r)
    end.

End posixpath.


(** ** The world: working directory, directory tree, document I/O trace *)

(** A JSON value as the code sees it: a nested mapping (a Python [dict],
    insertion-ordered, hence a list of bindings) or anything else, kept as
    its text. *)
Inductive json : Type :=
  | JLeaf (s : string)
  | JObj (d : dict)
with dict : Type :=
  | DNil
  | DCons (k : string) (v : json) (rest : dict).

Inductive content : Type :=
  | Text (s : string)
  | Json (j : json).

Inductive node : Type :=
  | Dir
  | File (c : content).

(** Ghost events: one per call of [autofile.json_.read_json] and
    [autofile.json_.write_json], so that document reads and writes can be
    counted. *)
Inductive event : Type :=
  | ReadJson (p : string)
  | WriteJson (p : string).

(** The filesystem maps the components of a normalised absolute path to a
    node; the root directory is implicit. *)
Record World : Type := mkWorld {
  cwd : string;
  fs : gmap (list string) node;
  trace : list event
}.

Definition with_fs (w : World) (m : gmap (list string) node) : World :=
  {| cwd := cwd w; fs := m; trace := trace w |}.

Definition log (e : event) (w : World) : World :=
  {| cwd := cwd w; fs := fs w; trace := trace w ++ [e] |}.

(** Paths are resolved lexically (there are no symbolic links): the key of
    [p] is the component list of [normpath] applied to [p] made absolute.
    This is what the kernel's walk along [p] reaches when [p] is not empty
    and every directory it names on the way exists, as it does for a
    normalised path in a directory tree. Where [p] steps into a missing
    directory and back with [..], and for the empty path, the kernel fails
    while this lookup goes on; statements that depend on the difference
    take a path without such steps. *)
Definition resolve (c p : string) : list string :=
  posixpath.norm_comps (if posixpath.isabs p then p else posixpath.join2 c p).

Definition node_key (w : World) (k : list string) : option node :=
  match k with
  | [] => Some Dir
  | _ => fs w !! k
  end.

Definition node_at (w : World) (p : string) : option node :=
  node_key w (resolve (cwd w) p).

Definition dir_at (w : World) (p : string) : bool :=
  match node_at w p with Some Dir => true | _ => false end.

Definition file_at (w : World) (p : string) : bool :=
  match node_at w p with Some (File _) => true | _ => false end.

Definition exists_at (w : World) (p : string) : bool :=
  match node_at w p with Some _ => true | None => false end.

(** ** Computations: state and exceptions *)

Definition M (A : Type) : Type := World -> res A * World.

Definition ret {A} (a : A) : M A := fun w => (Ok a, w).
Definition raise {A} (e : exn) : M A := fun w => (Raise e, w).
Definition bind {A B} (m : M A) (k : A -> M B) : M B :=
  fun w => match m w with
           | (Ok a, w') => k a w'
           | (Raise e, w') => (Raise e, w')
           end.
Definition lift {A} (r : res A) : M A := fun w => (r, w).
Definition assert_ (b : bool) : M unit :=
  if b then ret tt else raise AssertionError.
Definition getcwd : M string := fun w => (Ok (cwd w), w).

Notation "'let*' x ':=' m 'in' k" := (bind m (fun x => k))
  (at level 10, x pattern, m at level 200, k at level 200).
Notation "m1 ';;' m2" := (bind m1 (fun _ => m2))
  (at level 100, m2 at level 200, right associativity).

(** [for x in xs: body(x)], collecting the results. *)
Fixpoint for_each {A B} (body : A -> M B) (xs : list A) : M (list B) :=
  match xs with
  | [] => ret []
  | x :: xs' =>
      let* y := body x in
      let* ys := for_each body xs' in
      ret (y :: ys)
  end.

(** ** Operating-system primitives ([os], [os.path], [shutil], [glob]) *)

Module os.

Definition isdir (p : string) : M bool := fun w => (Ok (dir_at w p), w).
Definition isfile (p : string) : M bool := fun w => (Ok (file_at w p), w).
Definition exists_ (p : string) : M bool := fun w => (Ok (exists_at w p), w).

(** The non-empty proper prefixes of a key, shortest first. *)
Definition ancestors (k : list string) : list (list string) :=
  (λ n, take n k) <$> seq 1 (length k - 1).

Definition is_file_node (o : option node) : bool :=
  match o with Some (File _) => true | _ => false end.

Definition is_dir_node (n : node) : bool :=
  match n with Dir => true | File _ => false end.

(** [os.makedirs(p)] with [exist_ok=False]: the leaf must not exist and no
    ancestor may be a file; every missing ancestor is created. *)
Definition makedirs (p : string) : M unit :=
  fun w =>
    let k := resolve (cwd w) p in
    match node_at w p with
    | Some _ => (Raise FileExistsError, w)
    | None =>
        if existsb (λ a, is_file_node (fs w !! a)) (ancestors k)
        then (Raise NotADirectoryError, w)
        else (Ok tt,
              with_fs w (foldr (λ a m, <[a := Dir]> m) (fs w) (ancestors k ++ [k])))
    end.

(** [os.remove(p)]. *)
Definition remove (p : string) : M unit :=
  fun w =>
    match node_at w p with
    | None => (Raise FileNotFoundError, w)
    | Some Dir => (Raise IsADirectoryError, w)
    | Some (File _) => (Ok tt, with_fs w (delete (resolve (cwd w) p) (fs w)))
    end.

(** The last component of [p], trailing separators apart, is [.] or [..]. *)
Definition ends_in_dot (p : string) : bool :=
  match last (filter (λ x, x ≠ "") (posixpath.split_sep p)) with
  | Some x => bool_decide (x = ".") || bool_decide (x = "..")
  | None => false
  end.

(** [shutil.rmtree(p)]: the directory and everything below it. For a path
    whose last component is [.] or [..] the call empties the directory and
    then fails in its final [rmdir]; the model does not follow it there. *)
Definition rmtree (p : string) : M unit :=
  fun w =>
    match node_at w p with
    | None => (Raise FileNotFoundError, w)
    | Some (File _) => (Raise NotADirectoryError, w)
    | Some Dir =>
        if ends_in_dot p then (Raise OutsideModel, w)
        else
          let k := resolve (cwd w) p in
          (Ok tt, with_fs w (filter (λ kv, ¬ k `prefix_of` kv.1) (fs w)))
    end.

(** The entries of the directory with key [k]. *)
Definition child_name (k k' : list string) : option string :=
  if decide (length k' = S (length k) ∧ k `prefix_of` k') then last k' else None.

Definition listdir (w : World) (k : list string) (dironly : bool) : list string :=
  omap (λ kv : list string * node,
          if dironly && negb (is_dir_node kv.2) then None
          else child_name k kv.1)
       (map_to_list (fs w)).

End os.

Module glob.

Definition is_magic (c : ascii) : bool :=
  Ascii.eqb c "*" || Ascii.eqb c "?" || Ascii.eqb c "[".

Fixpoint has_magic (s : string) : bool :=
  match s with
  | EmptyString => false
  | String c s' => is_magic c || has_magic s'
  end.

Definition ishidden (name : string) : bool :=
  match name with
  | String c _ => Ascii.eqb c "."
  | EmptyString => false
  end.

(** [_glob1(dirname, '*', dironly)]: the entries of [dirname] that are not
    hidden; nothing when [dirname] cannot be listed. *)
Definition glob1 (w : World) (dirname : string) (dironly : bool) : list string :=
  if dir_at w dirname
  then filter (λ x, ishidden x = false)
              (os.listdir w (resolve (cwd w) dirname) dironly)
  else [].

(** [_iglob]: literal patterns, and patterns whose only metacharacter
    components are [*]; any other pattern is outside the model. The
    recursion is on the pattern, which [split] shortens. *)
Fixpoint iglob (fuel : nat) (w : World) (pathname : string) (dironly : bool)
    : res (list string) :=
  match fuel with
  | O => Raise RecursionError
  | S fuel' =>
      let '(dirname, basename) := posixpath.split pathname in
      if negb (has_magic pathname) then
        if negb (posixpath.is_empty basename)
        then Ok (if exists_at w pathname then [pathname] else [])
        else Ok (if dir_at w dirname then [pathname] else [])
      else if bool_decide (basename = "*") then
        let dirs :=
          if bool_decide (dirname ≠ pathname) && has_magic dirname
          then iglob fuel' w dirname true
          else Ok [dirname] in
        res_bind dirs (λ ds,
          Ok (flat_map (λ d, posixpath.join2 d <$> glob1 w d dironly) ds))
      else Raise OutsideModel
  end.

Definition glob (pathname : string) : M (list string) :=
  fun w => (iglob (S (String.length pathname)) w pathname false, w).

End glob.

(** [sorted] on strings: code-point order. *)
Definition sorted (l : list string) : list string := merge_sort String.le l.

(** ** The package's file helpers *)

Definition quote : string := String (ascii_of_nat 34) EmptyString.

(** The text of a document, as [read_file] would see it. *)
Fixpoint json_text (j : json) : string :=
  match j with
  | JLeaf s => s
  | JObj d => "{" +:+ dict_text d +:+ "}"
  end
with dict_text (d : dict) : string :=
  match d with
  | DNil => EmptyString
  | DCons k v DNil => quote +:+ k +:+ quote +:+ ": " +:+ json_text v
  | DCons k v r => quote +:+ k +:+ quote +:+ ": " +:+ json_text v +:+ ", " +:+ dict_text r
  end.

(** What opening [p] for writing needs: [p] is not a directory and its
    parent is one. *)
Definition writable (w : World) (p : string) : res (list string) :=
  let k := resolve (cwd w) p in
  match node_key w k with
  | Some Dir => Raise IsADirectoryError
  | _ =>
      match node_key w (removelast k) with
      | Some Dir => Ok k
      | Some (File _) => Raise NotADirectoryError
      | None => Raise FileNotFoundError
      end
  end.

Definition put_file (p : string) (c : content) : M unit :=
  fun w =>
    match writable w p with
    | Ok k => (Ok tt, with_fs w (<[k := File c]> (fs w)))
    | Raise e => (Raise e, w)
    end.

Module io_.

(** Modelled from the spec: [autofile.io_.write_file] is not under src/.
    Section 4.2: the result of the writer is written to [directory/name],
    replacing the whole file. *)
Definition write_file (p : string) (s : string) : M unit :=
  put_file p (Text s).

(** Modelled from the spec: [autofile.io_.read_file] is not under src/.
    Section 4.2 and 7: reading a file that does not exist fails
    (MissingResource); otherwise the text of the file is returned. *)
Definition read_file (p : string) : M string :=
  fun w =>
    match node_at w p with
    | Some (File (Text s)) => (Ok s, w)
    | Some (File (Json j)) => (Ok (json_text j), w)
    | Some Dir => (Raise IsADirectoryError, w)
    | None => (Raise FileNotFoundError, w)
    end.

End io_.

Module json_.

(** Modelled from the spec: [autofile.json_.read_json] is not under src/.
    Section 7: reading a file that does not exist is a MissingResource
    failure; contents that do not parse are a DocumentCorruption failure. *)
Definition read_json (p : string) : M json :=
  fun w =>
    let w' := log (ReadJson p) w in
    match node_at w p with
    | Some (File (Json j)) => (Ok j, w')
    | Some (File (Text _)) => (Raise JSONDecodeError, w')
    | Some Dir => (Raise IsADirectoryError, w')
    | None => (Raise FileNotFoundError, w')
    end.

(** Modelled from the spec: [autofile.json_.write_json] is not under src/.
    Section 4.3: the whole document file is rewritten. *)
Definition write_json (j : json) (p : string) : M unit :=
  fun w => put_file p (Json j) (log (WriteJson p) w).

End json_.

(** ** Python dictionaries *)

Fixpoint dict_get (k : string) (d : dict) : option json :=
  match d with
  | DNil => None
  | DCons k' v r => if bool_decide (k' = k) then Some v else dict_get k r
  end.

Definition dict_mem (k : string) (d : dict) : bool :=
  match dict_get k d with Some _ => true | None => false end.

(** [d[k] = v]: in place for a key that is present, appended otherwise. *)
Fixpoint dict_set (k : string) (v : json) (d : dict) : dict :=
  match d with
  | DNil => DCons k v DNil
  | DCons k' v' r =>
      if bool_decide (k' = k) then DCons k' v r else DCons k' v' (dict_set k v r)
  end.

Fixpoint dict_keys (d : dict) : list string :=
  match d with
  | DNil => []
  | DCons k _ r => k :: dict_keys r
  end.

Fixpoint dict_values (d : dict) : list json :=
  match d with
  | DNil => []
  | DCons _ v r => v :: dict_values r
  end.

(** [x.keys()]: only a mapping has keys. *)
Definition as_dict (j : json) : res dict :=
  match j with
  | JObj d => Ok d
  | JLeaf _ => Raise AttributeError
  end.

Definition is_dict (j : json) : bool :=
  match j with JObj _ => true | JLeaf _ => false end.

(** ** [autofile/model.py] *)

(** Locator values are opaque to this module; they are taken to be strings,
    and a locator is a sequence of them. *)
Definition loc : Type := string.

(** [_os_path_split_all]: the loop runs until one of the two sentinels
    fires; every other round shortens [pth], so its length bounds the number
    of rounds. *)
Fixpoint split_all_loop (fuel : nat) (pth : string) (allparts : list string)
    : list string :=
  match fuel with
  | O => allparts
  | S fuel' =>
      let parts := posixpath.split pth in
      if bool_decide (parts.1 = pth) then parts.1 :: allparts
      else if bool_decide (parts.2 = pth) then parts.2 :: allparts
      else split_all_loop fuel' parts.1 (parts.2 :: allparts)
  end.

Definition _os_path_split_all (pth : string) : list string :=
  split_all_loop (S (String.length pth)) pth [].

Definition _path_is_relative (c pth : string) : res bool :=
  res_bind (posixpath.relpath c pth) (λ r, Ok (bool_decide (r = pth))).

Definition _path_has_depth (pth : string) (depth : nat) : bool :=
  bool_decide (length (_os_path_split_all pth) = depth).

Module DataFile.

Record t (V : Type) : Type := mk {
  name : string;
  writer_ : V -> res string;
  reader_ : string -> res V;
  removable : bool
}.
Arguments mk {V}.
Arguments name {V}.
Arguments writer_ {V}.
Arguments reader_ {V}.
Arguments removable {V}.

Section ops.
Context {V : Type}.

(** [__init__(name, writer_, reader_)]: there is no [removable] argument. *)
Definition __init__ (name : string) (writer_ : V -> res string)
    (reader_ : string -> res V) : t V :=
  {| name := name; writer_ := writer_; reader_ := reader_; removable := false |}.

Definition path (self : t V) (dir_pth : string) : string :=
  posixpath.join2 dir_pth (name self).

Definition exists_ (self : t V) (dir_pth : string) : M bool :=
  os.isfile (path self dir_pth).

Definition write (self : t V) (val : V) (dir_pth : string) : M unit :=
  let* e := os.exists_ dir_pth in
  assert_ e;;
  let pth := path self dir_pth in
  let* val_str := lift (writer_ self val) in
  io_.write_file pth val_str.

Definition read (self : t V) (dir_pth : string) : M V :=
  let* e := exists_ self dir_pth in
  assert_ e;;
  let pth := path self dir_pth in
  let* val_str := io_.read_file pth in
  lift (reader_ self val_str).

Definition remove (self : t V) (dir_pth : string) : M unit :=
  if removable self then
    let pth := path self dir_pth in
    os.remove pth
  else raise ValueError.

End ops.
End DataFile.

Module DataSeries.

Inductive t : Type := mk {
  prefix : string;
  map_ : list loc -> string;
  nlocs : nat;
  depth : nat;
  loc_dfile : option (DataFile.t (list loc));
  root : option t;
  removable : bool
}.

Definition JSON : string := "db.json".

(** [__init__]: the prefix must be a directory; its absolute form is kept. *)
Definition __init__ (prefix : string) (map_ : list loc -> string)
    (nlocs depth : nat) (loc_dfile : option (DataFile.t (list loc)))
    (root_ds : option t) (removable : bool) : M t :=
  let* d := os.isdir prefix in
  assert_ d;;
  let* c := getcwd in
  ret {| prefix := posixpath.abspath c prefix; map_ := map_; nlocs := nlocs;
         depth := depth; loc_dfile := loc_dfile; root := root_ds;
         removable := removable |}.

Definition _self_locators (self : t) (locs : list loc) : res (list loc) :=
  let n := length locs in
  if bool_decide (nlocs self <= n)
  then Ok (drop (n - nlocs self) locs)
  else Raise AssertionError.

Definition _root_locators (self : t) (locs : list loc) : res (list loc) :=
  let n := length locs in
  if bool_decide (nlocs self <= n)
  then Ok (take (n - nlocs self) locs)
  else Raise AssertionError.

Fixpoint root_locator_count (self : t) : nat :=
  match root self with
  | None => 0
  | Some r => nlocs r + root_locator_count r
  end.

Definition res_assert (b : bool) : res unit :=
  if b then Ok tt else Raise AssertionError.

(** The part of [path] after the prefix and the local locators are known. *)
Definition path_tail (c : string) (self : t) (prefix : string)
    (locs : list loc) : res string :=
  res_bind (res_assert (bool_decide (length locs = nlocs self))) (λ _,
  let pth := map_ self locs in
  res_bind (_path_is_relative c pth) (λ rel,
  res_bind (res_assert rel) (λ _,
  res_bind (res_assert (_path_has_depth pth (depth self))) (λ _,
  Ok (posixpath.join2 prefix pth))))).

(** [path(locs)], for the current directory [c]. *)
Fixpoint path_in (c : string) (self : t) (locs : list loc) : res string :=
  match root self with
  | None => path_tail c self (prefix self) locs
  | Some r =>
      res_bind (_root_locators self locs) (λ root_locs,
      res_bind (_self_locators self locs) (λ locs',
      res_bind (path_in c r root_locs) (λ prefix,
      path_tail c self prefix locs')))
  end.

Definition path (self : t) (locs : list loc) : M string :=
  let* c := getcwd in lift (path_in c self locs).

Definition exists_ (self : t) (locs : list loc) : M bool :=
  let* pth := path self locs in
  os.isdir pth.

Definition remove (self : t) (locs : list loc) : M unit :=
  if removable self then
    let* pth := path self locs in
    let* e := exists_ self locs in
    if e then os.rmtree pth else ret tt
  else raise ValueError.

(** The second half of [create]: this level's directory. *)
Definition create_here (self : t) (locs : list loc) : M unit :=
  let* e := exists_ self locs in
  if negb e then
    let* pth := path self locs in
    os.makedirs pth;;
    match loc_dfile self with
    | Some f =>
        let* locs' := lift (_self_locators self locs) in
        DataFile.write f locs' pth
    | None => ret tt
    end
  else ret tt.

Fixpoint create (self : t) (locs : list loc) : M unit :=
  match root self with
  | Some r =>
      let* root_locs := lift (_root_locators self locs) in
      create r root_locs;;
      create_here self locs
  | None => create_here self locs
  end.

Definition _existing_paths (self : t) (root_locs : list loc) : M (list string) :=
  let* prefix :=
    match root self with
    | None => ret (prefix self)
    | Some r => path r root_locs
    end in
  let pth_pattern := posixpath.join prefix (replicate (depth self) "*") in
  let* found := glob.glob pth_pattern in
  fun w =>
    let pths := filter (λ p, dir_at w p = true) found in
    (Ok (sorted (posixpath.join2 prefix <$> pths)), w).

(** The generator [loc_dfile.read(pth) for pth in pths if
    loc_dfile.exists(pth)]. *)
Definition read_locators (f : DataFile.t (list loc)) (pths : list string)
    : M (list (list loc)) :=
  let* found :=
    for_each (λ pth,
      let* e := DataFile.exists_ f pth in
      if e then let* v := DataFile.read f pth in ret (Some v)
      else ret None) pths in
  ret (omap id found).

(** [existing(root_locs, relative)]. The method calls itself on every
    locator its root reports; [fuel] bounds the depth of these calls. *)
Fixpoint existing (fuel : nat) (self : t) (root_locs : list loc)
    (relative : bool) : M (list (list loc)) :=
  match fuel with
  | O => raise RecursionError
  | S fuel' =>
      if bool_decide (nlocs self = 0) then
        let* e := exists_ self [] in
        ret (if e then [[]] else [])
      else
        match loc_dfile self with
        | None => raise ValueError
        | Some f =>
            let root_nlocs := root_locator_count self in
            if bool_decide (length root_locs < root_nlocs) then
              match root self with
              | None => raise AttributeError
              | Some r =>
                  let* found := existing fuel' r root_locs false in
                  let* lsts :=
                    for_each (λ root_locs_, existing fuel' self root_locs_ false)
                             found in
                  ret (concat lsts)
              end
            else
              assert_ (bool_decide (root_nlocs = length root_locs));;
              let* pths := _existing_paths self root_locs in
              let* locs_lst := read_locators f pths in
              ret (if negb relative then (λ l, root_locs ++ l) <$> locs_lst
                   else locs_lst)
        end
  end.

Definition truthy (o : option string) : bool :=
  match o with
  | Some s => negb (posixpath.is_empty s)
  | None => false
  end.

Definition _remove_layer_from_path (path : string) (json_layer : option string)
    : string :=
  let '(head, tail) := posixpath.split path in
  if bool_decide (Some tail = json_layer) then head else path.

Definition json_path_in (c : string) (self : t) (json_layer : option string)
    : res string :=
  res_bind (match root self with
            | None => Ok (prefix self)
            | Some r => path_in c r []
            end) (λ prefix,
  let prefix :=
    if truthy json_layer then _remove_layer_from_path prefix json_layer
    else prefix in
  Ok (posixpath.join2 prefix JSON)).

Definition json_path (self : t) (json_layer : option string) : M string :=
  let* c := getcwd in lift (json_path_in c self json_layer).

Definition json_exists (self : t) (json_layer : option string) : M bool :=
  let* pth := json_path self json_layer in
  os.isfile pth.

(** The key loop of [json_existing]: a missing segment empties the view. *)
Fixpoint existing_loop (locs : list string) (dct : dict) : res dict :=
  match locs with
  | [] => Ok dct
  | nested_key :: rest =>
      match dict_get nested_key dct with
      | Some v => res_bind (as_dict v) (existing_loop rest)
      | None => existing_loop rest DNil
      end
  end.

(** [json_existing(locs, json_layer)]. The first statement rebinds [locs]
    to the empty list, and the last one rebuilds the result from all of
    [keys]; both are kept as written. *)
Definition json_existing (self : t) (locs : list string)
    (json_layer : option string) : M (list (list string)) :=
  let locs : list string := [] in
  let* e := json_exists self json_layer in
  if e then
    let* pth := json_path self json_layer in
    let* json_data := json_.read_json pth in
    let* top := lift (as_dict json_data) in
    let* dct := lift (existing_loop locs top) in
    let keys := dict_keys dct in
    let locs := filter (λ key, dict_get key dct ≫= (Some ∘ is_dict) = Some true) keys in
    let locs := (λ key, [key]) <$> keys in
    ret locs
  else ret [].

Definition _map (self : t) (locs : list loc) : list string :=
  match locs with
  | [] => locs
  | _ => [map_ self locs]
  end.

Definition json_create (self : t) (json_layer : option string) : M unit :=
  let* e := json_exists self None in
  if negb e then
    let* pth := json_path self json_layer in
    json_.write_json (JObj DNil) pth
  else ret tt.

End DataSeries.

Module DataSeriesFile.

Record t (V : Type) : Type := mk {
  dir : DataSeries.t;
  file : DataFile.t V;
  removable : bool
}.
Arguments mk {V}.
Arguments dir {V}.
Arguments file {V}.
Arguments removable {V}.

Section ops.
Context {V : Type}.

Definition __init__ (ds : DataSeries.t) (dfile : DataFile.t V) : t V :=
  {| dir := ds; file := dfile; removable := false |}.

Definition path (self : t V) (locs : list loc) : M string :=
  let* d := DataSeries.path (dir self) locs in
  ret (DataFile.path (file self) d).

Definition exists_ (self : t V) (locs : list loc) : M bool :=
  let* d := DataSeries.path (dir self) locs in
  DataFile.exists_ (file self) d.

Definition write (self : t V) (val : V) (locs : list loc) : M unit :=
  let* d := DataSeries.path (dir self) locs in
  DataFile.write (file self) val d.

Definition read (self : t V) (locs : list loc) : M V :=
  let* d := DataSeries.path (dir self) locs in
  DataFile.read (file self) d.

Definition remove (self : t V) (locs : list loc) : M unit :=
  if removable self then
    let* pth := path self locs in
    os.remove pth
  else raise ValueError.

End ops.
End DataSeriesFile.

Module JSONObject.

Record t (V : Type) : Type := mk {
  name : string;
  json_prefix : option (list string);
  json_layer : option string;
  removable : bool;
  writer_ : V -> res json;
  reader_ : json -> res V
}.
Arguments mk {V}.
Arguments name {V}.
Arguments json_prefix {V}.
Arguments json_layer {V}.
Arguments removable {V}.
Arguments writer_ {V}.
Arguments reader_ {V}.

Section ops.
Context {V : Type}.

Definition __init__ (name : string)
    (json_prefix : option (list string) * option string)
    (writer_ : V -> res json) (reader_ : json -> res V) : t V :=
  {| name := name; json_prefix := json_prefix.1; json_layer := json_prefix.2;
     removable := false; writer_ := writer_; reader_ := reader_ |}.

(** [items(path)]: the bindings of the document are unzipped into [keys]
    and [entries]; unpacking into the two names needs at least one binding.
    Without a file both stay empty. *)
Definition items (self : t V) (path : string) : M (list string * list json) :=
  let* f := os.isfile path in
  if f then
    let* json_data := json_.read_json path in
    let* d := lift (as_dict json_data) in
    match d with
    | DNil => raise ValueError
    | DCons _ _ _ => ret (dict_keys d, dict_values d)
    end
  else ret ([], []).

Definition keys (self : t V) (path : string) : M (list string) :=
  let* (keys, _) := items self path in
  ret keys.

Definition entries (self : t V) (path : string) : M (list json) :=
  let* (_, entries) := items self path in
  ret entries.

(** [_add_layer(key)]: [None.copy()] is an [AttributeError]. *)
Definition _add_layer (self : t V) (key : list string) : res (list string) :=
  match json_layer self with
  | Some l =>
      if negb (posixpath.is_empty l) then
        match json_prefix self with
        | Some p => Ok (p ++ [l] ++ key)
        | None => Raise AttributeError
        end
      else Ok key
  | None => Ok key
  end.

(** The key loop shared by [exists] and [_read], on the pair
    ([dct], [exists]); after a miss the loop goes on from the same [dct]. *)
Fixpoint lookup_loop (key : list string) (dct : dict) (exists_ : bool)
    : res (dict * bool) :=
  match key with
  | [] => Ok (dct, exists_)
  | nested_key :: rest =>
      match dict_get nested_key dct with
      | Some v => res_bind (as_dict v) (λ d, lookup_loop rest d exists_)
      | None => lookup_loop rest dct false
      end
  end.

Definition exists_ (self : t V) (key : list string) (path : string) : M bool :=
  let* key := lift (_add_layer self key) in
  let* json_data := json_.read_json path in
  let* top := lift (as_dict json_data) in
  let* (dct, e) := lift (lookup_loop key top true) in
  ret (if e then dict_mem (name self) dct else false).

(** [_read(key, json_data)]: [None] when nothing is returned. *)
Definition _read (self : t V) (key : list string) (json_data : json)
    : res (option V) :=
  res_bind (_add_layer self key) (λ key,
  res_bind (as_dict json_data) (λ top,
  res_bind (lookup_loop key top true) (λ '(dct, e),
  if e then
    match dict_get (name self) dct with
    | Some v => res_bind (reader_ self v) (λ x, Ok (Some x))
    | None => Ok None
    end
  else Ok None))).

Definition read (self : t V) (key : list string) (path : string)
    : M (option V) :=
  let* json_data := json_.read_json path in
  lift (_read self key json_data).

Fixpoint read_all_loop (self : t V) (keys : list (list string))
    (json_data : json) : res (list (option V)) :=
  match keys with
  | [] => Ok []
  | key :: rest =>
      res_bind (_read self key json_data) (λ x,
      res_bind (read_all_loop self rest json_data) (λ xs, Ok (x :: xs)))
  end.

Definition read_all (self : t V) (keys : list (list string)) (path : string)
    : M (list (option V)) :=
  let* json_data := json_.read_json path in
  lift (read_all_loop self keys json_data).

(** The key loop of [write] and [write_all], which creates the mappings
    that are missing on the way, followed by the update [leaf] of the
    mapping that is reached. The document is mutated in place in the source;
    here the updated mapping is rebuilt on the way back, a created mapping
    landing where [dct[nested_key] = {}] put it: at the end. *)
Fixpoint write_loop (key : list string) (leaf : dict -> res dict) (dct : dict)
    : res dict :=
  match key with
  | [] => leaf dct
  | nested_key :: rest =>
      let sub :=
        match dict_get nested_key dct with
        | Some v => as_dict v
        | None => Ok DNil
        end in
      res_bind sub (λ sub,
      res_bind (write_loop rest leaf sub) (λ sub',
      Ok (dict_set nested_key (JObj sub') dct)))
  end.

(** [val = self.writer_(val); dct[self.name] = val]. *)
Definition set_field (self : t V) (val : V) (dct : dict) : res dict :=
  res_bind (writer_ self val) (λ v, Ok (dict_set (name self) v dct)).

(** One key of [write] or [write_all], applied to the document in memory. *)
Definition write_one (self : t V) (val : V) (key : list string)
    (current_json : json) : res json :=
  res_bind (as_dict current_json) (λ top,
  res_bind (write_loop key (set_field self val) top) (λ top',
  Ok (JObj top'))).

Definition write (self : t V) (val : V) (key : list string) (path : string)
    : M unit :=
  let* key := lift (_add_layer self key) in
  let* current_json := json_.read_json path in
  let* new_json := lift (write_one self val key current_json) in
  json_.write_json new_json path.

(** [for key, val in zip(all_keys, vals)]. *)
Fixpoint write_all_loop (self : t V) (pairs : list (list string * V))
    (current_json : json) : res json :=
  match pairs with
  | [] => Ok current_json
  | (key, val) :: rest =>
      res_bind (_add_layer self key) (λ key,
      res_bind (write_one self val key current_json) (λ new_json,
      write_all_loop self rest new_json))
  end.

Definition write_all (self : t V) (vals : list V) (all_keys : list (list string))
    (path : string) : M unit :=
  let* current_json := json_.read_json path in
  let* new_json := lift (write_all_loop self (zip all_keys vals) current_json) in
  json_.write_json new_json path.

End ops.
End JSONObject.

Module JSONEntry.

Record t (V : Type) : Type := mk {
  js : DataSeries.t;
  json : JSONObject.t V;
  removable : bool
}.
Arguments mk {V}.
Arguments js {V}.
Arguments json {V}.
Arguments removable {V}.

Section ops.
Context {V : Type}.

Definition __init__ (js : DataSeries.t) (jobject : JSONObject.t V) : t V :=
  {| js := js; json := jobject; removable := false |}.

(** The key handed to the [JSONObject]: mapped or verbatim. *)
Definition the_key (self : t V) (key : list string) (mapping : bool)
    : list string :=
  if mapping then DataSeries._map (js self) key else key.

Definition doc_path (self : t V) : M string :=
  DataSeries.json_path (js self) (JSONObject.json_layer (json self)).

Definition exists_ (self : t V) (key : list string) (mapping : bool) : M bool :=
  let* pth := doc_path self in
  JSONObject.exists_ (json self) (the_key self key mapping) pth.

Definition existing (self : t V) (key : list string)
    : M (list (list string)) :=
  let* locs := lift (JSONObject._add_layer (json self) key) in
  DataSeries.json_existing (js self) locs (JSONObject.json_layer (json self)).

(** The first two statements of [write] and [write_all]. *)
Definition ensure_document (self : t V) : M unit :=
  let* e := DataSeries.json_exists (js self) (JSONObject.json_layer (json self)) in
  if negb e
  then DataSeries.json_create (js self) (JSONObject.json_layer (json self))
  else ret tt.

Definition write (self : t V) (val : V) (key : list string) (mapping : bool)
    : M unit :=
  ensure_document self;;
  let key := the_key self key mapping in
  let* pth := doc_path self in
  JSONObject.write (json self) val key pth.

Definition write_all (self : t V) (vals : list V) (keys : list (list string))
    (mapping : bool) : M unit :=
  ensure_document self;;
  let new_keys := (λ key, the_key self key mapping) <$> keys in
  let* pth := doc_path self in
  JSONObject.write_all (json self) vals new_keys pth.

Definition read (self : t V) (key : list string) (mapping : bool)
    : M (option V) :=
  let* e := exists_ self key mapping in
  if e then
    let* pth := doc_path self in
    JSONObject.read (json self) (the_key self key mapping) pth
  else ret None.

(** The first loop of [read_all]: the keys that exist, mapped or verbatim. *)
Fixpoint existing_keys (self : t V) (keys : list (list string))
    (mapping : bool) : M (list (list string)) :=
  match keys with
  | [] => ret []
  | key :: rest =>
      let* e := exists_ self key mapping in
      let* new_keys := existing_keys self rest mapping in
      ret (if e then the_key self key mapping :: new_keys else new_keys)
  end.

Definition read_all (self : t V) (keys : list (list string)) (mapping : bool)
    : M (list (option V)) :=
  let* new_keys := existing_keys self keys mapping in
  match new_keys with
  | [] => ret []
  | _ =>
      let* pth := doc_path self in
      JSONObject.read_all (json self) new_keys pth
  end.

End ops.
End JSONEntry.

(** ** [autofile/data_types/name.py] *)

(** [s.endswith(ext)]. *)
Fixpoint endswith (s ext : string) : bool :=
  bool_decide (s = ext)
  || match s with
     | EmptyString => false
     | String _ s' => endswith s' ext
     end.

Module name.

Module Extension.
Definition INFORMATION : string := ".yaml".
Definition INPUT_LOG : string := ".inp".
Definition OUTPUT_LOG : string := ".out".
Definition PROJROT_LOG : string := ".prot".
Definition SHELL_SCRIPT : string := ".sh".
Definition ENERGY : string := ".ene".
Definition GEOMETRY : string := ".xyz".
Definition TRAJECTORY : string := ".t.xyz".
Definition ZMATRIX : string := ".zmat".
Definition VMATRIX : string := ".vmat".
Definition GRADIENT : string := ".grad".
Definition HESSIAN : string := ".hess".
Definition HARMONIC_ZPVE : string := ".hzpve".
Definition ANHARMONIC_ZPVE : string := ".azpve".
Definition HARMONIC_FREQUENCIES : string := ".hfrq".
Definition ANHARMONIC_FREQUENCIES : string := ".afrq".
Definition PROJECTED_FREQUENCIES : string := ".pfrq".
Definition ANHARMONICITY_MATRIX : string := ".xmat".
Definition VIBRO_ROT_MATRIX : string := ".vrmat".
Definition CENTRIF_DIST_CONSTS : string := ".qcd".
Definition LJ_EPSILON : string := ".eps".
Definition LJ_SIGMA : string := ".sig".
Definition EXTERNAL_SYMMETRY_FACTOR : string := ".esym".
Definition GRAPH : string := ".g.yaml".
Definition TRANSFORMATION : string := ".t.yaml".
Definition VRC_TST : string := ".tst".
Definition VRC_DIVSUR : string := ".divsur".
Definition VRC_MOLP : string := ".molpro".
Definition VRC_TML : string := ".tml".
Definition VRC_STRUCT : string := ".struct".
Definition VRC_POT : string := ".pot".
Definition VRC_FLUX : string := ".flux".
Definition JSON : string := ".json".
End Extension.

(** [_add_extension(file_name, ext)]: the extension is added when it is
    missing. *)
Definition _add_extension (file_name ext : string) : string :=
  if negb (endswith file_name ext) then file_name +:+ ext else file_name.

Definition information (file_name : string) : string :=
  _add_extension file_name Extension.INFORMATION.
Definition input_file (file_name : string) : string :=
  _add_extension file_name Extension.INPUT_LOG.
Definition output_file (file_name : string) : string :=
  _add_extension file_name Extension.OUTPUT_LOG.
Definition projrot_file (file_name : string) : string :=
  _add_extension file_name Extension.PROJROT_LOG.
Definition run_script (file_name : string) : string :=
  _add_extension file_name Extension.SHELL_SCRIPT.
Definition energy (file_name : string) : string :=
  _add_extension file_name Extension.ENERGY.
Definition geometry (file_name : string) : string :=
  _add_extension file_name Extension.GEOMETRY.
Definition trajectory (file_name : string) : string :=
  _add_extension file_name Extension.TRAJECTORY.
Definition zmatrix (file_name : string) : string :=
  _add_extension file_name Extension.ZMATRIX.
Definition vmatrix (file_name : string) : string :=
  _add_extension file_name Extension.VMATRIX.
Definition gradient (file_name : string) : string :=
  _add_extension file_name Extension.GRADIENT.
Definition hessian (file_name : string) : string :=
  _add_extension file_name Extension.HESSIAN.
Definition harmonic_zpve (file_name : string) : string :=
  _add_extension file_name Extension.HARMONIC_ZPVE.
Definition anharmonic_zpve (file_name : string) : string :=
  _add_extension file_name Extension.ANHARMONIC_ZPVE.
Definition harmonic_frequencies (file_name : string) : string :=
  _add_extension file_name Extension.HARMONIC_FREQUENCIES.
Definition anharmonic_frequencies (file_name : string) : string :=
  _add_extension file_name Extension.ANHARMONIC_FREQUENCIES.
Definition projected_frequencies (file_name : string) : string :=
  _add_extension file_name Extension.PROJECTED_FREQUENCIES.
Definition anharmonicity_matrix (file_name : string) : string :=
  _add_extension file_name Extension.ANHARMONICITY_MATRIX.
Definition vibro_rot_alpha_matrix (file_name : string) : string :=
  _add_extension file_name Extension.VIBRO_ROT_MATRIX.
Definition quartic_centrifugal_dist_consts (file_name : string) : string :=
  _add_extension file_name Extension.CENTRIF_DIST_CONSTS.
Definition lennard_jones_epsilon (file_name : string) : string :=
  _add_extension file_name Extension.LJ_EPSILON.
Definition lennard_jones_sigma (file_name : string) : string :=
  _add_extension file_name Extension.LJ_SIGMA.
Definition external_symmetry_factor (file_name : string) : string :=
  _add_extension file_name Extension.EXTERNAL_SYMMETRY_FACTOR.
Definition graph (file_name : string) : string :=
  _add_extension file_name Extension.GRAPH.
Definition transformation (file_name : string) : string :=
  _add_extension file_name Extension.TRANSFORMATION.
Definition vrctst_tst (file_name : string) : string :=
  _add_extension file_name Extension.VRC_TST.
Definition vrctst_divsur (file_name : string) : string :=
  _add_extension file_name Extension.VRC_DIVSUR.
Definition vrctst_molpro (file_name : string) : string :=
  _add_extension file_name Extension.VRC_MOLP.
Definition vrctst_tml (file_name : string) : string :=
  _add_extension file_name Extension.VRC_TML.
Definition vrctst_struct (file_name : string) : string :=
  _add_extension file_name Extension.VRC_STRUCT.
Definition vrctst_pot (file_name : string) : string :=
  _add_extension file_name Extension.VRC_POT.
Definition vrctst_flux (file_name : string) : string :=
  _add_extension file_name Extension.VRC_FLUX.

End name.

(** ** [autofile/schema/json_objects.py] *)

(** The fields built with the default [writer_] and [reader_], which hand
    the value on as it is: a value is then any JSON value. The two
    constructors that take their coders from [swrite] and [sread]
    ([information], [gradient]) are left out. *)
Module json_objects.

Definition no_prefix : option (list string) * option string := (None, None).

Definition input_file (file_prefix : string)
    (json_prefix : option (list string) * option string) : JSONObject.t json :=
  JSONObject.__init__ (name.input_file file_prefix) json_prefix Ok Ok.

Definition output_file (file_prefix : string) : JSONObject.t json :=
  JSONObject.__init__ (name.output_file file_prefix) no_prefix Ok Ok.

Definition energy (file_prefix : string)
    (json_prefix : option (list string) * option string) : JSONObject.t json :=
  JSONObject.__init__ (name.energy file_prefix) json_prefix Ok Ok.

Definition geometry (file_prefix : string) : JSONObject.t json :=
  JSONObject.__init__ (name.geometry file_prefix) no_prefix Ok Ok.

(** [locator(file_prefix, map_dct_, loc_keys)]: the two last arguments are
    not used. *)
Definition locator {A B} (file_prefix : string) (map_dct_ : A) (loc_keys : B)
    : JSONObject.t json :=
  JSONObject.__init__ (name.information file_prefix) no_prefix Ok Ok.

Definition hessian (file_prefix : string) : JSONObject.t json :=
  JSONObject.__init__ (name.hessian file_prefix) no_prefix Ok Ok.

Definition harmonic_frequencies (file_prefix : string) : JSONObject.t json :=
  JSONObject.__init__ (name.harmonic_frequencies file_prefix) no_prefix Ok Ok.

Definition anharmonic_frequencies (file_prefix : string) : JSONObject.t json :=
  JSONObject.__init__ (name.anharmonic_frequencies file_prefix) no_prefix Ok Ok.

Definition anharmonic_zpve (file_prefix : string) : JSONObject.t json :=
  JSONObject.__init__ (name.anharmonic_zpve file_prefix) no_prefix Ok Ok.

Definition anharmonicity_matrix (file_prefix : string) : JSONObject.t json :=
  JSONObject.__init__ (name.anharmonicity_matrix file_prefix) no_prefix Ok Ok.

Definition vibro_rot_alpha_matrix (file_prefix : string) : JSONObject.t json :=
  JSONObject.__init__ (name.vibro_rot_alpha_matrix file_prefix) no_prefix Ok Ok.

Definition quartic_centrifugal_dist_consts (file_prefix : string) : JSONObject.t json :=
  JSONObject.__init__ (name.quartic_centrifugal_dist_consts file_prefix) no_prefix Ok Ok.

Definition zmatrix (file_prefix : string) : JSONObject.t json :=
  JSONObject.__init__ (name.zmatrix file_prefix) no_prefix Ok Ok.

Definition vmatrix (file_prefix : string) : JSONObject.t json :=
  JSONObject.__init__ (name.vmatrix file_prefix) no_prefix Ok Ok.

Definition trajectory (file_prefix : string) : JSONObject.t json :=
  JSONObject.__init__ (name.trajectory file_prefix) no_prefix Ok Ok.

Definition graph (file_prefix : string) : JSONObject.t json :=
  JSONObject.__init__ (name.graph file_prefix) no_prefix Ok Ok.

Definition transformation (file_prefix : string) : JSONObject.t json :=
  JSONObject.__init__ (name.transformation file_prefix) no_prefix Ok Ok.

Definition lennard_jones_epsilon (file_prefix : string) : JSONObject.t json :=
  JSONObject.__init__ (name.lennard_jones_epsilon file_prefix) no_prefix Ok Ok.

Definition lennard_jones_sigma (file_prefix : string) : JSONObject.t json :=
  JSONObject.__init__ (name.lennard_jones_sigma file_prefix) no_prefix Ok Ok.

End json_objects.

(** ** Concrete scenarios *)

Module Scenario.

(** A locator file whose text is the locator values joined by [/]. *)
Definition locator_file : DataFile.t (list loc) :=
  DataFile.__init__ "info.yaml"
    (λ locs, Ok (posixpath.join_sep locs))
    (λ text, Ok (posixpath.split_sep text)).

(** Locator values as literal directory names. *)
Definition by_name (locs : list loc) : string := posixpath.join_sep locs.

(** A process in [/], with one directory [/P]. *)
Definition w0 : World :=
  {| cwd := "/"; fs := {[ ["P"] := Dir ]}; trace := [] |}.

(** Arity 1, depth 1, rooted at [/P]. *)
Definition series : DataSeries.t :=
  DataSeries.mk "/P" by_name 1 1 (Some locator_file) None false.

Definition removable_series : DataSeries.t :=
  DataSeries.mk "/P" by_name 1 1 (Some locator_file) None true.

(** A root of arity 2 and a child of arity 1. *)
Definition root2 : DataSeries.t :=
  DataSeries.mk "/P" by_name 2 2 (Some locator_file) None false.

Definition child1 : DataSeries.t :=
  DataSeries.mk "/P" by_name 1 1 (Some locator_file) (Some root2) false.

(** A child whose mapping yields two segments where one is declared. *)
Definition deep_child : DataSeries.t :=
  DataSeries.mk "/P" (λ _, "x/y") 1 1 (Some locator_file) (Some series) false.


Definition after {A} (m : M A) (w : World) : World := (m w).2.

(** A field named [energy] whose values are kept as their text. *)
Definition energy : JSONObject.t string :=
  JSONObject.__init__ "energy" (None, None)
    (λ val, Ok (JLeaf val))
    (λ j, match j with JLeaf s => Ok s | JObj _ => Raise SerializationError end).

Definition entry : JSONEntry.t string := JSONEntry.__init__ series energy.

(** The world after [create] of ["b"], ["a"], ["c"], in this order. *)
Definition w_bac : World :=
  after (DataSeries.create series ["c"])
    (after (DataSeries.create series ["a"])
       (after (DataSeries.create series ["b"]) w0)).

(** The world after [create] of [".x"] and ["a"]. *)
Definition w_hidden : World :=
  after (DataSeries.create series ["a"])
    (after (DataSeries.create series [".x"]) w0).

(** [{"h2o": {"energy": "-75.123"}}] *)
Definition doc_h2o : json :=
  JObj (DCons "h2o" (JObj (DCons "energy" (JLeaf "-75.123") DNil)) DNil).

Definition w_h2o : World :=
  {| cwd := "/";
     fs := {[ ["P"] := Dir; ["P"; "db.json"] := File (Json doc_h2o) ]};
     trace := [] |}.

(** [{"energy": "0.0",
      "h2o": {"energy": "-75.123", "c1": {"energy": "-75.1"}}}] *)
Definition dict_nested : dict :=
  DCons "energy" (JLeaf "0.0")
    (DCons "h2o"
       (JObj (DCons "energy" (JLeaf "-75.123")
                (DCons "c1" (JObj (DCons "energy" (JLeaf "-75.1") DNil)) DNil)))
       DNil).

Definition w_nested : World :=
  {| cwd := "/";
     fs := {[ ["P"] := Dir; ["P"; "db.json"] := File (Json (JObj dict_nested)) ]};
     trace := [] |}.

End Scenario.

(** ** More scenarios *)

Module Cases.

(** A series of depth 0. *)
Definition flat : DataSeries.t :=
  DataSeries.mk "/P" (λ _, ".") 0 0 None None false.

(** A removable geometry file in the directories of [Scenario.removable_series]. *)
Definition geom : DataSeriesFile.t string :=
  DataSeriesFile.mk Scenario.removable_series
    (DataFile.__init__ "geom.xyz" Ok Ok) true.

(** The world after [create] of ["a"]. *)
Definition w_a : World :=
  Scenario.after (DataSeries.create Scenario.series ["a"]) Scenario.w0.

(** The world after a geometry is written for ["a"]. *)
Definition w_geom : World :=
  Scenario.after (DataSeriesFile.write geom "H 0 0 0" ["a"]) w_a.

(** Arity 0 below a root of arity 1. *)
Definition leaf0 : DataSeries.t :=
  DataSeries.mk "/P" (λ _, "run") 0 1 None (Some Scenario.series) false.

(** The world after [create] of ["a"; "b"; "c"] in the chained series. *)
Definition w_abc : World :=
  Scenario.after (DataSeries.create Scenario.child1 ["a"; "b"; "c"]) Scenario.w0.

(** A series whose prefix is a layer directory, a field filed under that
    layer, and a world where only the document inside the layer directory
    exists. *)
Definition layer_series : DataSeries.t :=
  DataSeries.mk "/P/L" Scenario.by_name 1 1 (Some Scenario.locator_file) None false.

Definition layer_energy : JSONObject.t string :=
  JSONObject.__init__ "energy" (Some [], Some "L")
    (λ val, Ok (JLeaf val))
    (λ j, match j with JLeaf s => Ok s | JObj _ => Raise SerializationError end).

Definition layer_entry : JSONEntry.t string :=
  JSONEntry.__init__ layer_series layer_energy.

Definition w_layer : World :=
  {| cwd := "/";
     fs := {[ ["P"] := Dir; ["P"; "L"] := Dir;
              ["P"; "L"; "db.json"] := File (Json (JObj DNil)) ]};
     trace := [] |}.

(** A geometry field of [json_objects], in the documents of [Scenario.series]. *)
Definition geometry_entry : JSONEntry.t json :=
  JSONEntry.__init__ Scenario.series (json_objects.geometry "opt").



End Cases.

(** ** Notions used in the statements *)

(** A computation that leaves the working directory alone. *)
Definition keeps_cwd {A} (m : M A) : Prop := ∀ w, cwd (m w).2 = cwd w.

(** A locator whose trailing part maps to a path that fails one of the two
    checks of [path]. *)
Definition bad_mapped_path (c : string) (self : DataSeries.t) (locs : list loc)
    : Prop :=
  let pth := DataSeries.map_ self
               (drop (length locs - DataSeries.nlocs self) locs) in
  _path_is_relative c pth ≠ Ok true ∨
  _path_has_depth pth (DataSeries.depth self) = false.

(** The world in which [create] reaches its own level: the one the root's
    [create] leaves, whether it returned or raised. *)
Definition after_root_create (self : DataSeries.t) (locs : list loc)
    (w : World) : World :=
  match DataSeries.root self with
  | None => w
  | Some r =>
      match DataSeries._root_locators self locs with
      | Ok root_locs => (DataSeries.create r root_locs w).2
      | Raise _ => w
      end
  end.

(** [w'] has the working directory and at least the directories of [w]. *)
Definition dirs_kept (w w' : World) : Prop :=
  cwd w' = cwd w ∧ ∀ k, node_key w k = Some Dir → node_key w' k = Some Dir.

(** The directory of [locs] and those of its leading parts, along the chain
    of roots, all exist. *)
Fixpoint created (self : DataSeries.t) (locs : list loc) (w : World) : Prop :=
  match DataSeries.root self with
  | Some r =>
      ∃ rl, DataSeries._root_locators self locs = Ok rl ∧ created r rl w
  | None => True
  end ∧
  ∃ p, DataSeries.path_in (cwd w) self locs = Ok p ∧ dir_at w p = true.

(** No separator occurs in [s]. *)
Fixpoint no_sep (s : string) : bool :=
  match s with
  | EmptyString => true
  | String c s' => negb (Ascii.eqb c posixpath.sep) && no_sep s'
  end.

(** A component that [normpath] keeps as it is under an absolute path. *)
Definition clean (s : string) : Prop :=
  no_sep s = true ∧ s ≠ "" ∧ s ≠ "." ∧ s ≠ "..".

(** What [read_json] returns, as a function of the files alone. *)
Definition load (w : World) (p : string) : res json :=
  match node_at w p with
  | Some (File (Json j)) => Ok j
  | Some (File (Text _)) => Raise JSONDecodeError
  | Some Dir => Raise IsADirectoryError
  | None => Raise FileNotFoundError
  end.

(** The world with more events in its trace. *)
Definition logs (es : list event) (w : World) : World :=
  {| cwd := cwd w; fs := fs w; trace := trace w ++ es |}.

(** [JSONObject.exists] on a document in memory. *)
Definition exists_in {V} (jo : JSONObject.t V) (key : list string) (j : json)
    : res bool :=
  res_bind (as_dict j) (λ top,
  res_bind (JSONObject.lookup_loop key top true) (λ '(dct, e),
  Ok (if e then dict_mem (JSONObject.name jo) dct else false))).





(** Following the specification: the nested document is navigated from the
    root, one key segment at a time, through mappings. *)
Fixpoint dict_at (key : list string) (d : dict) : option dict :=
  match key with
  | [] => Some d
  | k :: rest =>
      match dict_get k d with
      | Some (JObj d') => dict_at rest d'
      | _ => None
      end
  end.


(** The keys of [d] whose values are mappings. *)
Fixpoint mapping_keys (d : dict) : list string :=
  match d with
  | DNil => []
  | DCons k (JObj _) rest => k :: mapping_keys rest
  | DCons _ (JLeaf _) rest => mapping_keys rest
  end.

(** Following the specification: the immediate child key segments found at
    [prefix_key] that are themselves nested mappings. *)
Definition existing_spec (prefix_key : list string) (top : dict)
    : list (list string) :=
  match dict_at prefix_key top with
  | Some d => (λ key, [key]) <$> mapping_keys d
  | None => []
  end.

(** A path that does not end in a separator, unless it is made of
    separators only. *)
Definition tidy (p : string) : Prop :=
  posixpath.all_sep p = true ∨ posixpath.endswith_sep p = false.

#[global] Instance clean_dec s : Decision (clean s).
Proof. unfold clean. apply _. Defined.

(** The names used by the files of a world are path segments. *)
Definition wf_names (w : World) : Prop :=
  map_Forall (λ k _, Forall clean k) (fs w).

#[global] Instance wf_names_dec w : Decision (wf_names w).
Proof. unfold wf_names. apply _. Defined.

(** A visible path segment: what [*] matches. *)
Definition segment (name : string) : Prop :=
  no_sep name = true ∧ name ≠ "" ∧ glob.ishidden name = false.

(** The entries [names] below the directory with key [K]: every name is
    visible, every entry on the way is a directory, and the last one
    exists (as a directory when [dironly] is set). *)
Definition found_below (w : World) (K : list string) (names : list string)
    (dironly : bool) : Prop :=
  Forall (λ name, glob.ishidden name = false) names ∧
  (∀ i, i < length names → node_key w (K ++ take i names) = Some Dir) ∧
  (∃ n, node_key w (K ++ names) = Some n ∧ (dironly = true → n = Dir)).

(** The prefix at the top of the chain of roots is an absolute path in the
    form [abspath] gives it, which is how the constructor stores it. *)
Fixpoint anchored (self : DataSeries.t) : Prop :=
  match DataSeries.root self with
  | None => posixpath.isabs (DataSeries.prefix self) = true
            ∧ tidy (DataSeries.prefix self)
  | Some r => anchored r
  end.

(** A non-empty path component. *)
Definition piece (s : string) : Prop := no_sep s = true ∧ s ≠ "".

(** A computation that leaves file names path segments, when run in an
    absolute working directory. *)
Definition keeps_wf {A} (m : M A) : Prop :=
  ∀ w, posixpath.isabs (cwd w) = true → wf_names w → wf_names (m w).2.

(** The pattern [glob] is given: the prefix followed by [d] stars. *)
Definition stars (P : string) (d : nat) : string :=
  posixpath.join P (replicate d "*").

(** The directories [glob] is asked for: [depth] visible segments below
    the prefix, every entry on the way being a directory. *)
Definition listed_dir (w : World) (P : string) (depth : nat) (x : string)
    : Prop :=
  ∃ names,
    length names = depth ∧ Forall segment names ∧
    x = posixpath.join P names ∧
    ∀ i : nat, (i <= depth)%nat →
               dir_at w (posixpath.join P (take i names)) = true.

(** The prefix [_existing_paths] lists under. *)
Definition resolved_prefix (c : string) (self : DataSeries.t)
    (root_locs : list loc) : res string :=
  match DataSeries.root self with
  | None => Ok (DataSeries.prefix self)
  | Some r => DataSeries.path_in c r root_locs
  end.

(** The text of the file at [p], if there is one. *)
Definition file_text (w : World) (p : string) : option string :=
  match node_at w p with
  | Some (File (Text s)) => Some s
  | Some (File (Json j)) => Some (json_text j)
  | _ => None
  end.

(** What the locator file in the directory [pth] decodes to, if it is
    there. *)
Definition recorded (f : DataFile.t (list loc)) (w : World) (pth : string)
    : option (res (list loc)) :=
  DataFile.reader_ f <$> file_text w (DataFile.path f pth).

(** The locators recorded in [pth], when the file is there and decodes. *)
Definition recorded_value (f : DataFile.t (list loc)) (w : World)
    (pth : string) : option (list loc) :=
  match recorded f w pth with
  | Some (Ok v) => Some v
  | _ => None
  end.

(** Two addresses in a document that part ways at some segment. *)
Definition apart (a1 a2 : list string) : Prop :=
  ∃ c x y r1 r2, a1 = c ++ x :: r1 ∧ a2 = c ++ y :: r2 ∧ x ≠ y.

(** A computation that leaves the world as it found it. *)
Definition keeps_world {A} (m : M A) : Prop := ∀ w, (m w).2 = w.

(** The document that holds one value: [{k1: {k2: ... {name: v} ...}}]. *)
Fixpoint nested (key : list string) (name : string) (v : json) : dict :=
  match key with
  | [] => DCons name v DNil
  | k :: rest => DCons k (JObj (nested rest name v)) DNil
  end.

(** The fields of [json_objects] built with the default coders. *)
Definition plain_fields (file_prefix : string)
    (json_prefix : option (list string) * option string)
    : list (JSONObject.t json) :=
  [json_objects.input_file file_prefix json_prefix;
   json_objects.output_file file_prefix;
   json_objects.energy file_prefix json_prefix;
   json_objects.geometry file_prefix;
   json_objects.locator file_prefix tt tt;
   json_objects.hessian file_prefix;
   json_objects.harmonic_frequencies file_prefix;
   json_objects.anharmonic_frequencies file_prefix;
   json_objects.anharmonic_zpve file_prefix;
   json_objects.anharmonicity_matrix file_prefix;
   json_objects.vibro_rot_alpha_matrix file_prefix;
   json_objects.quartic_centrifugal_dist_consts file_prefix;
   json_objects.zmatrix file_prefix;
   json_objects.vmatrix file_prefix;
   json_objects.trajectory file_prefix;
   json_objects.graph file_prefix;
   json_objects.transformation file_prefix;
   json_objects.lennard_jones_epsilon file_prefix;
   json_objects.lennard_jones_sigma file_prefix].

(** A computation that loses no directory and leaves the working directory
    alone, whether it returns or raises. *)
Definition keeps_dirs {A} (m : M A) : Prop := ∀ w, dirs_kept w (m w).2.

(** * Properties *)

(** ** The working directory is never changed *)

Lemma keeps_cwd_ret {A} (a : A) : keeps_cwd (ret a).
Proof. by intros w. Qed.

Lemma keeps_cwd_raise {A} e : keeps_cwd (@raise A e).
Proof. by intros w. Qed.

Lemma keeps_cwd_lift {A} (r : res A) : keeps_cwd (lift r).
Proof. by intros w. Qed.

Lemma keeps_cwd_bind {A B} (m : M A) (k : A -> M B) :
  keeps_cwd m → (∀ a, keeps_cwd (k a)) → keeps_cwd (bind m k).
Proof.
  intros Hm Hk w. unfold bind. specialize (Hm w).
  destruct (m w) as [[a|e] w1]; simpl in *; [|done].
  by rewrite Hk.
Qed.

Lemma keeps_cwd_assert b : keeps_cwd (assert_ b).
Proof. by destruct b; intros w. Qed.

Lemma keeps_cwd_put_file p c : keeps_cwd (put_file p c).
Proof. intros w. unfold put_file. by destruct (writable w p). Qed.

Lemma keeps_cwd_makedirs p : keeps_cwd (os.makedirs p).
Proof.
  intros w. unfold os.makedirs. destruct (node_at w p); [done|].
  by destruct (existsb _ _).
Qed.

Lemma keeps_cwd_write {V} (f : DataFile.t V) v d : keeps_cwd (DataFile.write f v d).
Proof.
  unfold DataFile.write. apply keeps_cwd_bind; [by intros w|intros e].
  apply keeps_cwd_bind; [apply keeps_cwd_assert|intros _].
  apply keeps_cwd_bind; [apply keeps_cwd_lift|intros s].
  apply keeps_cwd_put_file.
Qed.

Lemma path_run self locs w :
  DataSeries.path self locs w = (DataSeries.path_in (cwd w) self locs, w).
Proof. reflexivity. Qed.

Lemma exists_run self locs w :
  DataSeries.exists_ self locs w =
  match DataSeries.path_in (cwd w) self locs with
  | Ok p => (Ok (dir_at w p), w)
  | Raise e => (Raise e, w)
  end.
Proof.
  unfold DataSeries.exists_, bind. rewrite path_run.
  by destruct (DataSeries.path_in _ _ _).
Qed.

Lemma keeps_cwd_create_here self locs : keeps_cwd (DataSeries.create_here self locs).
Proof.
  unfold DataSeries.create_here.
  apply keeps_cwd_bind.
  { intros w. rewrite exists_run. by destruct (DataSeries.path_in _ _ _). }
  intros [|]; simpl; [apply keeps_cwd_ret|].
  apply keeps_cwd_bind; [by intros w|intros p].
  apply keeps_cwd_bind; [apply keeps_cwd_makedirs|intros _].
  destruct (DataSeries.loc_dfile self); [|apply keeps_cwd_ret].
  apply keeps_cwd_bind; [apply keeps_cwd_lift|intros l].
  apply keeps_cwd_write.
Qed.

(** Induction along the chain of roots. *)
Lemma DataSeries_chain_ind (P : DataSeries.t → Prop) :
  (∀ self, DataSeries.root self = None → P self) →
  (∀ self r, DataSeries.root self = Some r → P r → P self) →
  ∀ self, P self.
Proof.
  intros Hnone Hsome.
  fix IH 1. intros [pre mp n d lf [r|] rm].
  - apply (Hsome _ r); [reflexivity|apply IH].
  - apply Hnone. reflexivity.
Qed.

Lemma create_unfold self locs :
  DataSeries.create self locs =
  match DataSeries.root self with
  | Some r =>
      let* root_locs := lift (DataSeries._root_locators self locs) in
      DataSeries.create r root_locs;;
      DataSeries.create_here self locs
  | None => DataSeries.create_here self locs
  end.
Proof. by destruct self. Qed.

Lemma path_in_unfold c self locs :
  DataSeries.path_in c self locs =
  match DataSeries.root self with
  | None => DataSeries.path_tail c self (DataSeries.prefix self) locs
  | Some r =>
      res_bind (DataSeries._root_locators self locs) (λ root_locs,
      res_bind (DataSeries._self_locators self locs) (λ locs',
      res_bind (DataSeries.path_in c r root_locs) (λ prefix,
      DataSeries.path_tail c self prefix locs')))
  end.
Proof. by destruct self. Qed.

Lemma root_locator_count_unfold self :
  DataSeries.root_locator_count self =
  match DataSeries.root self with
  | None => 0
  | Some r => DataSeries.nlocs r + DataSeries.root_locator_count r
  end.
Proof. by destruct self. Qed.

Lemma keeps_cwd_create self : ∀ locs, keeps_cwd (DataSeries.create self locs).
Proof.
  induction self as [self Hr|self r Hr IH] using DataSeries_chain_ind;
    intros locs; rewrite create_unfold, Hr.
  - apply keeps_cwd_create_here.
  - apply keeps_cwd_bind; [apply keeps_cwd_lift|intros rl].
    apply keeps_cwd_bind; [apply IH|intros _]. apply keeps_cwd_create_here.
Qed.

(** ** Paths *)

Lemma path_tail_ok c self prefix locs p :
  DataSeries.path_tail c self prefix locs = Ok p ↔
  length locs = DataSeries.nlocs self ∧
  _path_is_relative c (DataSeries.map_ self locs) = Ok true ∧
  _path_has_depth (DataSeries.map_ self locs) (DataSeries.depth self) = true ∧
  p = posixpath.join2 prefix (DataSeries.map_ self locs).
Proof.
  unfold DataSeries.path_tail.
  case_bool_decide as Hlen; simpl; [|split; [done|by intros [? _]]].
  destruct (_path_is_relative c _) as [[|]|e]; simpl;
    [|split; [done|by intros (_ & ? & _)]..].
  destruct (_path_has_depth _ _); simpl; [|split; [done|by intros (_ & _ & ? & _)]].
  split; [intros [= <-]; done|intros (_ & _ & _ & ->); done].
Qed.

Lemma locators_app self (rl sl : list loc) :
  length sl = DataSeries.nlocs self →
  DataSeries._root_locators self (rl ++ sl) = Ok rl ∧
  DataSeries._self_locators self (rl ++ sl) = Ok sl.
Proof.
  intros Hsl. unfold DataSeries._root_locators, DataSeries._self_locators.
  rewrite length_app, <- Hsl.
  rewrite bool_decide_true by lia.
  replace (length rl + length sl - length sl) with (length rl) by lia.
  by rewrite take_app_length, drop_app_length.
Qed.

Lemma locators_split self (locs rl : list loc) :
  DataSeries._root_locators self locs = Ok rl →
  ∃ sl, DataSeries._self_locators self locs = Ok sl ∧ locs = rl ++ sl ∧
        length sl = DataSeries.nlocs self.
Proof.
  unfold DataSeries._root_locators, DataSeries._self_locators.
  case_bool_decide as Hle; [|done]. intros [= <-].
  eexists; split; [done|]. split; [by rewrite take_drop|].
  rewrite length_drop. lia.
Qed.

(** With a root, [path] is the root's path of the leading locators, joined
    with this level's mapped path of the trailing [nlocs] ones. *)
Lemma path_in_app c self r (rl sl : list loc) :
  DataSeries.root self = Some r →
  length sl = DataSeries.nlocs self →
  DataSeries.path_in c self (rl ++ sl) =
  res_bind (DataSeries.path_in c r rl) (λ prefix,
    DataSeries.path_tail c self prefix sl).
Proof.
  intros Hr Hsl. rewrite path_in_unfold, Hr.
  destruct (locators_app self rl sl Hsl) as [-> ->]. done.
Qed.

Lemma path_in_length c self : ∀ locs p,
  DataSeries.path_in c self locs = Ok p →
  length locs = DataSeries.root_locator_count self + DataSeries.nlocs self.
Proof.
  induction self as [self Hr|self r Hr IH] using DataSeries_chain_ind;
    intros locs p; rewrite path_in_unfold, root_locator_count_unfold, Hr.
  - intros H%path_tail_ok. lia.
  - destruct (DataSeries._root_locators self locs) as [rl|] eqn:Hrl; [|done].
    destruct (locators_split _ _ _ Hrl) as (sl & -> & -> & Hsl). simpl.
    destruct (DataSeries.path_in c r rl) as [pre|] eqn:Hpre; [|done]. simpl.
    intros _. rewrite length_app, (IH _ _ Hpre). lia.
Qed.


(** ** Removal *)

(** C9. A [DataFile] and a [DataSeriesFile] come out of their constructors
    with [removable] false, the constructors taking no such argument, and
    [remove] on a freshly constructed one raises the error of a
    non-removable object for every directory or locator, changing nothing. *)
Theorem C9_fresh_files_are_not_removable {V : Type}
    (name : string) (writer_ : V → res string) (reader_ : string → res V)
    (ds : DataSeries.t) (dfile : DataFile.t V)
    (dir_pth : string) (locs : list loc) (w : World) :
  DataFile.removable (DataFile.__init__ name writer_ reader_) = false ∧
  DataSeriesFile.removable (DataSeriesFile.__init__ ds dfile) = false ∧
  DataFile.remove (DataFile.__init__ name writer_ reader_) dir_pth w
    = (Raise ValueError, w) ∧
  DataSeriesFile.remove (DataSeriesFile.__init__ ds dfile) locs w
    = (Raise ValueError, w).
Proof. repeat split. Qed.


(** ** Creation *)

Lemma path_tail_bad c self prefix sl :
  _path_is_relative c (DataSeries.map_ self sl) ≠ Ok true ∨
  _path_has_depth (DataSeries.map_ self sl) (DataSeries.depth self) = false →
  ∃ e, DataSeries.path_tail c self prefix sl = Raise e.
Proof.
  intros Hbad.
  destruct (DataSeries.path_tail c self prefix sl) as [p|e] eqn:Hp; [|by eexists].
  apply path_tail_ok in Hp as (_ & Hrel & Hdep & _).
  destruct Hbad as [Hbad|Hbad]; congruence.
Qed.

Lemma path_in_bad c self locs :
  bad_mapped_path c self locs → ∃ e, DataSeries.path_in c self locs = Raise e.
Proof.
  intros Hbad. unfold bad_mapped_path in Hbad. rewrite path_in_unfold.
  destruct (DataSeries.root self) as [r|].
  - destruct (DataSeries._root_locators self locs) as [rl|e] eqn:Hrl;
      [|by eexists].
    destruct (locators_split _ _ _ Hrl) as (sl & -> & -> & Hsl). simpl.
    destruct (DataSeries.path_in c r rl) as [pre|e]; [|by eexists]. simpl.
    apply path_tail_bad.
    rewrite length_app, Hsl in Hbad.
    replace (length rl + DataSeries.nlocs self - DataSeries.nlocs self)
      with (length rl) in Hbad by lia.
    by rewrite drop_app_length in Hbad.
  - destruct (decide (length locs = DataSeries.nlocs self)) as [Hlen|Hlen].
    + apply path_tail_bad. rewrite Hlen, Nat.sub_diag in Hbad. done.
    + exists AssertionError. unfold DataSeries.path_tail.
      by rewrite bool_decide_false.
Qed.

Lemma create_here_bad self locs w :
  bad_mapped_path (cwd w) self locs →
  ∃ e, DataSeries.create_here self locs w = (Raise e, w).
Proof.
  intros [e He]%path_in_bad. exists e.
  unfold DataSeries.create_here, bind. by rewrite exists_run, He.
Qed.

(** C3, as the code has it. When the mapped path of the locator fails a
    check of [path], [create] raises and makes nothing at its own level:
    the world it leaves is the one left by the root's [create] of the
    leading locators, which runs first; without a root nothing has changed
    at all. *)
Theorem C3_create_with_bad_mapped_path (self : DataSeries.t)
    (locs : list loc) (w : World) :
  bad_mapped_path (cwd w) self locs →
  (∃ e, DataSeries.create self locs w
        = (Raise e, after_root_create self locs w)) ∧
  (DataSeries.root self = None →
     ∃ e, DataSeries.create self locs w = (Raise e, w)).
Proof.
  intros Hbad.
  assert (∃ e, DataSeries.create self locs w
               = (Raise e, after_root_create self locs w)) as H.
  { rewrite create_unfold. unfold after_root_create.
    destruct (DataSeries.root self) as [r|]; [|by apply create_here_bad].
    unfold bind at 1. unfold lift.
    destruct (DataSeries._root_locators self locs) as [rl|e]; [|by eexists].
    unfold bind. pose proof (keeps_cwd_create r rl w) as Hc.
    destruct (DataSeries.create r rl w) as [[[]|e] w1]; simpl in *; [|by eexists].
    apply create_here_bad. by rewrite Hc. }
  split; [done|]. intros Hr. unfold after_root_create in H. by rewrite Hr in H.
Qed.


(** The scenario of the specification: root of arity 2, child of arity 1. *)
Example child_path_is_root_path_joined (a b c : loc) (r child : DataSeries.t) cw :
  DataSeries.root child = Some r →
  DataSeries.nlocs child = 1 →
  DataSeries.path_in cw child [a; b; c] =
  res_bind (DataSeries.path_in cw r [a; b]) (λ prefix,
    DataSeries.path_tail cw child prefix [c]).
Proof.
  intros Hr Hn. by apply (path_in_app cw child r [a; b] [c]).
Qed.

Example child_path_value :
  DataSeries.path_in "/" Scenario.root2 ["a"; "b"] = Ok "/P/a/b" ∧
  DataSeries.map_ Scenario.child1 ["c"] = "c" ∧
  DataSeries.path_in "/" Scenario.child1 ["a"; "b"; "c"]
    = Ok (posixpath.join2 "/P/a/b" "c").
Proof. by vm_compute. Qed.



Lemma C3_counterexample :
  bad_mapped_path (cwd Scenario.w0) Scenario.deep_child ["r"; "s"] ∧
  (DataSeries.create Scenario.deep_child ["r"; "s"] Scenario.w0).1
    = Raise AssertionError ∧
  dir_at Scenario.w0 "/P/r" = false ∧
  dir_at (DataSeries.create Scenario.deep_child ["r"; "s"] Scenario.w0).2 "/P/r"
    = true.
Proof. split; [right|]; by vm_compute. Qed.

Lemma C3_witness :
  (∃ e, DataSeries.create Scenario.deep_child ["r"; "s"] Scenario.w0
        = (Raise e, after_root_create Scenario.deep_child ["r"; "s"] Scenario.w0)) ∧
  (DataSeries.root Scenario.deep_child = None →
     ∃ e, DataSeries.create Scenario.deep_child ["r"; "s"] Scenario.w0
          = (Raise e, Scenario.w0)).
Proof.
  apply (C3_create_with_bad_mapped_path Scenario.deep_child ["r"; "s"] Scenario.w0).
  right. vm_compute. reflexivity.
Defined.

(** ** Creation is idempotent *)

Lemma bind_ok {A B} (m : M A) (k : A → M B) w b w' :
  bind m k w = (Ok b, w') → ∃ a w1, m w = (Ok a, w1) ∧ k a w1 = (Ok b, w').
Proof.
  unfold bind. destruct (m w) as [[a|e] w1]; [|done]. intros H. by exists a, w1.
Qed.

Lemma dirs_kept_refl w : dirs_kept w w.
Proof. by split. Qed.

Lemma dirs_kept_trans w1 w2 w3 :
  dirs_kept w1 w2 → dirs_kept w2 w3 → dirs_kept w1 w3.
Proof. intros [Hc1 H1] [Hc2 H2]. split; [congruence|auto]. Qed.

Lemma dir_at_kept w w' p :
  dirs_kept w w' → dir_at w p = true → dir_at w' p = true.
Proof.
  intros [Hc Hk]. unfold dir_at, node_at. rewrite Hc.
  destruct (node_key w _) as [[|]|] eqn:Hn; try done. by rewrite (Hk _ Hn).
Qed.

Lemma lookup_foldr_insert_dir (l : list (list string))
    (m : gmap (list string) node) k :
  foldr (λ a m, <[a := Dir]> m) m l !! k
  = if decide (k ∈ l) then Some Dir else m !! k.
Proof.
  induction l as [|a l IH]; cbn [foldr].
  - rewrite decide_False; [done|]. by intros ?%elem_of_nil.
  - destruct (decide (a = k)) as [->|Hne].
    + rewrite lookup_insert_eq, decide_True; [done|apply list_elem_of_here].
    + rewrite lookup_insert_ne by done. rewrite IH.
      destruct (decide (k ∈ l)) as [Hin|Hin].
      * rewrite decide_True; [done|]. by apply list_elem_of_further.
      * rewrite decide_False; [done|]. intros [?|?]%elem_of_cons; by subst.
Qed.

Lemma makedirs_ok p w w' :
  os.makedirs p w = (Ok tt, w') → dirs_kept w w' ∧ dir_at w' p = true.
Proof.
  unfold os.makedirs, node_at. set (k := resolve (cwd w) p).
  destruct (node_key w k) eqn:Hk; [done|].
  destruct (existsb _ _); [done|]. intros [= <-].
  assert (k ≠ []) as Hne by (intros E; by rewrite E in Hk).
  split; [split; [done|]|].
  - intros k' Hk'. destruct k' as [|x k']; [done|]. simpl in *.
    rewrite lookup_foldr_insert_dir. by case_decide.
  - unfold dir_at, node_at. simpl. fold k.
    destruct k as [|x k]; [done|]. simpl.
    rewrite lookup_foldr_insert_dir. rewrite decide_True; [done|].
    apply elem_of_app. right. apply list_elem_of_here.
Qed.

Lemma put_file_kept p c w w' :
  put_file p c w = (Ok tt, w') → dirs_kept w w'.
Proof.
  unfold put_file, writable. set (k := resolve (cwd w) p).
  destruct (node_key w k) as [[|]|] eqn:Hk; [done| |];
    (destruct (node_key w (removelast k)) as [[|]|]; [|done..]);
    intros [= <-]; (split; [done|]); intros k' Hk';
    (destruct k' as [|x k']; [done|]); simpl in *;
    (destruct (decide (k = x :: k')) as [E|E];
      [rewrite E in Hk; simpl in Hk; congruence|by rewrite lookup_insert_ne]).
Qed.

Lemma DataFile_write_kept {V} (f : DataFile.t V) v d w w' :
  DataFile.write f v d w = (Ok tt, w') → dirs_kept w w'.
Proof.
  unfold DataFile.write.
  intros (e & w1 & He & H)%bind_ok. injection He as <- <-.
  apply bind_ok in H as (? & w1 & H1 & H).
  assert (w1 = w) as ->.
  { unfold assert_ in H1. destruct (exists_at w d); by injection H1. }
  apply bind_ok in H as (s & w1 & [= _ <-] & H).
  by apply put_file_kept in H.
Qed.

Lemma create_here_ok self locs w w' :
  DataSeries.create_here self locs w = (Ok tt, w') →
  dirs_kept w w' ∧
  ∃ p, DataSeries.path_in (cwd w) self locs = Ok p ∧ dir_at w' p = true.
Proof.
  unfold DataSeries.create_here. intros (e & w1 & He & H)%bind_ok.
  rewrite exists_run in He.
  destruct (DataSeries.path_in (cwd w) self locs) as [p|] eqn:Hp; [|done].
  injection He as <- <-.
  destruct (dir_at w p) eqn:Hd; simpl in H.
  { injection H as <-. split; [apply dirs_kept_refl|by exists p]. }
  apply bind_ok in H as (p' & w1 & Hp' & H).
  rewrite path_run, Hp in Hp'. injection Hp' as <- <-.
  apply bind_ok in H as ([] & w1 & Hmk & H).
  apply makedirs_ok in Hmk as [Hk1 Hd1].
  destruct (DataSeries.loc_dfile self) as [f|].
  - apply bind_ok in H as (l & w2 & [= _ <-] & H).
    apply DataFile_write_kept in H.
    split; [by eapply dirs_kept_trans|].
    exists p. split; [done|]. by eapply dir_at_kept.
  - injection H as <-. split; [done|]. by exists p.
Qed.

Lemma create_here_noop self locs w p :
  DataSeries.path_in (cwd w) self locs = Ok p → dir_at w p = true →
  DataSeries.create_here self locs w = (Ok tt, w).
Proof.
  intros Hp Hd. unfold DataSeries.create_here, bind.
  by rewrite exists_run, Hp, Hd.
Qed.

Lemma created_unfold self locs w :
  created self locs w ↔
  match DataSeries.root self with
  | Some r =>
      ∃ rl, DataSeries._root_locators self locs = Ok rl ∧ created r rl w
  | None => True
  end ∧
  ∃ p, DataSeries.path_in (cwd w) self locs = Ok p ∧ dir_at w p = true.
Proof. by destruct self. Qed.

Lemma created_kept self : ∀ locs w w',
  dirs_kept w w' → created self locs w → created self locs w'.
Proof.
  induction self as [self Hr|self r Hr IH] using DataSeries_chain_ind;
    intros locs w w' Hk; rewrite !created_unfold, Hr;
    intros [H1 (p & Hp & Hd)].
  - split; [done|]. exists p. destruct Hk as [Hc ?] eqn:E. rewrite Hc.
    split; [done|]. by eapply dir_at_kept.
  - destruct H1 as (rl & Hrl & Hcr). split.
    + exists rl. split; [done|]. by eapply IH.
    + exists p. pose proof Hk as [Hc _]. rewrite Hc.
      split; [done|]. by eapply dir_at_kept.
Qed.

Lemma create_created self : ∀ locs w w',
  DataSeries.create self locs w = (Ok tt, w') →
  dirs_kept w w' ∧ created self locs w'.
Proof.
  induction self as [self Hr|self r Hr IH] using DataSeries_chain_ind;
    intros locs w w'; rewrite create_unfold, created_unfold, Hr.
  - intros [Hk (p & Hp & Hd)]%create_here_ok. split; [done|]. split; [done|].
    exists p. destruct Hk as [-> _]. done.
  - intros (rl & w1 & Hrl & H)%bind_ok.
    assert (w1 = w) as -> by (unfold lift in Hrl; congruence).
    assert (DataSeries._root_locators self locs = Ok rl) as Hrl'
      by (unfold lift in Hrl; congruence).
    apply bind_ok in H as ([] & w1 & Hcr & H).
    apply IH in Hcr as [Hk1 Hcr].
    apply create_here_ok in H as [Hk2 (p & Hp & Hd)].
    split; [by eapply dirs_kept_trans|]. split.
    + exists rl. split; [done|]. by eapply created_kept.
    + exists p. destruct Hk2 as [-> _]. done.
Qed.

Lemma created_create self : ∀ locs w,
  created self locs w → DataSeries.create self locs w = (Ok tt, w).
Proof.
  induction self as [self Hr|self r Hr IH] using DataSeries_chain_ind;
    intros locs w; rewrite create_unfold, created_unfold, Hr;
    intros [H1 (p & Hp & Hd)].
  - by eapply create_here_noop.
  - destruct H1 as (rl & Hrl & Hcr).
    unfold bind at 1. unfold lift. rewrite Hrl.
    unfold bind. rewrite (IH _ _ Hcr). by eapply create_here_noop.
Qed.

(** C8. After a [create] that returned, a second [create] of the same
    locator returns as well and leaves the world as it is (no directory is
    made, and the locator file keeps its contents), and [exists] is true. *)
Theorem C8_create_is_idempotent (self : DataSeries.t) (locs : list loc)
    (w w1 : World) :
  DataSeries.create self locs w = (Ok tt, w1) →
  DataSeries.create self locs w1 = (Ok tt, w1) ∧
  DataSeries.exists_ self locs w1 = (Ok true, w1).
Proof.
  intros [_ Hcr]%create_created. split; [by apply created_create|].
  apply created_unfold in Hcr as [_ (p & Hp & Hd)].
  by rewrite exists_run, Hp, Hd.
Qed.

Lemma C8_witness :
  let w1 := (DataSeries.create Scenario.child1 ["a"; "b"; "c"] Scenario.w0).2 in
  DataSeries.create Scenario.child1 ["a"; "b"; "c"] w1 = (Ok tt, w1) ∧
  DataSeries.exists_ Scenario.child1 ["a"; "b"; "c"] w1 = (Ok true, w1).
Proof.
  apply (C8_create_is_idempotent Scenario.child1 ["a"; "b"; "c"] Scenario.w0).
  vm_compute. reflexivity.
Defined.

(** ** Normalised paths *)

Lemma split_sep_nonempty s : posixpath.split_sep s ≠ [].
Proof.
  destruct s as [|c s]; simpl; [done|].
  destruct (Ascii.eqb c posixpath.sep); [done|].
  by destruct (posixpath.split_sep s).
Qed.

Lemma split_sep_no_sep s : Forall (λ x, no_sep x = true) (posixpath.split_sep s).
Proof.
  induction s as [|c s IH]; simpl; [by repeat constructor|].
  destruct (Ascii.eqb c posixpath.sep) eqn:Hc; [by constructor|].
  destruct (posixpath.split_sep s) as [|x r]; [by repeat constructor; simpl; rewrite Hc|].
  inversion IH; subst. constructor; [|done]. simpl. by rewrite Hc.
Qed.

Lemma split_sep_slashes k s :
  posixpath.split_sep (posixpath.slashes k +:+ s)
  = replicate k "" ++ posixpath.split_sep s.
Proof. induction k as [|k IH]; simpl; [done|]. by rewrite IH. Qed.

Lemma split_sep_single x : no_sep x = true → posixpath.split_sep x = [x].
Proof.
  induction x as [|c x IH]; simpl; [done|].
  intros [Hc Hx]%andb_true_iff. apply negb_true_iff in Hc. rewrite Hc.
  by rewrite (IH Hx).
Qed.

Lemma split_sep_cons x rest :
  no_sep x = true →
  posixpath.split_sep (x +:+ "/" +:+ rest) = x :: posixpath.split_sep rest.
Proof.
  induction x as [|c x IH]; simpl; [done|].
  intros [Hc Hx]%andb_true_iff. apply negb_true_iff in Hc. rewrite Hc.
  by rewrite (IH Hx).
Qed.

Lemma split_sep_join_sep comps :
  comps ≠ [] → Forall (λ x, no_sep x = true) comps →
  posixpath.split_sep (posixpath.join_sep comps) = comps.
Proof.
  induction comps as [|x [|y r] IH]; [done| |]; intros _ Hall.
  - simpl. apply split_sep_single. by inversion Hall.
  - inversion Hall as [|?? Hx Hr]; subst.
    change (posixpath.join_sep (x :: y :: r))
      with (x +:+ "/" +:+ posixpath.join_sep (y :: r)).
    rewrite split_sep_cons by done. by rewrite IH.
Qed.

Lemma norm_step_clean n acc comp :
  n ≠ 0 → Forall clean acc → no_sep comp = true →
  Forall clean (posixpath.norm_step n acc comp).
Proof.
  intros Hn Hacc Hcomp. unfold posixpath.norm_step.
  destruct (bool_decide (comp = "")) eqn:E1; [done|].
  destruct (bool_decide (comp = ".")) eqn:E2; [done|]. simpl.
  apply bool_decide_eq_false in E1, E2.
  destruct (bool_decide (comp = "..")) eqn:E3; simpl.
  - rewrite (bool_decide_false (n = 0)) by done. simpl.
    destruct (bool_decide (last acc = Some "..")) eqn:Hlast.
    + apply bool_decide_eq_true in Hlast.
      apply last_Some in Hlast as [l' ->].
      apply Forall_app in Hacc as [_ Hbad]. inversion Hbad as [|?? Hc]; subst.
      by destruct Hc as (_ & _ & _ & ?).
    + clear Hlast. induction Hacc as [|a l Ha Hl IH]; [done|].
      destruct l; [constructor|]. simpl. constructor; [done|]. apply IH.
  - apply bool_decide_eq_false in E3. apply Forall_app. split; [done|].
    by repeat constructor.
Qed.

Lemma norm_fold_clean n comps : ∀ acc,
  n ≠ 0 → Forall clean acc → Forall (λ x, no_sep x = true) comps →
  Forall clean (fold_left (posixpath.norm_step n) comps acc).
Proof.
  induction comps as [|x r IH]; intros acc Hn Hacc Hall; simpl; [done|].
  inversion Hall; subst. apply IH; [done| |done]. by apply norm_step_clean.
Qed.

Lemma initial_slashes_isabs p :
  posixpath.isabs p = true → posixpath.initial_slashes p ≠ 0.
Proof.
  destruct p as [|a [|b [|c p]]]; simpl; [done|..]; intros ->; [done|..].
  - by destruct (Ascii.eqb b posixpath.sep).
  - by destruct (Ascii.eqb b posixpath.sep && negb (Ascii.eqb c posixpath.sep)).
Qed.

Lemma norm_comps_clean p :
  posixpath.isabs p = true → Forall clean (posixpath.norm_comps p).
Proof.
  intros Habs. apply norm_fold_clean; [by apply initial_slashes_isabs|done|].
  apply split_sep_no_sep.
Qed.

Lemma norm_fold_skip n k comps acc :
  fold_left (posixpath.norm_step n) (replicate k "" ++ comps) acc
  = fold_left (posixpath.norm_step n) comps acc.
Proof. induction k as [|k IH]; simpl; [done|]. apply IH. Qed.

Lemma norm_fold_keep n comps : ∀ acc,
  Forall clean comps →
  fold_left (posixpath.norm_step n) comps acc = acc ++ comps.
Proof.
  induction comps as [|x r IH]; intros acc Hall; simpl; [by rewrite app_nil_r|].
  inversion Hall as [|?? (Hs & H1 & H2 & H3) Hr]; subst.
  rewrite IH by done. unfold posixpath.norm_step.
  rewrite !bool_decide_false by done. simpl. by rewrite <- app_assoc.
Qed.

Lemma slashes_isabs k s :
  k ≠ 0 → posixpath.isabs (posixpath.slashes k +:+ s) = true.
Proof. by destruct k. Qed.

(** The component list of a normalised absolute path is the list it was
    built from. *)
Lemma norm_comps_normal k comps :
  k ≠ 0 → Forall clean comps →
  posixpath.norm_comps (posixpath.slashes k +:+ posixpath.join_sep comps) = comps.
Proof.
  intros Hk Hall. unfold posixpath.norm_comps.
  rewrite split_sep_slashes, norm_fold_skip.
  destruct comps as [|x r]; [done|].
  rewrite split_sep_join_sep; [|done|].
  - by rewrite norm_fold_keep.
  - eapply Forall_impl; [done|]. by intros ? [? _].
Qed.

Lemma abs_form_isabs c p :
  posixpath.isabs c = true →
  posixpath.isabs (if posixpath.isabs p then p else posixpath.join2 c p) = true.
Proof.
  intros Hc. destruct (posixpath.isabs p) eqn:Hp; [done|].
  unfold posixpath.join2. rewrite Hp.
  destruct c as [|a c]; [done|]. simpl in *.
  by destruct (match c with "" => _ | String _ _ => _ end).
Qed.

Lemma normpath_abs p :
  posixpath.isabs p = true →
  posixpath.normpath p
  = posixpath.slashes (posixpath.initial_slashes p)
    +:+ posixpath.join_sep (posixpath.norm_comps p).
Proof.
  intros Hp. unfold posixpath.normpath.
  destruct p as [|a p]; [done|]. cbn [posixpath.is_empty].
  pose proof (initial_slashes_isabs _ Hp) as Hn.
  by destruct (posixpath.initial_slashes (String a p)).
Qed.

Lemma abspath_isabs c p :
  posixpath.isabs c = true → posixpath.isabs (posixpath.abspath c p) = true.
Proof.
  intros Hc. unfold posixpath.abspath.
  pose proof (abs_form_isabs c p Hc) as Habs.
  rewrite normpath_abs by done. apply slashes_isabs.
  by apply initial_slashes_isabs.
Qed.


(** ** Construction *)

Example init_relative_prefix :
  (DataSeries.__init__ "P" Scenario.by_name 1 1 None None false Scenario.w0).1
  = Ok (DataSeries.mk "/P" Scenario.by_name 1 1 None None false) ∧
  (DataSeries.__init__ "Q" Scenario.by_name 1 1 None None false Scenario.w0).1
  = Raise AssertionError.
Proof. by vm_compute. Qed.

(** ** The document store *)

Lemma log_logs e w : log e w = logs [e] w.
Proof. reflexivity. Qed.

Lemma logs_logs es1 es2 w : logs es2 (logs es1 w) = logs (es1 ++ es2) w.
Proof. unfold logs. simpl. by rewrite app_assoc. Qed.


Lemma node_at_logs es w p : node_at (logs es w) p = node_at w p.
Proof. reflexivity. Qed.

Lemma load_logs es w p : load (logs es w) p = load w p.
Proof. reflexivity. Qed.

Lemma read_json_run p w : json_.read_json p w = (load w p, logs [ReadJson p] w).
Proof.
  unfold json_.read_json, load. rewrite log_logs.
  by destruct (node_at w p) as [[|[]]|].
Qed.

Lemma doc_path_run {V} (self : JSONEntry.t V) w :
  JSONEntry.doc_path self w
  = (DataSeries.json_path_in (cwd w) (JSONEntry.js self)
       (JSONObject.json_layer (JSONEntry.json self)), w).
Proof. reflexivity. Qed.

Lemma JSONObject_exists_run {V} (jo : JSONObject.t V) key k p w :
  JSONObject._add_layer jo key = Ok k →
  JSONObject.exists_ jo key p w
  = (res_bind (load w p) (exists_in jo k), logs [ReadJson p] w).
Proof.
  intros Hk. unfold JSONObject.exists_, bind, lift. rewrite Hk, read_json_run.
  unfold exists_in.
  destruct (load w p) as [j|]; [|done]. simpl.
  destruct (as_dict j) as [top|]; [|done]. simpl.
  by destruct (JSONObject.lookup_loop k top true) as [[dct e]|].
Qed.

(** [_read] on a document gives a value exactly where [exists] is true. *)
Lemma read_where_exists {V} (jo : JSONObject.t V) key k j b :
  JSONObject._add_layer jo key = Ok k →
  exists_in jo k j = Ok b →
  if b then
    (∃ v, JSONObject._read jo key j = Ok (Some v)) ∨
    (∃ e, JSONObject._read jo key j = Raise e)
  else JSONObject._read jo key j = Ok None.
Proof.
  intros Hk. unfold exists_in, JSONObject._read. rewrite Hk. simpl.
  destruct (as_dict j) as [top|]; [|done]. simpl.
  destruct (JSONObject.lookup_loop k top true) as [[dct e]|]; [|done]. simpl.
  unfold dict_mem. intros [= <-].
  destruct e; [|done].
  destruct (dict_get (JSONObject.name jo) dct) as [v|]; [|done].
  destruct (JSONObject.reader_ jo v) as [x|e]; simpl; [left|right]; by eexists.
Qed.

(** What a single [JSONEntry.read] that returns has gone through. *)
Lemma JSONEntry_read_inv {V} (self : JSONEntry.t V) key mapping w o :
  (JSONEntry.read self key mapping w).1 = Ok o →
  ∃ p k j b,
    DataSeries.json_path_in (cwd w) (JSONEntry.js self)
      (JSONObject.json_layer (JSONEntry.json self)) = Ok p ∧
    JSONObject._add_layer (JSONEntry.json self)
      (JSONEntry.the_key self key mapping) = Ok k ∧
    load w p = Ok j ∧
    exists_in (JSONEntry.json self) k j = Ok b ∧
    JSONObject._read (JSONEntry.json self)
      (JSONEntry.the_key self key mapping) j = Ok o ∧
    b = bool_decide (is_Some o).
Proof.
  unfold JSONEntry.read, JSONEntry.exists_. unfold bind at 1 2.
  rewrite doc_path_run.
  destruct (DataSeries.json_path_in _ _ _) as [p|] eqn:Hp; [|done].
  destruct (JSONObject._add_layer (JSONEntry.json self)
              (JSONEntry.the_key self key mapping)) as [k|] eqn:Hk.
  2:{ unfold JSONObject.exists_, bind, lift. by rewrite Hk. }
  rewrite (JSONObject_exists_run _ _ _ _ _ Hk).
  destruct (load w p) as [j|] eqn:Hj; [|done]. simpl.
  destruct (exists_in (JSONEntry.json self) k j) as [b|] eqn:Hb; [|done].
  pose proof (read_where_exists _ _ _ _ _ Hk Hb) as Hrd.
  destruct b.
  - unfold bind. rewrite doc_path_run. simpl. rewrite Hp.
    unfold JSONObject.read, bind, lift. rewrite read_json_run, load_logs, Hj.
    simpl. intros Ho. exists p, k, j, true. rewrite Ho.
    destruct Hrd as [[v Hv]|[e He]]; [|congruence].
    assert (o = Some v) as -> by congruence.
    repeat split; try done.
  - simpl. intros [= <-]. exists p, k, j, false. repeat split; try done.
Qed.

Section read_all.
Context {V : Type} (self : JSONEntry.t V) (mapping : bool) (w : World).
Context (p : string) (j : json).
Hypothesis Hp :
  DataSeries.json_path_in (cwd w) (JSONEntry.js self)
    (JSONObject.json_layer (JSONEntry.json self)) = Ok p.
Hypothesis Hj : load w p = Ok j.




End read_all.


Lemma writable_logs es w p : writable (logs es w) p = writable w p.
Proof. reflexivity. Qed.

Lemma writable_key w p k : writable w p = Ok k → k = resolve (cwd w) p ∧ k ≠ [].
Proof.
  unfold writable. destruct (resolve (cwd w) p) as [|x r]; [done|].
  destruct (node_key w (x :: r)) as [[|]|];
    destruct (node_key w (removelast (x :: r))) as [[|]|]; try done;
    by intros [= <-].
Qed.

Lemma JSONObject_write_ok {V} (jo : JSONObject.t V) v key p w w' :
  JSONObject.write jo v key p w = (Ok tt, w') →
  ∃ k j j' kp,
    JSONObject._add_layer jo key = Ok k ∧ load w p = Ok j ∧
    JSONObject.write_one jo v k j = Ok j' ∧ writable w p = Ok kp ∧
    w' = with_fs (logs [ReadJson p; WriteJson p] w) (<[kp := File (Json j')]> (fs w)).
Proof.
  unfold JSONObject.write.
  intros (k & w1 & Hk & H)%bind_ok. injection Hk as Hk <-.
  apply bind_ok in H as (j & w1 & Hj & H).
  rewrite read_json_run in Hj. injection Hj as Hj <-.
  apply bind_ok in H as (j' & w1 & Hj' & H). injection Hj' as Hj' <-.
  unfold json_.write_json, put_file in H. rewrite log_logs, logs_logs in H.
  rewrite writable_logs in H.
  destruct (writable w p) as [kp|] eqn:Hw; [|done]. injection H as <-.
  by exists k, j, j', kp.
Qed.

Lemma ensure_document_noop {V} (self : JSONEntry.t V) w p :
  DataSeries.json_path_in (cwd w) (JSONEntry.js self)
    (JSONObject.json_layer (JSONEntry.json self)) = Ok p →
  file_at w p = true →
  JSONEntry.ensure_document self w = (Ok tt, w).
Proof.
  intros Hp Hf. unfold JSONEntry.ensure_document, DataSeries.json_exists, bind.
  unfold DataSeries.json_path, bind, getcwd, lift, os.isfile.
  by rewrite Hp, Hf.
Qed.

Lemma load_file_at w p j : load w p = Ok j → file_at w p = true.
Proof. unfold load, file_at. by destruct (node_at w p) as [[|[]]|]. Qed.


Lemma node_key_ne w k : k ≠ [] → node_key w k = fs w !! k.
Proof. by destruct k. Qed.

Lemma removelast_ne {A} (k : list A) : k ≠ [] → removelast k ≠ k.
Proof.
  intros Hne E. apply (f_equal length) in E.
  destruct (exists_last Hne) as (l & x & ->).
  rewrite removelast_last, length_app in E. simpl in E. lia.
Qed.

(** After a document has been written, it can be loaded and written again. *)
Lemma written_document w p kp j es :
  writable w p = Ok kp →
  let w' := with_fs (logs es w) (<[kp := File (Json j)]> (fs w)) in
  load w' p = Ok j ∧ writable w' p = Ok kp.
Proof.
  intros Hw. pose proof (writable_key _ _ _ Hw) as [Hkp Hne]. simpl.
  unfold load, writable, node_at. simpl. rewrite <- Hkp.
  rewrite (node_key_ne _ kp Hne). simpl. rewrite lookup_insert_eq.
  split; [done|].
  unfold writable in Hw. rewrite <- Hkp in Hw.
  assert (node_key w (removelast kp) = Some Dir) as Hpar.
  { destruct (node_key w kp) as [[|]|];
      by destruct (node_key w (removelast kp)) as [[|]|]. }
  destruct (decide (removelast kp = [])) as [->|Hne'].
  - done.
  - rewrite (node_key_ne _ _ Hne') in Hpar.
    rewrite ?(node_key_ne _ _ Hne'). simpl.
    rewrite lookup_insert_ne by (by apply not_eq_sym, removelast_ne).
    by rewrite Hpar.
Qed.


Lemma write_unfold {V} (self : JSONEntry.t V) v key mapping :
  JSONEntry.write self v key mapping
  = (JSONEntry.ensure_document self;;
     let* pth := JSONEntry.doc_path self in
     JSONObject.write (JSONEntry.json self) v
       (JSONEntry.the_key self key mapping) pth).
Proof. reflexivity. Qed.






Example write_all_then_read_all :
  let w := (JSONEntry.write_all Scenario.entry ["-40.5"; "-76.0"]
              [["methane"]; ["h2o"]] true Scenario.w0).2 in
  (JSONEntry.read_all Scenario.entry [["methane"]; ["h2o"]] true w).1
  = Ok [Some "-40.5"; Some "-76.0"].
Proof. by vm_compute. Qed.

(** ** Keys that are not populated *)

Lemma lookup_loop_hit key : ∀ dct d e,
  dict_at key dct = Some d → JSONObject.lookup_loop key dct e = Ok (d, e).
Proof.
  induction key as [|k rest IH]; intros dct d e; simpl.
  - by intros [= ->].
  - destruct (dict_get k dct) as [[s|d']|]; [done| |done]. simpl. apply IH.
Qed.

Lemma lookup_loop_true key : ∀ dct e d,
  JSONObject.lookup_loop key dct e = Ok (d, true) →
  e = true ∧ dict_at key dct = Some d.
Proof.
  induction key as [|k rest IH]; intros dct e d; simpl.
  - by intros [= -> ->].
  - destruct (dict_get k dct) as [[s|d']|]; simpl; [done|apply IH|].
    by intros [? _]%IH.
Qed.





Example unset_key_in_place :
  JSONEntry.exists_ Scenario.entry ["methane"] true Scenario.w_h2o
    = (Ok false, logs [ReadJson "/P/db.json"] Scenario.w_h2o) ∧
  JSONEntry.read Scenario.entry ["methane"] true Scenario.w_h2o
    = (Ok None, logs [ReadJson "/P/db.json"] Scenario.w_h2o) ∧
  (JSONEntry.read Scenario.entry ["h2o"] true Scenario.w_h2o).1
    = Ok (Some "-75.123") ∧
  fs (JSONEntry.write Scenario.entry "-75.123" ["h2o"] true Scenario.w0).2
    = fs Scenario.w_h2o.
Proof. by vm_compute. Qed.

(** ** Keys recorded in the document *)

Lemma json_existing_ignores_locs self locs locs' json_layer :
  DataSeries.json_existing self locs json_layer
  = DataSeries.json_existing self locs' json_layer.
Proof. reflexivity. Qed.

(** C2, on the code: for the document
    [{"energy": "0.0", "h2o": {"energy": "-75.123", "c1": {...}}}],
    [existing] returns every key of the top level, a field included,
    whatever the prefix key, where the specification has the mapping-valued
    children found at the prefix key. *)
Theorem C2_existing_lists_top_level_keys :
  load Scenario.w_nested "/P/db.json" = Ok (JObj Scenario.dict_nested) ∧
  (JSONEntry.existing Scenario.entry ["h2o"] Scenario.w_nested).1
    = Ok [["energy"]; ["h2o"]] ∧
  existing_spec ["h2o"] Scenario.dict_nested = [["c1"]] ∧
  (JSONEntry.existing Scenario.entry [] Scenario.w_nested).1
    = Ok [["energy"]; ["h2o"]] ∧
  existing_spec [] Scenario.dict_nested = [["h2o"]].
Proof. by vm_compute. Qed.

Example nested_document_is_written_by_the_code :
  let w1 := (JSONEntry.write Scenario.entry "0.0" [] true Scenario.w0).2 in
  let w2 := (JSONEntry.write Scenario.entry "-75.123" ["h2o"] true w1).2 in
  let w3 := (JSONEntry.write Scenario.entry "-75.1" ["h2o"; "c1"] false w2).2 in
  fs w3 = fs Scenario.w_nested.
Proof. by vm_compute. Qed.

(** ** Listing what exists *)

Lemma append_cons c s t : String c s +:+ t = String c (s +:+ t).
Proof. reflexivity. Qed.

Lemma append_nil_l t : "" +:+ t = t.
Proof. reflexivity. Qed.

Lemma append_assoc (a b c : string) : (a +:+ b) +:+ c = a +:+ b +:+ c.
Proof. induction a as [|x a IH]; [done|]. by rewrite !append_cons, IH. Qed.

Lemma append_is_empty a b :
  posixpath.is_empty (a +:+ b) = posixpath.is_empty a && posixpath.is_empty b.
Proof. by destruct a. Qed.

Lemma endswith_sep_cons c s :
  s ≠ "" → posixpath.endswith_sep (String c s) = posixpath.endswith_sep s.
Proof. by destruct s. Qed.

Lemma endswith_sep_append a b :
  b ≠ "" → posixpath.endswith_sep (a +:+ b) = posixpath.endswith_sep b.
Proof.
  intros Hb. induction a as [|c a IH]; [done|].
  rewrite append_cons, endswith_sep_cons; [done|]. by destruct a, b.
Qed.

Lemma no_sep_endswith b : no_sep b = true → posixpath.endswith_sep b = false.
Proof.
  induction b as [|c b IH]; [done|]. simpl.
  intros [Hc Hb]%andb_true_iff. apply negb_true_iff in Hc.
  destruct b; [done|]. by apply IH.
Qed.

Lemma all_sep_endswith p :
  posixpath.all_sep p = true → p ≠ "" → posixpath.endswith_sep p = true.
Proof.
  induction p as [|c p IH]; [done|]. simpl.
  intros [Hc Hp]%andb_true_iff _. destruct p; [done|]. by apply IH.
Qed.

Lemma all_sep_append a b :
  posixpath.all_sep (a +:+ b) = posixpath.all_sep a && posixpath.all_sep b.
Proof.
  induction a as [|c a IH]; [done|]. rewrite append_cons. simpl.
  by rewrite IH, andb_assoc.
Qed.

Lemma rpartition_no_sep b : no_sep b = true → posixpath.rpartition b = ("", b).
Proof.
  induction b as [|c b IH]; [done|]. simpl.
  intros [Hc Hb]%andb_true_iff. apply negb_true_iff in Hc.
  by rewrite (IH Hb), Hc.
Qed.

Lemma rpartition_append a b :
  no_sep b = true →
  posixpath.rpartition (a +:+ b)
  = ((posixpath.rpartition a).1, (posixpath.rpartition a).2 +:+ b).
Proof.
  intros Hb. induction a as [|c a IH]; [by rewrite append_nil_l, rpartition_no_sep|].
  rewrite append_cons. simpl. rewrite IH.
  destruct (posixpath.rpartition a) as [h t]. simpl.
  destruct (posixpath.is_empty h); [|done].
  by destruct (Ascii.eqb c posixpath.sep).
Qed.

Lemma rpartition_ends a : posixpath.rpartition (a +:+ "/") = (a +:+ "/", "").
Proof.
  induction a as [|c a IH]; [done|]. rewrite append_cons. simpl. rewrite IH.
  by rewrite append_is_empty, andb_false_r.
Qed.

Lemma rpartition_all_sep p :
  posixpath.all_sep p = true → posixpath.rpartition p = (p, "").
Proof.
  induction p as [|c p IH]; [done|]. simpl.
  intros [Hc Hp]%andb_true_iff. rewrite (IH Hp), Hc. by destruct p.
Qed.

Lemma rstrip_sep_ends a :
  posixpath.endswith_sep a = false → posixpath.rstrip_sep (a +:+ "/") = a.
Proof.
  induction a as [|c a IH]; [done|]. intros He. rewrite append_cons. simpl.
  assert (posixpath.endswith_sep a = false) as Ha.
  { destruct a; [done|]. by rewrite endswith_sep_cons in He. }
  rewrite (IH Ha). destruct a; [|done]. simpl in *. by rewrite He.
Qed.

Lemma join2_relative a b :
  posixpath.isabs b = false →
  posixpath.join2 a b
  = if posixpath.is_empty a || posixpath.endswith_sep a then a +:+ b
    else a +:+ "/" +:+ b.
Proof. intros Hb. unfold posixpath.join2. by rewrite Hb. Qed.

Lemma tidy_cases p :
  tidy p →
  (posixpath.all_sep p = true ∧
   posixpath.is_empty p || posixpath.endswith_sep p = true) ∨
  (posixpath.all_sep p = false ∧ posixpath.is_empty p = false ∧
   posixpath.endswith_sep p = false).
Proof.
  intros [Ha|He].
  - left. split; [done|]. destruct p; [done|]. by rewrite all_sep_endswith.
  - destruct (posixpath.all_sep p) eqn:Ha.
    + left. split; [done|]. destruct p; [done|]. by rewrite all_sep_endswith.
    + right. by destruct p.
Qed.

(** [split] undoes the [join] of one more star. *)
Lemma split_join_star q :
  tidy q → posixpath.split (posixpath.join2 q "*") = (q, "*").
Proof.
  intros [[Ha He]|(Ha & Hn & He)]%tidy_cases;
    rewrite join2_relative by done; unfold posixpath.split.
  - rewrite He, rpartition_append, rpartition_all_sep by done. simpl.
    by rewrite Ha, andb_false_r.
  - rewrite Hn, He. simpl. rewrite <- append_assoc, rpartition_append by done.
    rewrite rpartition_ends. simpl.
    rewrite append_is_empty, all_sep_append, Ha, andb_false_r. simpl.
    by rewrite rstrip_sep_ends.
Qed.

Lemma has_magic_append a b :
  glob.has_magic (a +:+ b) = glob.has_magic a || glob.has_magic b.
Proof.
  induction a as [|c a IH]; [done|]. rewrite append_cons. simpl.
  by rewrite IH, orb_assoc.
Qed.

Lemma has_magic_join_star q : glob.has_magic (posixpath.join2 q "*") = true.
Proof.
  rewrite join2_relative by done.
  destruct (_ || _); rewrite !has_magic_append; simpl; by rewrite ?orb_true_r.
Qed.

Lemma append_length a b :
  String.length (a +:+ b) = String.length a + String.length b.
Proof. induction a as [|c a IH]; [done|]. rewrite append_cons. simpl. by rewrite IH. Qed.

Lemma join_star_length q :
  String.length q < String.length (posixpath.join2 q "*").
Proof.
  rewrite join2_relative by done.
  destruct (_ || _); rewrite !append_length; simpl; lia.
Qed.

Lemma tidy_join2 q name :
  no_sep name = true → name ≠ "" → tidy (posixpath.join2 q name).
Proof.
  intros Hs Hne. right.
  assert (posixpath.isabs name = false) as Hrel.
  { destruct name as [|c name]; [done|]. simpl in *.
    apply andb_true_iff in Hs as [Hc _]. by apply negb_true_iff in Hc. }
  rewrite join2_relative by done.
  destruct (_ || _).
  - by rewrite endswith_sep_append, no_sep_endswith.
  - rewrite <- append_assoc, endswith_sep_append by done.
    by apply no_sep_endswith.
Qed.

Lemma join_snoc p l x :
  posixpath.join p (l ++ [x]) = posixpath.join2 (posixpath.join p l) x.
Proof. unfold posixpath.join. by rewrite fold_left_app. Qed.

Lemma join_cons p x l :
  posixpath.join p (x :: l) = posixpath.join (posixpath.join2 p x) l.
Proof. reflexivity. Qed.

Lemma norm_step_nonzero n m acc comp :
  n ≠ 0 → m ≠ 0 → posixpath.norm_step n acc comp = posixpath.norm_step m acc comp.
Proof.
  intros Hn Hm. unfold posixpath.norm_step.
  by rewrite (bool_decide_false (n = 0)), (bool_decide_false (m = 0)).
Qed.

Lemma norm_fold_nonzero n m comps : ∀ acc,
  n ≠ 0 → m ≠ 0 →
  fold_left (posixpath.norm_step n) comps acc
  = fold_left (posixpath.norm_step m) comps acc.
Proof.
  induction comps as [|x r IH]; intros acc Hn Hm; simpl; [done|].
  by rewrite (norm_step_nonzero n m), (IH _ Hn Hm).
Qed.

Lemma split_sep_append_sep a s :
  posixpath.split_sep (a +:+ "/" +:+ s)
  = posixpath.split_sep a ++ posixpath.split_sep s.
Proof.
  induction a as [|c a IH]; [done|]. rewrite append_cons. simpl. rewrite IH.
  destruct (Ascii.eqb c posixpath.sep); [done|].
  pose proof (split_sep_nonempty a).
  by destruct (posixpath.split_sep a).
Qed.

Lemma all_sep_slashes p :
  posixpath.all_sep p = true → p = posixpath.slashes (String.length p).
Proof.
  induction p as [|c p IH]; [done|]. simpl.
  intros [Hc Hp]%andb_true_iff. apply Ascii.eqb_eq in Hc as ->.
  by rewrite <- (IH Hp).
Qed.

Lemma append_nil_r a : a +:+ "" = a.
Proof. induction a as [|c a IH]; [done|]. by rewrite append_cons, IH. Qed.

Lemma clean_relative name : clean name → posixpath.isabs name = false.
Proof.
  intros (Hs & Hne & _). destruct name as [|c name]; [done|]. simpl in *.
  apply andb_true_iff in Hs as [Hc _]. by apply negb_true_iff in Hc.
Qed.

Lemma isabs_append a b :
  posixpath.isabs a = true → posixpath.isabs (a +:+ b) = true.
Proof. by destruct a. Qed.

Lemma isabs_join2 q name :
  posixpath.isabs q = true → clean name →
  posixpath.isabs (posixpath.join2 q name) = true.
Proof.
  intros Hq Hn. rewrite join2_relative by (by apply clean_relative).
  destruct (_ || _); by apply isabs_append.
Qed.

(** One more segment under an absolute path is one more component. *)
Lemma norm_comps_join2 q name :
  posixpath.isabs q = true → tidy q → clean name →
  posixpath.norm_comps (posixpath.join2 q name) = posixpath.norm_comps q ++ [name].
Proof.
  intros Hq Ht Hn. pose proof (isabs_join2 q name Hq Hn) as Habs.
  pose proof Hn as (Hs & Hne & _).
  rewrite join2_relative in * by (by apply clean_relative).
  apply tidy_cases in Ht as [[Ha He]|(Ha & Hemp & He)].
  - rewrite He in *. rewrite (all_sep_slashes q Ha).
    assert (String.length q ≠ 0) as Hk by (by destruct q).
    rewrite <- (append_nil_r (posixpath.slashes _)) at 2.
    change name with (posixpath.join_sep [name]) at 1.
    change "" with (posixpath.join_sep []).
    assert (Forall clean [name]) as H1 by (constructor; [done|constructor]).
    assert (Forall clean []) as H0 by constructor.
    by rewrite (norm_comps_normal _ [name] Hk H1), (norm_comps_normal _ [] Hk H0).
  - rewrite Hemp, He in *. simpl in *. unfold posixpath.norm_comps.
    rewrite split_sep_append_sep, (split_sep_single name Hs), fold_left_app.
    pose proof (initial_slashes_isabs _ Habs) as Hn'.
    pose proof (initial_slashes_isabs _ Hq) as Hnq.
    set (n' := posixpath.initial_slashes (q +:+ "/" +:+ name)) in *.
    rewrite (norm_fold_keep n' [name]) by (constructor; [done|constructor]).
    by rewrite (norm_fold_nonzero n' (posixpath.initial_slashes q)).
Qed.

Lemma resolve_abs c q : posixpath.isabs q = true → resolve c q = posixpath.norm_comps q.
Proof. intros Hq. unfold resolve. by rewrite Hq. Qed.

Lemma join_names names : ∀ q,
  posixpath.isabs q = true → tidy q → Forall clean names →
  posixpath.norm_comps (posixpath.join q names) = posixpath.norm_comps q ++ names ∧
  posixpath.isabs (posixpath.join q names) = true ∧
  tidy (posixpath.join q names).
Proof.
  induction names as [|x names IH]; intros q Hq Ht Hall.
  - by rewrite app_nil_r.
  - inversion Hall as [|?? Hx Hr]; subst. rewrite join_cons.
    destruct (IH (posixpath.join2 q x)) as (H1 & H2 & H3); try done.
    + by apply isabs_join2.
    + destruct Hx as (? & ? & _). by apply tidy_join2.
    + rewrite H1, norm_comps_join2 by done. by rewrite <- app_assoc.
Qed.

Lemma child_name_Some k k' name :
  os.child_name k k' = Some name ↔ k' = k ++ [name].
Proof.
  unfold os.child_name. case_decide as H.
  - destruct H as [Hlen [r ->]]. rewrite length_app in Hlen.
    destruct r as [|x [|y r]]; simpl in Hlen; try lia.
    rewrite last_snoc. split; [by intros [= ->]|by intros [= ->]%app_inv_head].
  - split; [done|]. intros ->. destruct H. split.
    + rewrite length_app. simpl. lia.
    + by apply prefix_app_r.
Qed.

Lemma elem_of_listdir w k dironly name :
  name ∈ os.listdir w k dironly ↔
  ∃ n, fs w !! (k ++ [name]) = Some n ∧ (dironly = true → n = Dir).
Proof.
  unfold os.listdir. rewrite list_elem_of_omap. split.
  - intros ([k' n] & Hin%elem_of_map_to_list & H). simpl in H.
    destruct (dironly && negb (os.is_dir_node n)) eqn:Hd; [done|].
    apply child_name_Some in H as ->. exists n. split; [done|].
    intros ->. by destruct n.
  - intros (n & Hn & Hd). exists (k ++ [name], n). split.
    + by apply elem_of_map_to_list.
    + simpl. destruct dironly; simpl.
      * rewrite (Hd eq_refl). simpl. by apply child_name_Some.
      * by apply child_name_Some.
Qed.

Lemma segment_clean name : segment name → clean name.
Proof.
  intros (Hs & Hne & Hh). repeat split; try done; by intros ->.
Qed.

Lemma found_below_clean w K names b :
  wf_names w → names ≠ [] → found_below w K names b → Forall clean names.
Proof.
  intros Hwf Hne (_ & _ & n & Hn & _).
  rewrite node_key_ne in Hn by (by destruct K, names).
  apply Hwf in Hn. by apply Forall_app in Hn as [_ ?].
Qed.

Lemma iglob_S fuel w pathname dironly :
  glob.iglob (S fuel) w pathname dironly =
  let '(dirname, basename) := posixpath.split pathname in
  if negb (glob.has_magic pathname) then
    if negb (posixpath.is_empty basename)
    then Ok (if exists_at w pathname then [pathname] else [])
    else Ok (if dir_at w dirname then [pathname] else [])
  else if bool_decide (basename = "*") then
    let dirs :=
      if bool_decide (dirname ≠ pathname) && glob.has_magic dirname
      then glob.iglob fuel w dirname true
      else Ok [dirname] in
    res_bind dirs (λ ds,
      Ok (flat_map (λ d, posixpath.join2 d <$> glob.glob1 w d dironly) ds))
  else Raise OutsideModel.
Proof. reflexivity. Qed.

Lemma elem_of_glob1 w dd b name :
  name ∈ glob.glob1 w dd b ↔
  dir_at w dd = true ∧ glob.ishidden name = false ∧
  ∃ n, fs w !! (resolve (cwd w) dd ++ [name]) = Some n ∧ (b = true → n = Dir).
Proof.
  unfold glob.glob1. destruct (dir_at w dd).
  - rewrite list_elem_of_filter, elem_of_listdir.
    split; [by intros [? ?]|by intros (_ & ? & ?)].
  - split; [by intros ?%elem_of_nil|by intros [? _]].
Qed.

Lemma elem_of_flat_map {A B} (f : A → list B) (l : list A) y :
  y ∈ flat_map f l ↔ ∃ x, x ∈ l ∧ y ∈ f x.
Proof.
  rewrite list_elem_of_In, in_flat_map.
  split; intros (x & H1 & H2); exists x; by rewrite ?list_elem_of_In in *.
Qed.

Lemma flat_map_bind {A B} (f : A → list B) (l : list A) :
  flat_map f l = l ≫= f.
Proof. induction l as [|x l IH]; [done|]. simpl. by rewrite IH. Qed.

Lemma NoDup_omap_inj {A B} (g : A → option B) (l : list A) :
  NoDup l →
  (∀ x1 x2 y, x1 ∈ l → x2 ∈ l → g x1 = Some y → g x2 = Some y → x1 = x2) →
  NoDup (omap g l).
Proof.
  induction 1 as [|x l Hx Hl IH]; intros Hinj; [constructor|].
  cbn [omap list_omap].
  assert (NoDup (omap g l)) as Hrest.
  { apply IH. intros x1 x2 y H1 H2. apply Hinj; by apply list_elem_of_further. }
  destruct (g x) as [y|] eqn:Hg; [|done]. constructor; [|done].
  intros (x' & Hin & Hg')%list_elem_of_omap. apply Hx.
  rewrite (Hinj x x' y); try done; [apply list_elem_of_here|].
  by apply list_elem_of_further.
Qed.

Lemma NoDup_listdir w k dironly : NoDup (os.listdir w k dironly).
Proof.
  unfold os.listdir. apply NoDup_omap_inj; [apply NoDup_map_to_list|].
  intros [k1 n1] [k2 n2] name Hin1%elem_of_map_to_list Hin2%elem_of_map_to_list.
  simpl.
  destruct (dironly && negb (os.is_dir_node n1)); [done|].
  destruct (dironly && negb (os.is_dir_node n2)); [done|].
  intros ->%child_name_Some ->%child_name_Some. congruence.
Qed.

Lemma NoDup_glob1 w dd b : NoDup (glob.glob1 w dd b).
Proof.
  unfold glob.glob1. destruct (dir_at w dd); [|constructor].
  apply NoDup_filter, NoDup_listdir.
Qed.

Lemma join2_inj d a b :
  posixpath.isabs a = false → posixpath.isabs b = false →
  posixpath.join2 d a = posixpath.join2 d b → a = b.
Proof.
  intros Ha Hb. rewrite !join2_relative by done.
  destruct (_ || _); intros E.
  - by apply (inj (String.app d)) in E.
  - apply (inj (String.app d)) in E. by injection E.
Qed.

Section stars.
Context (w : World) (P : string).
Hypothesis HP : posixpath.isabs P = true.
Hypothesis Ht : tidy P.
Hypothesis Hm : glob.has_magic P = false.
Hypothesis Hwf : wf_names w.

Let K := posixpath.norm_comps P.

Lemma stars_S d : stars P (S d) = posixpath.join2 (stars P d) "*".
Proof. unfold stars. by rewrite replicate_S_end, join_snoc. Qed.

Lemma stars_tidy d : tidy (stars P d).
Proof. destruct d; [done|]. rewrite stars_S. by apply tidy_join2. Qed.

Lemma stars_magic d : glob.has_magic (stars P (S d)) = true.
Proof. rewrite stars_S. apply has_magic_join_star. Qed.

Lemma stars_length (d : nat) : (d <= String.length (stars P d))%nat.
Proof.
  induction d as [|d IH]; [lia|]. rewrite stars_S.
  pose proof (join_star_length (stars P d)). lia.
Qed.

Lemma dir_at_names names :
  Forall clean names →
  dir_at w (posixpath.join P names) = true ↔ node_key w (K ++ names) = Some Dir.
Proof.
  intros Hall. destruct (join_names names P HP Ht Hall) as (Hk & Habs & _).
  unfold dir_at, node_at. rewrite resolve_abs, Hk by done. fold K.
  by destruct (node_key w (K ++ names)) as [[|]|].
Qed.

Lemma elem_of_glob1_names names b name :
  Forall clean names →
  name ∈ glob.glob1 w (posixpath.join P names) b ↔
  node_key w (K ++ names) = Some Dir ∧ glob.ishidden name = false ∧
  ∃ n, node_key w (K ++ names ++ [name]) = Some n ∧ (b = true → n = Dir).
Proof.
  intros Hall. rewrite elem_of_glob1, (dir_at_names names Hall).
  destruct (join_names names P HP Ht Hall) as (Hk & Habs & _).
  rewrite resolve_abs, Hk by done. fold K.
  rewrite (node_key_ne w (K ++ names ++ [name])) by (by destruct K, names).
  by rewrite <- app_assoc.
Qed.

Lemma found_below_snoc names name b :
  found_below w K (names ++ [name]) b ↔
  found_below w K names true ∧ glob.ishidden name = false ∧
  ∃ n, node_key w (K ++ names ++ [name]) = Some n ∧ (b = true → n = Dir).
Proof.
  unfold found_below. rewrite Forall_app, Forall_singleton, length_app. simpl.
  split.
  - intros ((Hv & Hh) & Hdirs & Hlast). split; [split; [done|split]|done].
    + intros i Hi. specialize (Hdirs i). rewrite take_app_le in Hdirs by lia.
      apply Hdirs. lia.
    + exists Dir. split; [|done]. specialize (Hdirs (length names)).
      rewrite take_app_length in Hdirs. apply Hdirs. lia.
  - intros ((Hv & Hdirs & n & Hn & Hd) & Hh & Hlast).
    split; [done|]. split; [|done].
    intros i Hi. destruct (decide (i < length names)) as [Hlt|Hge].
    + rewrite take_app_le by lia. by apply Hdirs.
    + assert (i = length names) as -> by lia. rewrite take_app_length.
      by rewrite Hn, (Hd eq_refl).
Qed.

Lemma glob1_names_clean names b name :
  Forall clean names →
  name ∈ glob.glob1 w (posixpath.join P names) b → clean name.
Proof.
  intros Hall (_ & _ & n & Hn & _)%elem_of_glob1_names; [|done].
  rewrite node_key_ne in Hn by (by destruct K, names).
  apply Hwf in Hn. rewrite !Forall_app in Hn.
  destruct Hn as (_ & _ & Hn). by inversion Hn.
Qed.

Lemma NoDup_glob1_paths names b :
  Forall clean names →
  NoDup (posixpath.join2 (posixpath.join P names)
           <$> glob.glob1 w (posixpath.join P names) b).
Proof.
  intros Hall. apply NoDup_fmap_2_strong; [|apply NoDup_glob1].
  intros a1 a2 H1%(glob1_names_clean _ _ _ Hall) H2%(glob1_names_clean _ _ _ Hall).
  apply join2_inj; by apply clean_relative.
Qed.

(** What [glob] finds for the prefix followed by [d + 1] stars. *)
Lemma iglob_stars d : ∀ fuel b,
  d < fuel →
  ∃ l, glob.iglob fuel w (stars P (S d)) b = Ok l ∧ NoDup l ∧
       ∀ x, x ∈ l ↔
            ∃ names, length names = S d ∧ x = posixpath.join P names ∧
                     found_below w K names b.
Proof.
  induction d as [|d IH]; intros fuel b Hfuel;
    (destruct fuel as [|fuel]; [lia|]);
    rewrite iglob_S, (stars_S), (split_join_star _ (stars_tidy _)),
      <- stars_S, stars_magic; cbn [negb]; rewrite bool_decide_true by done.
  - change (stars P 0) with P. rewrite Hm, andb_false_r. cbn [res_bind].
    eexists. split; [done|]. split.
    { cbn [flat_map]. rewrite app_nil_r. by apply (NoDup_glob1_paths [] b). }
    intros x.
    rewrite elem_of_flat_map. setoid_rewrite list_elem_of_singleton.
    setoid_rewrite list_elem_of_fmap.
    pose proof (elem_of_glob1_names [] b) as Hg. simpl in Hg.
    split.
    + intros (? & -> & name & -> & Hin). apply Hg in Hin; [|done].
      exists [name]. split; [done|]. split; [done|].
      apply (found_below_snoc [] name b). simpl. split; [|by destruct Hin].
      split; [done|]. split; [intros i Hi; simpl in Hi; lia|].
      exists Dir. split; [|done]. by destruct Hin.
    + intros (names & Hlen & -> & Hf).
      destruct names as [|name [|? ?]]; simpl in Hlen; try lia.
      apply (found_below_snoc [] name b) in Hf as ((_ & _ & n & Hn & Hd) & Hh & Hl).
      exists P. split; [done|]. exists name. split; [done|].
      apply Hg; [done|]. by rewrite Hn, (Hd eq_refl).
  - rewrite stars_magic, andb_true_r.
    rewrite bool_decide_true.
    2:{ intros E. pose proof (join_star_length (stars P (S d))) as Hl.
        rewrite <- stars_S, <- E in Hl. lia. }
    destruct (IH fuel true) as (l' & -> & Hnd & Hl'); [lia|]. cbn [res_bind].
    eexists. split; [done|]. split.
    { rewrite flat_map_bind. apply NoDup_bind; [| |done].
      - intros x1 x2 y (n1 & Hlen1 & -> & Hf1)%Hl' (n2 & Hlen2 & -> & Hf2)%Hl'.
        assert (Forall clean n1) as Hc1
          by (eapply found_below_clean; [done|intros ->; simpl in *; lia|done]).
        assert (Forall clean n2) as Hc2
          by (eapply found_below_clean; [done|intros ->; simpl in *; lia|done]).
        intros (a1 & -> & Ha1)%list_elem_of_fmap (a2 & E & Ha2)%list_elem_of_fmap.
        apply (glob1_names_clean _ _ _ Hc1) in Ha1.
        apply (glob1_names_clean _ _ _ Hc2) in Ha2.
        rewrite <- !join_snoc in E. apply (f_equal posixpath.norm_comps) in E.
        destruct (join_names (n1 ++ [a1]) P HP Ht) as (E1 & _);
          [apply Forall_app; split; [done|constructor; [done|constructor]]|].
        destruct (join_names (n2 ++ [a2]) P HP Ht) as (E2 & _);
          [apply Forall_app; split; [done|constructor; [done|constructor]]|].
        rewrite E1, E2 in E. apply app_inv_head in E.
        apply app_inj_tail in E as [-> _]. done.
      - intros dd (n1 & Hlen1 & -> & Hf1)%Hl'.
        apply NoDup_glob1_paths.
        eapply found_below_clean; [done|intros ->; simpl in *; lia|done]. }
    intros x.
    rewrite elem_of_flat_map. setoid_rewrite list_elem_of_fmap. split.
    + intros (dd & Hdd & name & -> & Hin).
      apply Hl' in Hdd as (names & Hlen & -> & Hf).
      assert (Forall clean names) as Hcl.
      { eapply found_below_clean; [done| |done]. by destruct names. }
      apply (elem_of_glob1_names names b name Hcl) in Hin.
      exists (names ++ [name]). rewrite length_app, join_snoc. simpl.
      split; [lia|]. split; [done|]. apply found_below_snoc. by destruct Hin.
    + intros (names & Hlen & -> & Hf).
      destruct (exists_last (l := names)) as (names' & name & ->);
        [by destruct names|].
      rewrite length_app in Hlen. simpl in Hlen.
      apply found_below_snoc in Hf as (Hf' & Hh & Hlast).
      assert (Forall clean names') as Hcl.
      { eapply found_below_clean; [done| |done]. destruct names'; [simpl in *; lia|done]. }
      exists (posixpath.join P names'). split.
      * apply Hl'. exists names'. split; [lia|]. done.
      * exists name. rewrite join_snoc. split; [done|].
        apply (elem_of_glob1_names names' b name Hcl).
        split; [|done]. destruct Hf' as (_ & _ & n & Hn & Hd).
        by rewrite Hn, (Hd eq_refl).
Qed.

End stars.

Lemma rpartition_app p :
  (posixpath.rpartition p).1 +:+ (posixpath.rpartition p).2 = p.
Proof.
  induction p as [|c p IH]; [done|]. simpl.
  destruct (posixpath.rpartition p) as [h t]. simpl in *.
  destruct h as [|x h]; simpl.
  - rewrite append_nil_l in IH. subst.
    by destruct (Ascii.eqb c posixpath.sep).
  - by rewrite <- IH.
Qed.

Lemma rpartition_tail_empty p :
  (posixpath.rpartition p).2 = "" → p = "" ∨ posixpath.endswith_sep p = true.
Proof.
  induction p as [|c p IH]; [by left|]. intros H. right.
  pose proof (rpartition_app p) as Happ. simpl in H.
  destruct (posixpath.rpartition p) as [h t]. simpl in Happ, IH.
  destruct h as [|x h]; simpl in H.
  - rewrite append_nil_l in Happ. subst t.
    destruct (Ascii.eqb c posixpath.sep) eqn:Hc; simpl in H; [|done].
    by subst p.
  - subst t. destruct (IH eq_refl) as [->|IHe]; [done|].
    rewrite endswith_sep_cons; [done|]. by intros ->.
Qed.

Lemma split_tail_empty p :
  tidy p → (posixpath.split p).2 = "" → (posixpath.split p).1 = p.
Proof.
  intros [[Ha He]|(Ha & Hn & He)]%tidy_cases; unfold posixpath.split.
  - rewrite rpartition_all_sep by done. by rewrite Ha, andb_false_r.
  - destruct (posixpath.rpartition p) as [h t] eqn:Hr.
    assert (t = "" → False) as Hne.
    { intros ->. destruct (rpartition_tail_empty p) as [->|E];
        [by rewrite Hr|done|congruence]. }
    by destruct (negb _ && negb _); simpl; intros ?%Hne.
Qed.

Lemma existing_paths_run self root_locs w P :
  resolved_prefix (cwd w) self root_locs = Ok P →
  DataSeries._existing_paths self root_locs w
  = (res_bind
       (glob.iglob (S (String.length (stars P (DataSeries.depth self)))) w
          (stars P (DataSeries.depth self)) false)
       (λ found,
          Ok (sorted (posixpath.join2 P <$> filter (λ p, dir_at w p = true) found))),
     w).
Proof.
  unfold resolved_prefix, DataSeries._existing_paths, bind. intros HP.
  assert ((match DataSeries.root self with
           | Some r => DataSeries.path r root_locs
           | None => ret (DataSeries.prefix self)
           end) w = (Ok P, w)) as ->.
  { destruct (DataSeries.root self) as [r|].
    - by rewrite path_run, HP.
    - by injection HP as <-. }
  unfold glob.glob, stars.
  by destruct (glob.iglob _ w _ false).
Qed.

Lemma join2_abs a b : posixpath.isabs b = true → posixpath.join2 a b = b.
Proof. intros Hb. unfold posixpath.join2. by rewrite Hb. Qed.

Lemma dir_exists w p : dir_at w p = true → exists_at w p = true.
Proof. unfold dir_at, exists_at. by destruct (node_at w p). Qed.

Section listing.
Context (w : World) (P : string).
Hypothesis HP : posixpath.isabs P = true.
Hypothesis Ht : tidy P.
Hypothesis Hm : glob.has_magic P = false.
Hypothesis Hwf : wf_names w.

Lemma found_listed names :
  names ≠ [] →
  found_below w (posixpath.norm_comps P) names false ∧
  dir_at w (posixpath.join P names) = true ↔
  Forall segment names ∧
  ∀ i : nat, (i <= length names)%nat →
             dir_at w (posixpath.join P (take i names)) = true.
Proof.
  intros Hne. split.
  - intros [Hf Hd].
    pose proof (found_below_clean w _ names false Hwf Hne Hf) as Hcl.
    destruct Hf as (Hv & Hdirs & _). split.
    + apply Forall_forall. intros name Hin.
      rewrite Forall_forall in Hv, Hcl.
      destruct (Hcl name Hin) as (? & ? & _). by split; [|split; [|apply Hv]].
    + intros i Hi. destruct (decide (i < length names)) as [Hlt|Hge].
      * apply dir_at_names; try done; [by apply Forall_take|]. by apply Hdirs.
      * by rewrite take_ge by lia.
  - intros [Hseg Hdirs].
    assert (Forall clean names) as Hcl
      by (eapply Forall_impl; [done|apply segment_clean]).
    assert (dir_at w (posixpath.join P names) = true) as Hd.
    { specialize (Hdirs (length names)). rewrite take_ge in Hdirs by lia.
      by apply Hdirs. }
    split; [|done]. split; [|split].
    + eapply Forall_impl; [exact Hseg|]. by intros ? (_ & _ & ?).
    + intros i Hi. apply dir_at_names; try done; [by apply Forall_take|].
      apply Hdirs. lia.
    + exists Dir. split; [|done]. by apply dir_at_names.
Qed.

(** [_existing_paths] for the prefix [P]: the sorted list of the
    directories [depth] visible segments below [P]. *)
Lemma existing_paths_listed self root_locs :
  resolved_prefix (cwd w) self root_locs = Ok P →
  ∃ pths,
    DataSeries._existing_paths self root_locs w = (Ok pths, w) ∧
    StronglySorted String.le pths ∧ NoDup pths ∧
    ∀ x, x ∈ pths ↔ listed_dir w P (DataSeries.depth self) x.
Proof.
  intros Hpre. rewrite (existing_paths_run _ _ _ _ Hpre).
  destruct (DataSeries.depth self) as [|d].
  - change (stars P 0) with P. rewrite iglob_S.
    destruct (posixpath.split P) as [dirname basename] eqn:Hsp.
    rewrite Hm. cbn [negb].
    assert (∃ found, (if negb (posixpath.is_empty basename)
                      then Ok (if exists_at w P then [P] else [])
                      else Ok (if dir_at w dirname then [P] else []))
                     = Ok found ∧ NoDup found ∧
                     ∀ y, y ∈ filter (λ p, dir_at w p = true) found
                          ↔ y = P ∧ dir_at w P = true)
      as (found & -> & Hnd & Hfound).
    { destruct (posixpath.is_empty basename) eqn:Hb; simpl.
      - assert (dirname = P) as ->.
        { pose proof (split_tail_empty P Ht) as H. rewrite Hsp in H.
          apply H. by destruct basename. }
        eexists. split; [done|].
        split; [destruct (dir_at w P); by repeat constructor; set_solver|].
        intros y. rewrite list_elem_of_filter.
        destruct (dir_at w P) eqn:Hd.
        + rewrite list_elem_of_singleton. split; [by intros [? ->]|by intros [-> ?]].
        + split; [by intros [_ ?%elem_of_nil]|by intros [_ ?]].
      - eexists. split; [done|].
        split; [destruct (exists_at w P); by repeat constructor; set_solver|].
        intros y. rewrite list_elem_of_filter.
        destruct (exists_at w P) eqn:He.
        + rewrite list_elem_of_singleton. split; [by intros [? ->]|by intros [-> ?]].
        + split; [by intros [_ ?%elem_of_nil]|].
          intros [_ Hd%dir_exists]. congruence. }
    cbn [res_bind]. eexists. split; [done|].
    split; [apply StronglySorted_merge_sort; apply _|].
    split.
    { unfold sorted. rewrite merge_sort_Permutation.
      apply NoDup_fmap_2_strong; [|by apply NoDup_filter].
      by intros y1 y2 [-> _]%Hfound [-> _]%Hfound. }
    intros x. unfold sorted. rewrite merge_sort_Permutation, list_elem_of_fmap.
    setoid_rewrite Hfound. unfold listed_dir. split.
    + intros (y & -> & -> & Hd). exists []. rewrite join2_abs by done.
      repeat split; try done. intros i Hi. by rewrite take_nil.
    + intros (names & Hlen & _ & -> & Hd). apply nil_length_inv in Hlen as ->.
      exists P. rewrite join2_abs by done. repeat split; try done.
      by apply (Hd 0).
  - destruct (iglob_stars w P HP Ht Hm Hwf d (S (String.length (stars P (S d)))) false)
      as (l & -> & Hnd & Hl).
    { pose proof (stars_length P (S d)). lia. }
    cbn [res_bind]. eexists. split; [done|].
    split; [apply StronglySorted_merge_sort; apply _|].
    split.
    { unfold sorted. rewrite merge_sort_Permutation.
      apply NoDup_fmap_2_strong; [|by apply NoDup_filter].
      intros y1 y2 [_ (n1 & Hlen1 & -> & Hf1)%Hl]%list_elem_of_filter
        [_ (n2 & Hlen2 & -> & Hf2)%Hl]%list_elem_of_filter.
      destruct (join_names n1 P HP Ht) as (_ & Ha1 & _);
        [eapply found_below_clean; [done|intros ->; simpl in *; lia|done]|].
      destruct (join_names n2 P HP Ht) as (_ & Ha2 & _);
        [eapply found_below_clean; [done|intros ->; simpl in *; lia|done]|].
      by rewrite !join2_abs. }
    intros x. unfold sorted.
    rewrite merge_sort_Permutation, list_elem_of_fmap.
    setoid_rewrite list_elem_of_filter. setoid_rewrite Hl.
    unfold listed_dir. split.
    + intros (y & -> & Hd & names & Hlen & -> & Hf).
      assert (names ≠ []) as Hne by (by destruct names).
      destruct (proj1 (found_listed names Hne) (conj Hf Hd)) as [Hseg Hdirs].
      assert (Forall clean names) as Hcl
        by (eapply Forall_impl; [done|apply segment_clean]).
      destruct (join_names names P HP Ht Hcl) as (_ & Habs & _).
      exists names. rewrite join2_abs by done. rewrite <- Hlen.
      by repeat split.
    + intros (names & Hlen & Hseg & -> & Hdirs).
      assert (names ≠ []) as Hne by (by destruct names).
      rewrite <- Hlen in Hdirs.
      destruct (proj2 (found_listed names Hne) (conj Hseg Hdirs)) as [Hf Hd].
      assert (Forall clean names) as Hcl
        by (eapply Forall_impl; [done|apply segment_clean]).
      destruct (join_names names P HP Ht Hcl) as (_ & Habs & _).
      exists (posixpath.join P names). rewrite join2_abs by done.
      split; [done|]. split; [done|]. by exists names.
Qed.

End listing.

Lemma DataFile_exists_run {V} (f : DataFile.t V) d w :
  DataFile.exists_ f d w = (Ok (file_at w (DataFile.path f d)), w).
Proof. reflexivity. Qed.

Lemma DataFile_read_run {V} (f : DataFile.t V) d w :
  DataFile.read f d w
  = (match file_text w (DataFile.path f d) with
     | Some s => DataFile.reader_ f s
     | None => Raise AssertionError
     end, w).
Proof.
  unfold DataFile.read, bind. rewrite DataFile_exists_run.
  unfold file_at, file_text, io_.read_file, lift.
  destruct (node_at w (DataFile.path f d)) as [[|[s|j]]|] eqn:Hn; simpl;
    rewrite ?Hn; try done; by destruct (DataFile.reader_ f _).
Qed.

Lemma read_locator_run f w pth :
  (let* e := DataFile.exists_ f pth in
   if e then let* v := DataFile.read f pth in ret (Some v) else ret None) w
  = (match recorded f w pth with
     | Some (Ok v) => Ok (Some v)
     | Some (Raise e) => Raise e
     | None => Ok None
     end, w).
Proof.
  unfold bind at 1. rewrite DataFile_exists_run.
  unfold recorded, file_at, file_text.
  destruct (node_at w (DataFile.path f pth)) as [[|[s|j]]|] eqn:Hn; simpl;
    try done; unfold bind; rewrite DataFile_read_run; unfold file_text;
    rewrite Hn; by destruct (DataFile.reader_ f _).
Qed.

Lemma omap_id_fmap {A B} (g : A → option B) (l : list A) :
  omap id (g <$> l) = omap g l.
Proof.
  induction l as [|a l IH]; [done|]. cbn [fmap list_fmap omap list_omap].
  destruct (g a); simpl; by rewrite <- IH.
Qed.

Lemma read_locators_run f w pths :
  (∀ pth e, pth ∈ pths → recorded f w pth ≠ Some (Raise e)) →
  DataSeries.read_locators f pths w = (Ok (omap (recorded_value f w) pths), w).
Proof.
  intros Hok. unfold DataSeries.read_locators, bind at 1.
  assert (for_each (λ pth,
            let* e := DataFile.exists_ f pth in
            if e then let* v := DataFile.read f pth in ret (Some v)
            else ret None) pths w
          = (Ok (recorded_value f w <$> pths), w)) as ->.
  { induction pths as [|pth pths IH]; [done|].
    cbn [for_each]. unfold bind at 1. rewrite read_locator_run, fmap_cons.
    pose proof (Hok pth) as Hp. unfold recorded_value at 1.
    destruct (recorded f w pth) as [[v|e]|].
    - unfold bind at 1. rewrite IH; [done|].
      intros ?? Hin. apply Hok. by apply list_elem_of_further.
    - exfalso. eapply Hp; [apply list_elem_of_here|done].
    - unfold bind at 1. rewrite IH; [done|].
      intros ?? Hin. apply Hok. by apply list_elem_of_further. }
  unfold ret. by rewrite omap_id_fmap.
Qed.

(** ** The loop of [_os_path_split_all] ends *)

Lemma rstrip_sep_shorter p :
  posixpath.rstrip_sep p = p ∨
  String.length (posixpath.rstrip_sep p) < String.length p.
Proof.
  induction p as [|c p IH]; [by left|]. simpl.
  destruct (posixpath.is_empty (posixpath.rstrip_sep p) && Ascii.eqb c posixpath.sep).
  - right. simpl. lia.
  - destruct IH as [->|IH]; [by left|]. right. simpl. lia.
Qed.

Lemma split_head_shorter p :
  (posixpath.split p).1 ≠ p →
  String.length (posixpath.split p).1 < String.length p.
Proof.
  unfold posixpath.split. pose proof (rpartition_app p) as Happ.
  destruct (posixpath.rpartition p) as [h t]. simpl in Happ.
  assert (String.length h + String.length t = String.length p) as Hlen
    by (by rewrite <- append_length, Happ).
  assert (t = "" → h = p) as Hh by (intros ->; by rewrite append_nil_r in Happ).
  destruct (negb _ && negb _); simpl; intros Hne.
  - destruct (rstrip_sep_shorter h) as [E|E]; [|lia].
    rewrite E in *. destruct t; [by destruct Hne; apply Hh|]. simpl in Hlen. lia.
  - destruct t; [by destruct Hne; apply Hh|]. simpl in Hlen. lia.
Qed.

(** Any fuel above the length of the path gives the same parts: the bound
    used by [_os_path_split_all] is never reached. *)
Lemma split_all_loop_fuel fuel1 : ∀ fuel2 pth allparts,
  String.length pth < fuel1 → String.length pth < fuel2 →
  split_all_loop fuel1 pth allparts = split_all_loop fuel2 pth allparts.
Proof.
  induction fuel1 as [|fuel1 IH]; intros [|fuel2] pth allparts H1 H2; try lia.
  simpl. case_bool_decide as E1; [done|]. case_bool_decide as E2; [done|].
  pose proof (split_head_shorter pth E1). apply IH; lia.
Qed.

(** ** File names stay path segments *)

Lemma resolve_clean c p :
  posixpath.isabs c = true → Forall clean (resolve c p).
Proof. intros Hc. apply norm_comps_clean. by apply abs_form_isabs. Qed.

Lemma keeps_wf_ret {A} (a : A) : keeps_wf (ret a).
Proof. by intros w. Qed.

Lemma keeps_wf_lift {A} (r : res A) : keeps_wf (lift r).
Proof. by intros w. Qed.

Lemma keeps_wf_bind {A B} (m : M A) (k : A → M B) :
  keeps_cwd m → keeps_wf m → (∀ a, keeps_wf (k a)) → keeps_wf (bind m k).
Proof.
  intros Hc Hm Hk w Habs Hwf. unfold bind.
  specialize (Hc w). specialize (Hm w Habs Hwf).
  destruct (m w) as [[a|e] w1]; simpl in *; [|done].
  apply Hk; [by rewrite Hc|done].
Qed.

Lemma keeps_wf_makedirs p : keeps_wf (os.makedirs p).
Proof.
  intros w Habs Hwf. unfold os.makedirs.
  destruct (node_at w p); [done|]. destruct (existsb _ _); [done|]. simpl.
  pose proof (resolve_clean (cwd w) p Habs) as Hk.
  assert (Forall (Forall clean) (os.ancestors (resolve (cwd w) p) ++ [resolve (cwd w) p]))
    as Hall.
  { apply Forall_app. split; [|by repeat constructor].
    unfold os.ancestors. apply Forall_fmap, Forall_forall. intros n _.
    by apply Forall_take. }
  unfold wf_names. simpl.
  induction Hall as [|a l Ha Hl IH]; [done|]. simpl.
  by apply map_Forall_insert_2.
Qed.

Lemma keeps_wf_put_file p c : keeps_wf (put_file p c).
Proof.
  intros w Habs Hwf. unfold put_file.
  destruct (writable w p) as [k|] eqn:Hw; [|done]. simpl.
  apply writable_key in Hw as [-> _].
  apply map_Forall_insert_2; [by apply resolve_clean|done].
Qed.

Lemma keeps_wf_write {V} (f : DataFile.t V) v d : keeps_wf (DataFile.write f v d).
Proof.
  unfold DataFile.write.
  apply keeps_wf_bind; [by intros w|by intros w|intros e].
  apply keeps_wf_bind; [apply keeps_cwd_assert|by destruct e; intros w|intros _].
  apply keeps_wf_bind; [apply keeps_cwd_lift|apply keeps_wf_lift|intros s].
  apply keeps_wf_put_file.
Qed.

Lemma keeps_wf_create_here self locs : keeps_wf (DataSeries.create_here self locs).
Proof.
  unfold DataSeries.create_here.
  apply keeps_wf_bind.
  { intros w. rewrite exists_run. by destruct (DataSeries.path_in _ _ _). }
  { intros w ??. rewrite exists_run. by destruct (DataSeries.path_in _ _ _). }
  intros [|]; simpl; [apply keeps_wf_ret|].
  apply keeps_wf_bind; [by intros w|by intros w ??; rewrite path_run|intros p].
  apply keeps_wf_bind; [apply keeps_cwd_makedirs|apply keeps_wf_makedirs|intros _].
  destruct (DataSeries.loc_dfile self); [|apply keeps_wf_ret].
  apply keeps_wf_bind; [apply keeps_cwd_lift|apply keeps_wf_lift|intros l].
  apply keeps_wf_write.
Qed.

(** [create] keeps the file names of the world path segments. *)
Lemma keeps_wf_create self : ∀ locs, keeps_wf (DataSeries.create self locs).
Proof.
  induction self as [self Hr|self r Hr IH] using DataSeries_chain_ind;
    intros locs; rewrite create_unfold, Hr.
  - apply keeps_wf_create_here.
  - apply keeps_wf_bind; [apply keeps_cwd_lift|apply keeps_wf_lift|intros rl].
    apply keeps_wf_bind; [apply keeps_cwd_create|apply IH|intros _].
    apply keeps_wf_create_here.
Qed.

(** ** The prefixes of constructed series *)

Lemma all_sep_slashes_true n : posixpath.all_sep (posixpath.slashes n) = true.
Proof. induction n as [|n IH]; [done|]. simpl. by rewrite IH. Qed.

Lemma join_sep_tail comps :
  comps ≠ [] → Forall piece comps →
  posixpath.join_sep comps ≠ "" ∧
  posixpath.endswith_sep (posixpath.join_sep comps) = false.
Proof.
  induction comps as [|x [|y r] IH]; [done| |]; intros _ Hall;
    inversion Hall as [|?? [Hs Hne] Hr]; subst.
  - simpl. split; [done|]. by apply no_sep_endswith.
  - destruct IH as [IH1 IH2]; [done|done|].
    change (posixpath.join_sep (x :: y :: r))
      with (x +:+ "/" +:+ posixpath.join_sep (y :: r)).
    split; [by destruct x|].
    by rewrite <- append_assoc, endswith_sep_append.
Qed.

Lemma clean_piece s : clean s → piece s.
Proof. by intros (? & ? & _). Qed.

Lemma abspath_tidy c p :
  posixpath.isabs c = true → tidy (posixpath.abspath c p).
Proof.
  intros Hc. unfold posixpath.abspath.
  pose proof (abs_form_isabs c p Hc) as Habs.
  rewrite normpath_abs by done.
  pose proof (norm_comps_clean _ Habs) as Hcl.
  destruct (posixpath.norm_comps _) as [|x r] eqn:E.
  - left. by rewrite all_sep_append, all_sep_slashes_true.
  - right. destruct (join_sep_tail (x :: r)) as [Hne He]; [done| |].
    + eapply Forall_impl; [done|apply clean_piece].
    + by rewrite endswith_sep_append.
Qed.

Lemma join_pieces r : ∀ a,
  posixpath.isabs a = false → a ≠ "" → posixpath.endswith_sep a = false →
  Forall piece r →
  posixpath.isabs (posixpath.join a r) = false ∧ posixpath.join a r ≠ "" ∧
  posixpath.endswith_sep (posixpath.join a r) = false.
Proof.
  induction r as [|y r IH]; intros a Ha Hne He Hall; [done|].
  inversion Hall as [|?? [Hs Hy] Hr]; subst. rewrite join_cons.
  assert (posixpath.isabs y = false) as Hrel.
  { destruct y as [|c y]; [done|]. simpl in *.
    apply andb_true_iff in Hs as [Hc _]. by apply negb_true_iff in Hc. }
  apply IH; [| | |done]; rewrite join2_relative by done;
    (destruct a as [|c a]; [done|]); rewrite He; cbn [posixpath.is_empty orb].
  - by rewrite append_cons.
  - by rewrite append_cons.
  - rewrite <- append_assoc, endswith_sep_append by done.
    by apply no_sep_endswith.
Qed.

Lemma abs_parts_pieces c p : Forall piece (posixpath.abs_parts c p).
Proof.
  unfold posixpath.abs_parts. apply Forall_forall.
  intros x [Hne Hin]%list_elem_of_filter. split; [|done].
  pose proof (split_sep_no_sep (posixpath.abspath c p)) as Hall.
  rewrite Forall_forall in Hall. by apply Hall.
Qed.

(** A path that [_path_is_relative] accepts. *)
Lemma relpath_shape c pth :
  _path_is_relative c pth = Ok true →
  posixpath.isabs pth = false ∧ pth ≠ "" ∧ posixpath.endswith_sep pth = false.
Proof.
  unfold _path_is_relative, posixpath.relpath.
  destruct (posixpath.is_empty pth) eqn:Hemp; [done|].
  set (rel := replicate _ ".." ++ drop _ _).
  assert (Forall piece rel) as Hall.
  { apply Forall_app. split.
    - apply Forall_replicate. by split.
    - apply Forall_drop, abs_parts_pieces. }
  destruct rel as [|x r]; simpl.
  - intros [= E]. apply bool_decide_eq_true in E. by subst.
  - intros [= E]. apply bool_decide_eq_true in E.
    inversion Hall as [|?? [Hs Hx] Hr]; subst.
    destruct (join_pieces r x) as (H1 & H2 & H3); try done.
    + destruct x as [|c' x]; [done|]. simpl in *.
      apply andb_true_iff in Hs as [Hc _]. by apply negb_true_iff in Hc.
    + by apply no_sep_endswith.
Qed.

Lemma path_tail_shape c self prefix locs p :
  posixpath.isabs prefix = true →
  DataSeries.path_tail c self prefix locs = Ok p →
  posixpath.isabs p = true ∧ tidy p.
Proof.
  intros Habs (_ & Hrel & _ & ->)%path_tail_ok.
  apply relpath_shape in Hrel as (Hr & Hne & He).
  rewrite join2_relative by done. split.
  - destruct (_ || _); by apply isabs_append.
  - right. destruct (_ || _).
    + by rewrite endswith_sep_append.
    + by rewrite <- append_assoc, endswith_sep_append.
Qed.

(** The paths of an anchored series are absolute and in normal form. *)
Lemma path_in_shape c self : ∀ locs p,
  anchored self → DataSeries.path_in c self locs = Ok p →
  posixpath.isabs p = true ∧ tidy p.
Proof.
  induction self as [self Hr|self r Hr IH] using DataSeries_chain_ind;
    intros locs p Hanc; rewrite path_in_unfold, Hr.
  - destruct self; simpl in *. subst. destruct Hanc as [Ha _].
    by apply path_tail_shape.
  - assert (anchored r) as Hanc' by (destruct self; simpl in *; by subst).
    destruct (DataSeries._root_locators self locs) as [rl|]; [|done].
    destruct (DataSeries._self_locators self locs) as [sl|]; [|done]. simpl.
    destruct (DataSeries.path_in c r rl) as [pre|] eqn:Hpre; [|done]. simpl.
    apply path_tail_shape. by destruct (IH _ _ Hanc' Hpre).
Qed.

Lemma resolved_prefix_shape c self root_locs P :
  anchored self → resolved_prefix c self root_locs = Ok P →
  posixpath.isabs P = true ∧ tidy P.
Proof.
  unfold resolved_prefix. intros Hanc.
  destruct self as [pre mp n d lf [r|] rm]; simpl in *.
  - by apply path_in_shape.
  - by intros [= <-].
Qed.

(** A series that the constructor returns without a root is anchored. *)
Lemma init_anchored prefix map_ nlocs depth loc_dfile removable w self :
  posixpath.isabs (cwd w) = true →
  (DataSeries.__init__ prefix map_ nlocs depth loc_dfile None removable w).1
    = Ok self →
  anchored self.
Proof.
  intros Hc. unfold DataSeries.__init__, bind, os.isdir, assert_, getcwd, ret.
  destruct (dir_at w prefix); simpl; [|done]. intros [= <-]. simpl.
  split; [by apply abspath_isabs|by apply abspath_tidy].
Qed.





(** ** Enumeration *)

(** C5, as the code has it. For a [DataSeries] of positive arity with a
    locator file, anchored at an absolute prefix, a root locator of the
    length of the root chain, and a resolved prefix without [glob]
    metacharacters: [existing] goes through the directories that lie [depth]
    segments below the prefix, none of the segments starting with a dot,
    each once, in the order of their path strings; it returns, for each that
    has a locator file, the locators that file decodes to, and has nothing
    for the others; the root locator is put in front unless [relative] is
    set. File names are path segments, and decoding is assumed not to
    raise. *)
Theorem C5_existing_lists_visible_directories (self : DataSeries.t)
    (f : DataFile.t (list loc)) (root_locs : list loc) (relative : bool)
    (w : World) (P : string) (fuel : nat) :
  DataSeries.nlocs self ≠ 0 →
  DataSeries.loc_dfile self = Some f →
  length root_locs = DataSeries.root_locator_count self →
  anchored self →
  resolved_prefix (cwd w) self root_locs = Ok P →
  glob.has_magic P = false →
  wf_names w →
  ∃ pths,
    DataSeries._existing_paths self root_locs w = (Ok pths, w) ∧
    StronglySorted String.le pths ∧ NoDup pths ∧
    (∀ x, x ∈ pths ↔ listed_dir w P (DataSeries.depth self) x) ∧
    ((∀ pth e, pth ∈ pths → recorded f w pth ≠ Some (Raise e)) →
     DataSeries.existing (S fuel) self root_locs relative w
     = (Ok (if relative then omap (recorded_value f w) pths
            else (λ l, root_locs ++ l) <$> omap (recorded_value f w) pths), w)).
Proof.
  intros Hn Hf Hlen Hanc Hpre Hm Hwf.
  destruct (resolved_prefix_shape _ _ _ _ Hanc Hpre) as [HP Ht].
  destruct (existing_paths_listed w P HP Ht Hm Hwf self root_locs Hpre)
    as (pths & Hrun & Hsorted & Hnd & Hin).
  exists pths. split; [done|]. split; [done|]. split; [done|]. split; [done|].
  intros Hok. cbn [DataSeries.existing].
  rewrite bool_decide_false, Hf by done.
  rewrite bool_decide_false by lia.
  rewrite bool_decide_true by done.
  unfold bind, assert_, ret. rewrite Hrun, (read_locators_run f w pths Hok).
  by destruct relative.
Qed.

Lemma C5_counterexample :
  dir_at Scenario.w_hidden "/P/.x" = true ∧
  (DataFile.read Scenario.locator_file "/P/.x" Scenario.w_hidden).1 = Ok [".x"] ∧
  dir_at Scenario.w_hidden "/P/a" = true ∧
  (DataSeries.existing 1 Scenario.series [] false Scenario.w_hidden).1
    = Ok [["a"]].
Proof. by vm_compute. Qed.

Lemma C5_witness :
  ∃ pths,
    DataSeries._existing_paths Scenario.series [] Scenario.w_bac
      = (Ok pths, Scenario.w_bac) ∧
    StronglySorted String.le pths ∧ NoDup pths ∧
    (∀ x, x ∈ pths ↔
          listed_dir Scenario.w_bac "/P" (DataSeries.depth Scenario.series) x) ∧
    ((∀ pth e, pth ∈ pths →
        recorded Scenario.locator_file Scenario.w_bac pth ≠ Some (Raise e)) →
     DataSeries.existing 1 Scenario.series [] false Scenario.w_bac
     = (Ok (if false
            then omap (recorded_value Scenario.locator_file Scenario.w_bac) pths
            else (λ l, [] ++ l)
                 <$> omap (recorded_value Scenario.locator_file Scenario.w_bac) pths),
        Scenario.w_bac)).
Proof.
  apply (C5_existing_lists_visible_directories Scenario.series
           Scenario.locator_file [] false Scenario.w_bac "/P" 0).
  - done.
  - reflexivity.
  - reflexivity.
  - split; [reflexivity|right; reflexivity].
  - reflexivity.
  - reflexivity.
  - apply (bool_decide_unpack _). vm_compute. exact I.
Defined.

(** The scenario of the specification: created in the order b, a, c, the
    locators come back in the order a, b, c. *)
Example existing_after_b_a_c :
  (DataSeries.existing 1 Scenario.series [] false Scenario.w_bac).1
    = Ok [["a"]; ["b"]; ["c"]] ∧
  (DataSeries.existing 1 Scenario.series [] true Scenario.w_bac).1
    = Ok [["a"]; ["b"]; ["c"]] ∧
  (DataSeries._existing_paths Scenario.series [] Scenario.w_bac).1
    = Ok ["/P/a"; "/P/b"; "/P/c"].
Proof. by vm_compute. Qed.

(** The same with a root: the child lists what lies under the directory of
    the root locator it is given, and puts that locator in front. *)
Example existing_under_a_root :
  let w := (DataSeries.create Scenario.child1 ["a"; "b"; "d"]
              (DataSeries.create Scenario.child1 ["a"; "b"; "c"] Scenario.w0).2).2 in
  (DataSeries.existing 1 Scenario.child1 ["a"; "b"] false w).1
    = Ok [["a"; "b"; "c"]; ["a"; "b"; "d"]] ∧
  (DataSeries.existing 1 Scenario.child1 ["a"; "b"] true w).1
    = Ok [["c"]; ["d"]] ∧
  (DataSeries.existing 1 Scenario.child1 ["a"; "x"] true w).1 = Ok [] ∧
  (DataSeries.existing 2 Scenario.child1 [] false w).1
    = Ok [["a"; "b"; "c"]; ["a"; "b"; "d"]].
Proof. by vm_compute. Qed.

(** ** Examples of the path model *)

Example split_ex1 : posixpath.split "/usr/lib" = ("/usr", "lib").
Proof. reflexivity. Qed.
Example split_ex2 : posixpath.split "/" = ("/", "").
Proof. reflexivity. Qed.
Example split_ex3 : posixpath.split "a//b" = ("a", "b").
Proof. reflexivity. Qed.
Example split_ex4 : posixpath.split "a/" = ("a", "").
Proof. reflexivity. Qed.
Example norm_ex1 : posixpath.normpath "/a/./b/../c//" = "/a/c".
Proof. vm_compute. reflexivity. Qed.
Example norm_ex2 : posixpath.normpath "../a/.." = "..".
Proof. vm_compute. reflexivity. Qed.
Example rel_ex1 : posixpath.relpath "/home/u" "a/b" = Ok "a/b".
Proof. vm_compute. reflexivity. Qed.
Example rel_ex2 : posixpath.relpath "/home/u" "/home/x" = Ok "../x".
Proof. vm_compute. reflexivity. Qed.
Example rel_ex3 : posixpath.relpath "/home/u" "a/../b" = Ok "b".
Proof. vm_compute. reflexivity. Qed.

(** * Further properties *)

(** ** File names ([name.py]) *)

Lemma endswith_unfold s ext :
  endswith s ext =
  bool_decide (s = ext)
  || match s with
     | EmptyString => false
     | String _ s' => endswith s' ext
     end.
Proof. by destruct s. Qed.

Lemma endswith_refl s : endswith s s = true.
Proof. rewrite endswith_unfold. by rewrite bool_decide_eq_true_2. Qed.

Lemma endswith_spec s ext : endswith s ext = true ↔ ∃ p, s = p +:+ ext.
Proof.
  split.
  - induction s as [|c s IH]; rewrite endswith_unfold; intros H.
    + rewrite orb_false_r in H. apply bool_decide_eq_true_1 in H. by exists "".
    + apply orb_true_iff in H as [H|H].
      * apply bool_decide_eq_true_1 in H. by exists "".
      * destruct (IH H) as [p ->]. by exists (String c p).
  - intros [p ->]. induction p as [|c p IH].
    + rewrite append_nil_l. apply endswith_refl.
    + rewrite append_cons, endswith_unfold, IH. apply orb_true_r.
Qed.

Lemma endswith_append s ext : endswith (s +:+ ext) ext = true.
Proof. apply endswith_spec. by exists s. Qed.

Lemma endswith_trans s e1 e2 :
  endswith s e1 = true → endswith e1 e2 = true → endswith s e2 = true.
Proof.
  rewrite !endswith_spec. intros [p ->] [q ->]. exists (p +:+ q).
  by rewrite append_assoc.
Qed.

Lemma add_extension_ends n ext : endswith (name._add_extension n ext) ext = true.
Proof.
  unfold name._add_extension. destruct (endswith n ext) eqn:E; simpl; [done|].
  apply endswith_append.
Qed.

Lemma add_extension_keeps n ext :
  endswith n ext = true → name._add_extension n ext = n.
Proof. unfold name._add_extension. by intros ->. Qed.

(** X1. [_add_extension] adds the extension at most once: its result always
    ends with the extension, applying it again changes nothing, and the name
    comes back unchanged exactly when it already ended with the extension. *)
Theorem add_extension_once (file_name ext : string) :
  endswith (name._add_extension file_name ext) ext = true ∧
  name._add_extension (name._add_extension file_name ext) ext
  = name._add_extension file_name ext ∧
  (name._add_extension file_name ext = file_name ↔
   (endswith file_name ext = true)).
Proof.
  split; [apply add_extension_ends|]. split.
  - apply add_extension_keeps, add_extension_ends.
  - split; [|apply add_extension_keeps].
    intros H. rewrite <- H. apply add_extension_ends.
Qed.

Lemma add_extension_once_witness :
  endswith (name.hessian "freq") name.Extension.HESSIAN = true ∧
  name.hessian (name.hessian "freq") = name.hessian "freq" ∧
  (name.hessian "freq.hess" = "freq.hess" ↔
   endswith "freq.hess" name.Extension.HESSIAN = true).
Proof.
  split; [|split].
  - apply (add_extension_once "freq" name.Extension.HESSIAN).
  - apply (add_extension_once "freq" name.Extension.HESSIAN).
  - apply (add_extension_once "freq.hess" name.Extension.HESSIAN).
Defined.

(** X2. When one extension ends with another (as [.t.xyz] ends with [.xyz],
    and [.g.yaml] and [.t.yaml] with [.yaml]), the namer of the shorter one
    leaves every name made by the namer of the longer one as it is. *)
Theorem add_extension_absorbs (file_name ext1 ext2 : string) :
  endswith ext1 ext2 = true →
  name._add_extension (name._add_extension file_name ext1) ext2
  = name._add_extension file_name ext1.
Proof.
  intros H. apply add_extension_keeps.
  eapply endswith_trans; [apply add_extension_ends|done].
Qed.

Lemma add_extension_absorbs_witness :
  endswith name.Extension.TRAJECTORY name.Extension.GEOMETRY = true ∧
  name.geometry (name.trajectory "scan") = name.trajectory "scan".
Proof.
  split; [reflexivity|].
  apply (add_extension_absorbs "scan" name.Extension.TRAJECTORY
           name.Extension.GEOMETRY).
  reflexivity.
Defined.

Lemma append_inj_l a b c : a +:+ b = a +:+ c → b = c.
Proof. induction a; simpl; [done|]. intros [=]. auto. Qed.

Lemma append_self_nil a b : a +:+ b = a → b = "".
Proof. intros H. apply (append_inj_l a). by rewrite append_nil_r. Qed.

Lemma endswith_length s ext :
  endswith s ext = true → (String.length ext <= String.length s)%nat.
Proof. rewrite endswith_spec. intros [p ->]. rewrite append_length. lia. Qed.

Lemma endswith_common s e1 e2 :
  endswith s e1 = true → endswith s e2 = true →
  endswith e1 e2 = true ∨ endswith e2 e1 = true.
Proof.
  induction s as [|c s IH]; rewrite (endswith_unfold _ e1), (endswith_unfold _ e2).
  - rewrite !orb_false_r. intros H1%bool_decide_eq_true_1 H2%bool_decide_eq_true_1.
    subst. left. apply endswith_refl.
  - intros [H1%bool_decide_eq_true_1|H1]%orb_true_iff
           [H2%bool_decide_eq_true_1|H2]%orb_true_iff.
    + subst. left. apply endswith_refl.
    + subst e1. left. rewrite endswith_unfold, H2. apply orb_true_r.
    + subst e2. right. rewrite endswith_unfold, H1. apply orb_true_r.
    + auto.
Qed.

(** X3. Two extensions neither of which ends with the other give different
    names for every file name, so two such fields of one prefix never share
    a name. *)
Theorem add_extension_distinct (file_name ext1 ext2 : string) :
  endswith ext1 ext2 = false → endswith ext2 ext1 = false →
  name._add_extension file_name ext1 ≠ name._add_extension file_name ext2.
Proof.
  intros H12 H21 H.
  assert (endswith (name._add_extension file_name ext1) ext2 = true) as H2.
  { rewrite H. apply add_extension_ends. }
  destruct (endswith_common _ _ _ (add_extension_ends file_name ext1) H2)
    as [E|E]; congruence.
Qed.

Lemma add_extension_distinct_witness :
  endswith name.Extension.ENERGY name.Extension.GEOMETRY = false ∧
  name.energy "sp" ≠ name.geometry "sp".
Proof.
  split; [reflexivity|].
  apply (add_extension_distinct "sp" name.Extension.ENERGY
           name.Extension.GEOMETRY); reflexivity.
Defined.

(** ** Locators of the wrong length *)

Lemma path_in_mismatch c self : ∀ locs : list loc,
  length locs ≠ DataSeries.root_locator_count self + DataSeries.nlocs self →
  DataSeries.path_in c self locs = Raise AssertionError.
Proof.
  induction self as [self Hroot|self r Hroot IH] using DataSeries_chain_ind;
    intros locs Hlen; rewrite path_in_unfold, Hroot;
    rewrite root_locator_count_unfold, Hroot in Hlen.
  - unfold DataSeries.path_tail.
    rewrite bool_decide_eq_false_2; [done|]. simpl in Hlen. lia.
  - unfold DataSeries._root_locators, DataSeries._self_locators.
    destruct (bool_decide (DataSeries.nlocs self <= length locs)) eqn:E; [|done].
    apply bool_decide_eq_true_1 in E. simpl.
    rewrite IH; [done|]. rewrite length_take. lia.
Qed.

Lemma create_here_raises self locs w e :
  DataSeries.path_in (cwd w) self locs = Raise e →
  DataSeries.create_here self locs w = (Raise e, w).
Proof.
  intros H. unfold DataSeries.create_here, bind. by rewrite exists_run, H.
Qed.

Lemma create_mismatch self : ∀ (locs : list loc) w,
  length locs ≠ DataSeries.root_locator_count self + DataSeries.nlocs self →
  DataSeries.create self locs w = (Raise AssertionError, w).
Proof.
  induction self as [self Hroot|self r Hroot IH] using DataSeries_chain_ind;
    intros locs w Hlen; rewrite create_unfold, Hroot.
  - by apply create_here_raises, path_in_mismatch.
  - rewrite root_locator_count_unfold, Hroot in Hlen.
    unfold bind, lift, DataSeries._root_locators.
    destruct (bool_decide (DataSeries.nlocs self <= length locs)) eqn:E; [|done].
    apply bool_decide_eq_true_1 in E.
    rewrite IH; [done|]. rewrite length_take. lia.
Qed.

(** X4. A locator whose length is not the cumulative arity of the chain (the
    arities of all roots plus the series' own) is refused with an
    [AssertionError] by [path], [exists] and [create] alike, and [create]
    has made nothing by then: the world is the one it started from. *)
Theorem wrong_length_is_refused (self : DataSeries.t) (locs : list loc)
    (w : World) :
  length locs ≠ DataSeries.root_locator_count self + DataSeries.nlocs self →
  DataSeries.path self locs w = (Raise AssertionError, w) ∧
  DataSeries.exists_ self locs w = (Raise AssertionError, w) ∧
  DataSeries.create self locs w = (Raise AssertionError, w).
Proof.
  intros H. rewrite path_run, exists_run, (path_in_mismatch _ _ _ H).
  by rewrite create_mismatch.
Qed.

Lemma wrong_length_is_refused_witness :
  DataSeries.path Scenario.child1 ["a"; "b"] Scenario.w0
    = (Raise AssertionError, Scenario.w0) ∧
  DataSeries.exists_ Scenario.child1 ["a"; "b"] Scenario.w0
    = (Raise AssertionError, Scenario.w0) ∧
  DataSeries.create Scenario.child1 ["a"; "b"] Scenario.w0
    = (Raise AssertionError, Scenario.w0).
Proof.
  apply (wrong_length_is_refused Scenario.child1 ["a"; "b"] Scenario.w0).
  simpl. lia.
Defined.

(** ** The parts of a path *)

Lemma split_all_loop_length fuel : ∀ pth acc,
  (length acc <= length (split_all_loop fuel pth acc))%nat.
Proof.
  induction fuel as [|fuel IH]; intros pth acc; simpl; [lia|].
  repeat case_bool_decide; simpl; try lia.
  etrans; [|apply IH]. simpl. lia.
Qed.

Lemma split_all_nonempty pth : _os_path_split_all pth ≠ [].
Proof.
  unfold _os_path_split_all. simpl.
  repeat case_bool_decide; try done.
  intros Hnil.
  pose proof (split_all_loop_length (String.length pth) (posixpath.split pth).1
                [(posixpath.split pth).2]) as L.
  rewrite Hnil in L. simpl in L. lia.
Qed.

(** X5. [_os_path_split_all] never returns an empty list, so no path has
    depth 0: a series declared with [depth = 0] has no locator for which
    [path] or [exists] returns. *)
Theorem depth_zero_has_no_path (self : DataSeries.t) (locs : list loc)
    (w : World) :
  DataSeries.depth self = 0 →
  (∀ pth, _path_has_depth pth (DataSeries.depth self) = false) ∧
  (∃ e, DataSeries.path self locs w = (Raise e, w)) ∧
  (∃ e, DataSeries.exists_ self locs w = (Raise e, w)).
Proof.
  intros H0.
  assert (∀ pth, _path_has_depth pth (DataSeries.depth self) = false) as Hd.
  { intros pth. unfold _path_has_depth. apply bool_decide_eq_false_2.
    rewrite H0. intros E%length_zero_iff_nil.
    by apply (split_all_nonempty pth). }
  split; [done|].
  destruct (path_in_bad (cwd w) self locs) as [e He].
  { right. apply Hd. }
  rewrite path_run, exists_run, He. eauto.
Qed.

Lemma depth_zero_has_no_path_witness :
  (∀ pth, _path_has_depth pth (DataSeries.depth Cases.flat) = false) ∧
  (∃ e, DataSeries.path Cases.flat [] Scenario.w0 = (Raise e, Scenario.w0)) ∧
  (∃ e, DataSeries.exists_ Cases.flat [] Scenario.w0 = (Raise e, Scenario.w0)).
Proof.
  apply (depth_zero_has_no_path Cases.flat [] Scenario.w0). reflexivity.
Defined.

(** ** Mappings that join plain segments *)

Lemma piece_relative s : piece s → posixpath.isabs s = false.
Proof.
  intros [H1 H2]. destruct s as [|c s]; [done|]. simpl in *.
  apply andb_true_iff in H1 as [H1 _]. by apply negb_true_iff in H1.
Qed.

Lemma split_join_piece q name :
  q ≠ "" → posixpath.endswith_sep q = false → no_sep name = true →
  posixpath.split (q +:+ "/" +:+ name) = (q, name).
Proof.
  intros Hq He Hn. unfold posixpath.split.
  rewrite <- append_assoc, rpartition_append, rpartition_ends by done.
  cbn [fst snd]. rewrite append_nil_l.
  rewrite append_is_empty, all_sep_append.
  assert (posixpath.is_empty q = false) as -> by by destruct q.
  assert (posixpath.all_sep q = false) as ->.
  { destruct (posixpath.all_sep q) eqn:E; [|done].
    by rewrite all_sep_endswith in He. }
  cbn [andb negb]. by rewrite rstrip_sep_ends.
Qed.

Lemma join_sep_snoc l name :
  l ≠ [] →
  posixpath.join_sep (l ++ [name]) = posixpath.join_sep l +:+ "/" +:+ name.
Proof.
  induction l as [|x l IH]; [done|]. intros _.
  destruct l as [|y l]; [done|].
  change (posixpath.join_sep ((x :: y :: l) ++ [name]))
    with (x +:+ "/" +:+ posixpath.join_sep ((y :: l) ++ [name])).
  rewrite IH by done.
  change (posixpath.join_sep (x :: y :: l))
    with (x +:+ "/" +:+ posixpath.join_sep (y :: l)).
  by rewrite !append_assoc.
Qed.

Lemma split_all_loop_S fuel pth allparts :
  split_all_loop (S fuel) pth allparts =
  let parts := posixpath.split pth in
  if bool_decide (parts.1 = pth) then parts.1 :: allparts
  else if bool_decide (parts.2 = pth) then parts.2 :: allparts
  else split_all_loop fuel parts.1 (parts.2 :: allparts).
Proof. done. Qed.

Lemma append_longer a b : b ≠ "" → a ≠ a +:+ b ∧ b ≠ a +:+ b → a +:+ b ≠ a.
Proof. intros Hb _ H. by apply append_self_nil in H. Qed.

Lemma split_all_loop_join l : ∀ fuel acc,
  l ≠ [] → Forall piece l →
  String.length (posixpath.join_sep l) < fuel →
  split_all_loop fuel (posixpath.join_sep l) acc = l ++ acc.
Proof.
  induction l as [|name l IH] using rev_ind; [done|].
  intros fuel acc _ Hp Hf. apply Forall_app in Hp as [Hl Hn].
  apply Forall_singleton in Hn as [Hn1 Hn2].
  destruct fuel as [|fuel]; [lia|]. rewrite split_all_loop_S. cbv zeta.
  destruct (decide (l = [])) as [->|Hne].
  - change (posixpath.join_sep ([] ++ [name])) with name.
    unfold posixpath.split. rewrite rpartition_no_sep by done. cbn [fst snd].
    cbn [posixpath.is_empty negb andb].
    rewrite bool_decide_eq_false_2 by done.
    by rewrite bool_decide_eq_true_2.
  - destruct (join_sep_tail l Hne Hl) as [Hq1 Hq2].
    rewrite join_sep_snoc in * by done.
    rewrite split_join_piece by done. cbn [fst snd].
    rewrite bool_decide_eq_false_2.
    2:{ intros E. symmetry in E. by apply append_self_nil in E. }
    rewrite bool_decide_eq_false_2.
    2:{ intros E. apply (f_equal String.length) in E.
        rewrite !append_length in E. destruct (posixpath.join_sep l); [done|].
        simpl in E. lia. }
    rewrite IH; [by rewrite <- app_assoc|done|done|].
    rewrite !append_length in Hf. simpl in Hf. lia.
Qed.

Lemma split_all_join l :
  l ≠ [] → Forall piece l → _os_path_split_all (posixpath.join_sep l) = l.
Proof.
  intros H1 H2. unfold _os_path_split_all.
  rewrite split_all_loop_join by (done || lia). apply app_nil_r.
Qed.

Lemma norm_comps_unfold p :
  posixpath.norm_comps p
  = fold_left (posixpath.norm_step (posixpath.initial_slashes p))
      (posixpath.split_sep p) [].
Proof. done. Qed.

Lemma endswith_sep_snoc c :
  posixpath.endswith_sep c = true → ∃ c', c = c' +:+ "/".
Proof.
  induction c as [|a c IH]; [done|]. destruct c as [|b c].
  - simpl. intros H%Ascii.eqb_eq. subst. by exists "".
  - intros H. rewrite endswith_sep_cons in H by done.
    destruct (IH H) as [c' ->]. by exists (String a c').
Qed.

(** The components of a relative path below an absolute directory: the
    rounds of [normpath] go on from the components of the directory. *)
Lemma norm_comps_below c p :
  posixpath.isabs c = true → posixpath.isabs p = false →
  posixpath.norm_comps (posixpath.join2 c p)
  = fold_left (posixpath.norm_step 1) (posixpath.split_sep p)
      (posixpath.norm_comps c).
Proof.
  intros Hc Hp.
  assert (posixpath.isabs (posixpath.join2 c p) = true) as Hj.
  { rewrite join2_relative by done.
    destruct (_ || _); by apply isabs_append. }
  rewrite !norm_comps_unfold.
  rewrite (norm_fold_nonzero _ 1 (posixpath.split_sep (posixpath.join2 c p)))
    by (try apply initial_slashes_isabs; done).
  rewrite (norm_fold_nonzero _ 1 (posixpath.split_sep c))
    by (try apply initial_slashes_isabs; done).
  rewrite join2_relative by done.
  assert (posixpath.is_empty c = false) as -> by by destruct c.
  cbn [orb]. destruct (posixpath.endswith_sep c) eqn:E.
  - destruct (endswith_sep_snoc c E) as [c' ->].
    rewrite append_assoc, split_sep_append_sep, fold_left_app.
    f_equal. rewrite <- (append_nil_r (c' +:+ "/")).
    by rewrite append_assoc, split_sep_append_sep, fold_left_app.
  - by rewrite split_sep_append_sep, fold_left_app.
Qed.

Lemma filter_nonempty_clean k comps :
  Forall clean comps →
  filter (λ x : string, x ≠ "") (replicate k "" ++ comps) = comps.
Proof.
  intros H. rewrite filter_app.
  assert (filter (λ x : string, x ≠ "") (replicate k "") = []) as ->.
  { induction k as [|k IH]; [done|]. simpl. by rewrite filter_cons_False by naive_solver. }
  simpl. induction H as [|x l [_ [Hx _]] _ IH]; [done|].
  by rewrite filter_cons_True, IH.
Qed.

Lemma abs_parts_resolve c p :
  posixpath.isabs c = true → posixpath.abs_parts c p = resolve c p.
Proof.
  intros Hc. unfold posixpath.abs_parts, posixpath.abspath, resolve.
  pose proof (abs_form_isabs c p Hc) as Ha.
  set (q := if posixpath.isabs p then p else posixpath.join2 c p) in *.
  rewrite normpath_abs by done.
  pose proof (norm_comps_clean q Ha) as Hclean.
  rewrite split_sep_slashes.
  destruct (posixpath.norm_comps q) as [|x l] eqn:E.
  - simpl. rewrite filter_app.
    rewrite <- (app_nil_r (replicate _ _)) at 1.
    rewrite filter_nonempty_clean by done.
    by rewrite filter_cons_False by naive_solver.
  - rewrite split_sep_join_sep; [|done|].
    + by apply filter_nonempty_clean.
    + eapply Forall_impl; [exact Hclean|]. by intros ? [? _].
Qed.

Lemma common_prefix_length_app (a b : list string) :
  posixpath.common_prefix_length a (a ++ b) = length a.
Proof.
  induction a as [|x a IH]; simpl; [by destruct b|].
  by rewrite bool_decide_eq_true_2, IH.
Qed.

Lemma join_as_join_sep r : ∀ a,
  a ≠ "" → posixpath.endswith_sep a = false → Forall piece r →
  posixpath.join a r = posixpath.join_sep (a :: r).
Proof.
  induction r as [|y r IH]; intros a Ha He Hr; [done|].
  apply Forall_cons in Hr as [Hy Hr].
  rewrite join_cons, join2_relative by by apply piece_relative.
  assert (posixpath.is_empty a = false) as -> by by destruct a.
  rewrite He. cbn [orb].
  destruct Hy as [Hy1 Hy2].
  rewrite IH; [|by destruct a| |done].
  2:{ rewrite !endswith_sep_append; [by apply no_sep_endswith|done|].
      by destruct y. }
  change (posixpath.join_sep (a :: y :: r))
    with (a +:+ "/" +:+ posixpath.join_sep (y :: r)).
  destruct r as [|z r]; [done|].
  change (posixpath.join_sep ((a +:+ "/" +:+ y) :: z :: r))
    with ((a +:+ "/" +:+ y) +:+ "/" +:+ posixpath.join_sep (z :: r)).
  change (posixpath.join_sep (y :: z :: r))
    with (y +:+ "/" +:+ posixpath.join_sep (z :: r)).
  by rewrite !append_assoc.
Qed.

Lemma clean_pieces names : Forall clean names → Forall piece names.
Proof.
  intros H. eapply Forall_impl; [exact H|]. intros. by apply clean_piece.
Qed.

Lemma relpath_join_sep c names :
  posixpath.isabs c = true → names ≠ [] → Forall clean names →
  posixpath.relpath c (posixpath.join_sep names) = Ok (posixpath.join_sep names).
Proof.
  intros Hc Hne Hcl. pose proof (clean_pieces _ Hcl) as Hp.
  destruct (join_sep_tail names Hne Hp) as [Hj1 Hj2].
  assert (posixpath.isabs (posixpath.join_sep names) = false) as Hrel.
  { destruct names as [|x r]; [done|]. apply Forall_cons in Hp as [Hx _].
    apply piece_relative in Hx. destruct r; [done|].
    change (posixpath.join_sep (x :: s :: r))
      with (x +:+ "/" +:+ posixpath.join_sep (s :: r)).
    apply Forall_cons in Hcl as [[_ [Hx0 _]] _]. by destruct x. }
  unfold posixpath.relpath.
  assert (posixpath.is_empty (posixpath.join_sep names) = false) as ->
    by by destruct (posixpath.join_sep names).
  rewrite !abs_parts_resolve by done. unfold resolve. rewrite Hrel.
  change (posixpath.isabs ".") with false. cbv iota.
  rewrite !norm_comps_below by done.
  change (posixpath.split_sep ".") with ["."]. cbn [fold_left].
  assert (∀ acc, posixpath.norm_step 1 acc "." = acc) as -> by done.
  rewrite split_sep_join_sep.
  2: done.
  2:{ eapply Forall_impl; [exact Hp|]. by intros ? [? _]. }
  rewrite norm_fold_keep by done. cbv zeta.
  rewrite common_prefix_length_app, Nat.sub_diag, drop_app_length.
  cbn [replicate app].
  destruct names as [|x r]; [done|].
  apply Forall_cons in Hp as [[Hx1 Hx2] Hr].
  rewrite join_as_join_sep; [done|done| |done].
  by apply no_sep_endswith.
Qed.

(** X6. A mapped path made of plain segments joined by [/] (none empty, [.]
    or [..], none holding a separator) passes both checks of [path] in any
    absolute working directory: [_os_path_split_all] gives the segments
    back, [_path_is_relative] holds, and [_path_has_depth] holds exactly
    for the number of segments. *)
Theorem plain_segments_pass_the_checks (c : string) (names : list string) :
  posixpath.isabs c = true → names ≠ [] → Forall clean names →
  _os_path_split_all (posixpath.join_sep names) = names ∧
  _path_is_relative c (posixpath.join_sep names) = Ok true ∧
  ∀ depth, _path_has_depth (posixpath.join_sep names) depth
           = bool_decide (length names = depth).
Proof.
  intros Hc Hne Hcl. pose proof (clean_pieces _ Hcl) as Hp.
  split; [|split].
  - by apply split_all_join.
  - unfold _path_is_relative. rewrite relpath_join_sep by done. simpl.
    by rewrite bool_decide_eq_true_2.
  - intros depth. unfold _path_has_depth. by rewrite split_all_join.
Qed.

Lemma plain_segments_pass_the_checks_witness :
  _os_path_split_all (posixpath.join_sep ["a"; "b"; "c"]) = ["a"; "b"; "c"] ∧
  _path_is_relative "/home/u" (posixpath.join_sep ["a"; "b"; "c"]) = Ok true ∧
  ∀ depth, _path_has_depth (posixpath.join_sep ["a"; "b"; "c"]) depth
           = bool_decide (length ["a"; "b"; "c"] = depth).
Proof.
  apply (plain_segments_pass_the_checks "/home/u" ["a"; "b"; "c"]).
  - reflexivity.
  - done.
  - repeat constructor; done.
Defined.

(** X7. [path] returns for well-formed input: when the root locators have
    the cumulative arity of the roots and the root's path is [P], the own
    locators have the series' arity, and the mapping sends them to [depth]
    plain segments, [path] is [P] joined with the mapped path. *)
Theorem path_of_plain_mapping (c : string) (self : DataSeries.t)
    (root_locs self_locs : list loc) (P : string) (names : list string) :
  posixpath.isabs c = true →
  length root_locs = DataSeries.root_locator_count self →
  length self_locs = DataSeries.nlocs self →
  resolved_prefix c self root_locs = Ok P →
  DataSeries.map_ self self_locs = posixpath.join_sep names →
  length names = DataSeries.depth self →
  names ≠ [] → Forall clean names →
  DataSeries.path_in c self (root_locs ++ self_locs)
  = Ok (posixpath.join2 P (posixpath.join_sep names)).
Proof.
  intros Hc Hrl Hsl HP Hmap Hd Hne Hcl.
  pose proof (clean_pieces _ Hcl) as Hpc.
  assert (_path_is_relative c (posixpath.join_sep names) = Ok true) as Hr.
  { unfold _path_is_relative. rewrite relpath_join_sep by done. simpl.
    by rewrite bool_decide_eq_true_2. }
  assert (∀ depth, _path_has_depth (posixpath.join_sep names) depth
                   = bool_decide (length names = depth)) as Hdp.
  { intros depth. unfold _path_has_depth. by rewrite split_all_join. }
  assert (DataSeries.path_tail c self P self_locs
          = Ok (posixpath.join2 P (posixpath.join_sep names))) as Ht.
  { apply path_tail_ok. rewrite Hmap, Hr, Hdp.
    by rewrite bool_decide_eq_true_2. }
  unfold resolved_prefix in HP.
  destruct (DataSeries.root self) as [r|] eqn:Hroot.
  - rewrite (path_in_app c self r) by done. by rewrite HP.
  - rewrite root_locator_count_unfold, Hroot in Hrl.
    apply nil_length_inv in Hrl as ->. injection HP as <-.
    by rewrite path_in_unfold, Hroot.
Qed.

Lemma path_of_plain_mapping_witness :
  DataSeries.path_in "/" Scenario.child1 (["a"; "b"] ++ ["c"])
  = Ok (posixpath.join2 "/P/a/b" (posixpath.join_sep ["c"])).
Proof.
  apply (path_of_plain_mapping "/" Scenario.child1 ["a"; "b"] ["c"] "/P/a/b" ["c"]).
  - reflexivity.
  - reflexivity.
  - reflexivity.
  - vm_compute. reflexivity.
  - reflexivity.
  - reflexivity.
  - done.
  - repeat constructor; done.
Defined.

(** ** Files in the directories of a series *)

Lemma DataFile_write_inv {V} (f : DataFile.t V) v d w w' :
  DataFile.write f v d w = (Ok tt, w') →
  exists_at w d = true ∧
  ∃ s k, DataFile.writer_ f v = Ok s ∧
         writable w (DataFile.path f d) = Ok k ∧
         w' = with_fs w (<[k := File (Text s)]> (fs w)).
Proof.
  unfold DataFile.write, bind, os.exists_, assert_, lift, io_.write_file, put_file.
  destruct (exists_at w d); simpl; [|done].
  destruct (DataFile.writer_ f v) as [s|]; [|done].
  destruct (writable w _) as [k|] eqn:Hk; [|done]. intros [= <-]. eauto 10.
Qed.

Lemma node_at_written w p k c :
  writable w p = Ok k →
  node_at (with_fs w (<[k := File c]> (fs w))) p = Some (File c).
Proof.
  intros Hw. destruct (writable_key _ _ _ Hw) as [-> Hne].
  unfold node_at. simpl. rewrite node_key_ne by done. simpl.
  by rewrite lookup_insert_eq.
Qed.

Lemma DataFile_write_read {V} (f : DataFile.t V) v d w w' :
  DataFile.write f v d w = (Ok tt, w') →
  ∃ s, DataFile.writer_ f v = Ok s ∧
       DataFile.exists_ f d w' = (Ok true, w') ∧
       DataFile.read f d w' = (DataFile.reader_ f s, w').
Proof.
  intros (_ & s & k & Hs & Hk & ->)%DataFile_write_inv. exists s.
  split; [done|]. rewrite DataFile_exists_run, DataFile_read_run.
  unfold file_at, file_text. by rewrite (node_at_written _ _ _ _ Hk).
Qed.

(** X8. After a [DataSeriesFile.write] that returned, the file exists and
    [read] for the same locator returns the reader applied to the text the
    writer produced; no directory was lost. With a reader that inverts the
    writer, what is read is what was written. *)
Theorem written_file_is_read_back {V} (self : DataSeriesFile.t V) (val : V)
    (locs : list loc) (w w' : World) :
  DataSeriesFile.write self val locs w = (Ok tt, w') →
  ∃ s, DataFile.writer_ (DataSeriesFile.file self) val = Ok s ∧
       DataSeriesFile.exists_ self locs w' = (Ok true, w') ∧
       DataSeriesFile.read self locs w'
         = (DataFile.reader_ (DataSeriesFile.file self) s, w') ∧
       dirs_kept w w'.
Proof.
  unfold DataSeriesFile.write, DataSeriesFile.exists_, DataSeriesFile.read, bind.
  rewrite path_run.
  destruct (DataSeries.path_in (cwd w) _ locs) as [d|] eqn:Hd; [|done].
  intros Hw. pose proof (DataFile_write_kept _ _ _ _ _ Hw) as Hk.
  destruct (DataFile_write_read _ _ _ _ _ Hw) as (s & Hs & He & Hr).
  exists s. rewrite path_run. destruct Hk as [Hc Hk]. rewrite Hc, Hd.
  rewrite He, Hr. repeat split; done.
Qed.

Lemma written_file_is_read_back_witness :
  ∃ s, DataFile.writer_ (DataSeriesFile.file Cases.geom) "H 0 0 0" = Ok s ∧
       DataSeriesFile.exists_ Cases.geom ["a"] Cases.w_geom
         = (Ok true, Cases.w_geom) ∧
       DataSeriesFile.read Cases.geom ["a"] Cases.w_geom
         = (DataFile.reader_ (DataSeriesFile.file Cases.geom) s, Cases.w_geom) ∧
       dirs_kept Cases.w_a Cases.w_geom.
Proof.
  apply (written_file_is_read_back Cases.geom "H 0 0 0" ["a"] Cases.w_a).
  vm_compute. reflexivity.
Defined.

(** X9. Files are never made on the fly: [write] for a locator whose
    directory does not exist raises an [AssertionError] and changes
    nothing; [read] of a file that does not exist raises an
    [AssertionError], where [exists] answers [False]. *)
Theorem file_needs_its_directory {V} (self : DataSeriesFile.t V) (val : V)
    (locs : list loc) (w : World) (d : string) :
  DataSeries.path_in (cwd w) (DataSeriesFile.dir self) locs = Ok d →
  (exists_at w d = false →
     DataSeriesFile.write self val locs w = (Raise AssertionError, w)) ∧
  (file_at w (DataFile.path (DataSeriesFile.file self) d) = false →
     DataSeriesFile.exists_ self locs w = (Ok false, w) ∧
     DataSeriesFile.read self locs w = (Raise AssertionError, w)).
Proof.
  intros Hd. unfold DataSeriesFile.write, DataSeriesFile.exists_,
    DataSeriesFile.read, bind. rewrite path_run, Hd. split.
  - intros He. unfold DataFile.write, bind, os.exists_. by rewrite He.
  - intros Hf. rewrite DataFile_exists_run, Hf. split; [done|].
    unfold DataFile.read, bind. by rewrite DataFile_exists_run, Hf.
Qed.

Lemma file_needs_its_directory_witness :
  DataSeriesFile.write Cases.geom "H 0 0 0" ["a"] Scenario.w0
    = (Raise AssertionError, Scenario.w0) ∧
  DataSeriesFile.exists_ Cases.geom ["a"] Scenario.w0 = (Ok false, Scenario.w0) ∧
  DataSeriesFile.read Cases.geom ["a"] Scenario.w0
    = (Raise AssertionError, Scenario.w0).
Proof.
  destruct (file_needs_its_directory Cases.geom "H 0 0 0" ["a"] Scenario.w0
              "/P/a") as [H1 H2].
  - reflexivity.
  - split; [apply H1|apply H2]; reflexivity.
Defined.

Lemma remove_file_ok w p :
  file_at w p = true →
  let w' := with_fs w (delete (resolve (cwd w) p) (fs w)) in
  os.remove p w = (Ok tt, w') ∧ node_at w' p = None ∧ dirs_kept w w'.
Proof.
  unfold file_at, os.remove, node_at. set (k := resolve (cwd w) p).
  destruct (node_key w k) as [[|c]|] eqn:Hk; try done. intros _.
  assert (k ≠ []) as Hne by (by intros E; rewrite E in Hk).
  simpl. split; [done|]. split.
  - rewrite node_key_ne by done. simpl. apply lookup_delete_eq.
  - split; [done|]. intros k' Hk'.
    destruct (decide (k' = [])) as [->|Hne']; [done|].
    rewrite node_key_ne in * by done. simpl.
    rewrite lookup_delete_ne; [done|]. intros ->. congruence.
Qed.

(** X10. A [DataSeriesFile] marked removable removes its file: when the
    file exists, [remove] returns, the file is gone afterwards, and every
    directory is kept. The flag of the [DataFile] inside is not consulted. *)
Theorem removed_file_is_gone {V} (self : DataSeriesFile.t V)
    (locs : list loc) (w : World) :
  DataSeriesFile.removable self = true →
  DataSeriesFile.exists_ self locs w = (Ok true, w) →
  ∃ w', DataSeriesFile.remove self locs w = (Ok tt, w') ∧
        DataSeriesFile.exists_ self locs w' = (Ok false, w') ∧
        dirs_kept w w'.
Proof.
  intros Hr. unfold DataSeriesFile.remove, DataSeriesFile.exists_,
    DataSeriesFile.path, bind. rewrite Hr, path_run.
  destruct (DataSeries.path_in (cwd w) _ locs) as [d|] eqn:Hd; [|done].
  rewrite DataFile_exists_run. intros [= Hf].
  destruct (remove_file_ok _ _ Hf) as (Hrm & Hn & Hk).
  eexists. split; [exact Hrm|]. split; [|done].
  rewrite path_run. simpl. rewrite Hd, DataFile_exists_run.
  unfold file_at. by rewrite Hn.
Qed.

Lemma removed_file_is_gone_witness :
  ∃ w', DataSeriesFile.remove Cases.geom ["a"] Cases.w_geom = (Ok tt, w') ∧
        DataSeriesFile.exists_ Cases.geom ["a"] w' = (Ok false, w') ∧
        dirs_kept Cases.w_geom w'.
Proof.
  apply (removed_file_is_gone Cases.geom ["a"] Cases.w_geom).
  - reflexivity.
  - vm_compute. reflexivity.
Defined.

(** ** Removing a directory *)

Lemma normal_path_ends p :
  posixpath.isabs p = true → posixpath.normpath p = p →
  os.ends_in_dot p = false.
Proof.
  intros Ha Hn. unfold os.ends_in_dot. rewrite <- Hn, normpath_abs by done.
  pose proof (norm_comps_clean p Ha) as Hcl.
  rewrite split_sep_slashes.
  destruct (posixpath.norm_comps p) as [|x l] eqn:E.
  - simpl. rewrite filter_app.
    rewrite <- (app_nil_r (replicate _ _)) at 1.
    rewrite filter_nonempty_clean by done.
    by rewrite filter_cons_False by naive_solver.
  - rewrite split_sep_join_sep; [|done|].
    2:{ eapply Forall_impl; [exact Hcl|]. by intros ? [? _]. }
    rewrite filter_nonempty_clean by done.
    destruct (last (x :: l)) as [y|] eqn:Hl; [|done].
    apply last_Some in Hl as [l' Hl]. rewrite Hl in Hcl.
    apply Forall_app in Hcl as [_ Hy].
    destruct (Forall_inv Hy) as (_ & _ & Hy1 & Hy2).
    by rewrite !bool_decide_eq_false_2.
Qed.

Lemma rmtree_ok w p :
  dir_at w p = true → resolve (cwd w) p ≠ [] → os.ends_in_dot p = false →
  let w' := with_fs w (filter (λ kv, ¬ resolve (cwd w) p `prefix_of` kv.1) (fs w)) in
  os.rmtree p w = (Ok tt, w') ∧ node_at w' p = None.
Proof.
  unfold dir_at, os.rmtree, node_at. set (k := resolve (cwd w) p).
  destruct (node_key w k) as [[|c]|] eqn:Hk; try done. intros _ Hne ->.
  simpl. split; [done|]. rewrite node_key_ne by done. simpl.
  apply map_lookup_filter_None. right. intros x _ Hp. by apply Hp.
Qed.

(** X11. In a removable series, for a locator whose path is absolute and
    in normal form (no empty, [.] or [..] component): the directory
    [create] made where none existed exists afterwards, [remove] of the
    same locator then returns, and the directory no longer exists. *)
Theorem created_directory_can_be_removed (self : DataSeries.t)
    (locs : list loc) (p : string) (w w1 : World) :
  DataSeries.removable self = true →
  DataSeries.path_in (cwd w) self locs = Ok p →
  posixpath.isabs p = true → posixpath.normpath p = p →
  DataSeries.exists_ self locs w = (Ok false, w) →
  DataSeries.create self locs w = (Ok tt, w1) →
  DataSeries.exists_ self locs w1 = (Ok true, w1) ∧
  ∃ w2, DataSeries.remove self locs w1 = (Ok tt, w2) ∧
        DataSeries.exists_ self locs w2 = (Ok false, w2).
Proof.
  intros Hr Hp Habs Hnorm He Hc. rewrite exists_run, Hp in He.
  injection He as He.
  destruct (create_created _ _ _ _ Hc) as [[Hcwd _] Hcr].
  apply created_unfold in Hcr as (_ & p' & Hp' & Hd). rewrite Hcwd, Hp in Hp'.
  injection Hp' as <-.
  assert (resolve (cwd w1) p ≠ []) as Hne.
  { rewrite Hcwd. intros E. unfold dir_at, node_at in He. by rewrite E in He. }
  pose proof (rmtree_ok _ _ Hd Hne (normal_path_ends p Habs Hnorm)) as Hrm.
  cbv zeta in Hrm.
  set (w2 := with_fs w1 _) in Hrm. destruct Hrm as [Hrm Hn].
  assert (cwd w2 = cwd w) as Hc2 by done. clearbody w2.
  unfold DataSeries.remove, bind. rewrite Hr, !path_run, !exists_run.
  rewrite Hcwd, Hp, Hd. split; [done|]. exists w2. split; [exact Hrm|].
  rewrite exists_run, Hc2, Hp. unfold dir_at. by rewrite Hn.
Qed.

Lemma created_directory_can_be_removed_witness :
  let w1 := (DataSeries.create Scenario.removable_series ["a"] Scenario.w0).2 in
  DataSeries.exists_ Scenario.removable_series ["a"] w1 = (Ok true, w1) ∧
  ∃ w2, DataSeries.remove Scenario.removable_series ["a"] w1 = (Ok tt, w2) ∧
        DataSeries.exists_ Scenario.removable_series ["a"] w2 = (Ok false, w2).
Proof.
  apply (created_directory_can_be_removed Scenario.removable_series ["a"]
           "/P/a" Scenario.w0).
  - reflexivity.
  - reflexivity.
  - reflexivity.
  - reflexivity.
  - vm_compute. reflexivity.
  - vm_compute. reflexivity.
Defined.

(** ** Operations that only look *)

Lemma keeps_world_ret {A} (a : A) : keeps_world (ret a).
Proof. done. Qed.

Lemma keeps_world_raise {A} e : keeps_world (@raise A e).
Proof. done. Qed.

Lemma keeps_world_lift {A} (r : res A) : keeps_world (lift r).
Proof. done. Qed.

Lemma keeps_world_bind {A B} (m : M A) (k : A → M B) :
  keeps_world m → (∀ a, keeps_world (k a)) → keeps_world (bind m k).
Proof.
  intros Hm Hk w. unfold bind. specialize (Hm w).
  destruct (m w) as [[a|e] w1]; simpl in *; subst; [apply Hk|done].
Qed.

Lemma keeps_world_assert b : keeps_world (assert_ b).
Proof. by destruct b. Qed.

Lemma keeps_world_for_each {A B} (body : A → M B) xs :
  (∀ x, keeps_world (body x)) → keeps_world (for_each body xs).
Proof.
  intros H. induction xs as [|x xs IH]; simpl; [done|].
  apply keeps_world_bind; [done|]. intros y.
  apply keeps_world_bind; [done|]. intros ys. done.
Qed.

Lemma keeps_world_path self locs : keeps_world (DataSeries.path self locs).
Proof. intros w. by rewrite path_run. Qed.

Lemma keeps_world_exists self locs : keeps_world (DataSeries.exists_ self locs).
Proof.
  intros w. rewrite exists_run. by destruct (DataSeries.path_in _ _ _).
Qed.

Lemma keeps_world_DataFile_exists {V} (f : DataFile.t V) d :
  keeps_world (DataFile.exists_ f d).
Proof. done. Qed.

Lemma keeps_world_DataFile_read {V} (f : DataFile.t V) d :
  keeps_world (DataFile.read f d).
Proof. intros w. by rewrite DataFile_read_run. Qed.

Lemma keeps_world_existing_paths self root_locs :
  keeps_world (DataSeries._existing_paths self root_locs).
Proof.
  unfold DataSeries._existing_paths.
  apply keeps_world_bind.
  { destruct (DataSeries.root self); [apply keeps_world_path|done]. }
  intros P. apply keeps_world_bind; [done|]. intros found w. done.
Qed.

Lemma keeps_world_read_locators f pths :
  keeps_world (DataSeries.read_locators f pths).
Proof.
  unfold DataSeries.read_locators.
  apply keeps_world_bind; [|done].
  apply keeps_world_for_each. intros pth.
  apply keeps_world_bind; [apply keeps_world_DataFile_exists|].
  intros [|]; [|done].
  apply keeps_world_bind; [apply keeps_world_DataFile_read|done].
Qed.

Lemma keeps_world_existing fuel : ∀ self root_locs relative,
  keeps_world (DataSeries.existing fuel self root_locs relative).
Proof.
  induction fuel as [|fuel IH]; intros self root_locs relative; simpl; [done|].
  case_bool_decide.
  { apply keeps_world_bind; [apply keeps_world_exists|done]. }
  destruct (DataSeries.loc_dfile self) as [f|]; [|done].
  case_bool_decide.
  - destruct (DataSeries.root self) as [r|]; [|done].
    apply keeps_world_bind; [apply IH|]. intros found.
    apply keeps_world_bind; [|done].
    apply keeps_world_for_each. intros rl. apply IH.
  - apply keeps_world_bind; [apply keeps_world_assert|]. intros _.
    apply keeps_world_bind; [apply keeps_world_existing_paths|]. intros pths.
    apply keeps_world_bind; [apply keeps_world_read_locators|done].
Qed.

(** X12. The queries leave the world as it is, whether they return or
    raise: [existing] at any recursion depth, [_existing_paths], [exists],
    and the [exists] and [read] of a file in a series. *)
Theorem looking_changes_nothing {V} (self : DataSeries.t)
    (file : DataSeriesFile.t V) (fuel : nat) (root_locs locs : list loc)
    (relative : bool) :
  keeps_world (DataSeries.existing fuel self root_locs relative) ∧
  keeps_world (DataSeries._existing_paths self root_locs) ∧
  keeps_world (DataSeries.exists_ self locs) ∧
  keeps_world (DataSeriesFile.exists_ file locs) ∧
  keeps_world (DataSeriesFile.read file locs).
Proof.
  split; [apply keeps_world_existing|].
  split; [apply keeps_world_existing_paths|].
  split; [apply keeps_world_exists|].
  split; (apply keeps_world_bind; [apply keeps_world_path|]; intros d).
  - apply keeps_world_DataFile_exists.
  - apply keeps_world_DataFile_read.
Qed.

(** ** Enumeration: arity 0, and the [relative] flag *)

Lemma existing_S fuel self root_locs relative :
  DataSeries.existing (S fuel) self root_locs relative =
  if bool_decide (DataSeries.nlocs self = 0) then
    let* e := DataSeries.exists_ self [] in
    ret (if e then [[]] else [])
  else
    match DataSeries.loc_dfile self with
    | None => raise ValueError
    | Some f =>
        let root_nlocs := DataSeries.root_locator_count self in
        if bool_decide (length root_locs < root_nlocs) then
          match DataSeries.root self with
          | None => raise AttributeError
          | Some r =>
              let* found := DataSeries.existing fuel r root_locs false in
              let* lsts :=
                for_each (λ root_locs_,
                            DataSeries.existing fuel self root_locs_ false)
                         found in
              ret (concat lsts)
          end
        else
          assert_ (bool_decide (root_nlocs = length root_locs));;
          let* pths := DataSeries._existing_paths self root_locs in
          let* locs_lst := DataSeries.read_locators f pths in
          ret (if negb relative then (λ l, root_locs ++ l) <$> locs_lst
               else locs_lst)
    end.
Proof. done. Qed.

(** X13. For a series of arity 0, [existing] ignores both of its
    arguments, because it asks [exists] for the empty locator; under roots
    of positive cumulative arity that locator is too short, and [existing]
    raises an [AssertionError] whatever it is given. *)
Theorem existing_of_arity_zero (self : DataSeries.t) (root_locs : list loc)
    (relative : bool) (fuel : nat) (w : World) :
  DataSeries.nlocs self = 0 →
  DataSeries.existing (S fuel) self root_locs relative w
    = DataSeries.existing (S fuel) self [] false w ∧
  (DataSeries.root_locator_count self ≠ 0 →
     DataSeries.existing (S fuel) self root_locs relative w
     = (Raise AssertionError, w)).
Proof.
  intros H0. rewrite !existing_S, bool_decide_eq_true_2 by done.
  split; [done|]. intros Hc. unfold bind.
  rewrite exists_run, path_in_mismatch; [done|]. simpl. lia.
Qed.

Lemma existing_of_arity_zero_witness :
  DataSeries.existing 1 Cases.leaf0 ["a"] true Cases.w_a
    = DataSeries.existing 1 Cases.leaf0 [] false Cases.w_a ∧
  DataSeries.existing 1 Cases.leaf0 ["a"] true Cases.w_a
    = (Raise AssertionError, Cases.w_a).
Proof.
  destruct (existing_of_arity_zero Cases.leaf0 ["a"] true 0 Cases.w_a) as [H1 H2].
  - reflexivity.
  - split; [exact H1|]. apply H2. simpl. lia.
Defined.

Lemma for_each_ok {A B} (body : A → M B) xs : ∀ w ys w',
  (∀ x, keeps_world (body x)) →
  for_each body xs w = (Ok ys, w') →
  Forall2 (λ x y, (body x w).1 = Ok y) xs ys.
Proof.
  induction xs as [|x xs IH]; intros w ys w' Hk; simpl.
  - intros [= <- _]. constructor.
  - unfold bind. pose proof (Hk x w) as Hx.
    destruct (body x w) as [[y|e] w1] eqn:Hb; [|done]. simpl in Hx. subst w1.
    destruct (for_each body xs w) as [[ys'|e] w2] eqn:Hf; [|done].
    intros [= <- _]. constructor; [by rewrite Hb|]. by eapply IH.
Qed.

Lemma Forall2_elem_r {A B} (P : A → B → Prop) xs ys y :
  Forall2 P xs ys → y ∈ ys → ∃ x, x ∈ xs ∧ P x y.
Proof.
  induction 1 as [|x y' xs ys HP _ IH]; [by intros ?%elem_of_nil|].
  intros [->|Hy]%elem_of_cons.
  - exists x. split; [apply list_elem_of_here|done].
  - destruct (IH Hy) as (x' & Hx' & HP'). exists x'.
    split; [by apply list_elem_of_further|done].
Qed.

(** X14. Every locator [existing] returns for a series of positive arity
    starts with the root locators it was given, when absolute locators
    were asked for, and also when the root locators were incomplete,
    whatever the [relative] flag then says. *)
Theorem existing_extends_root_locators fuel :
  ∀ self (root_locs : list loc) relative w ls,
  DataSeries.nlocs self ≠ 0 →
  relative = false ∨ length root_locs < DataSeries.root_locator_count self →
  (DataSeries.existing fuel self root_locs relative w).1 = Ok ls →
  ∀ l, l ∈ ls → root_locs `prefix_of` l.
Proof.
  induction fuel as [|fuel IH]; intros self root_locs relative w ls Hn Hrel;
    [done|].
  rewrite existing_S, bool_decide_eq_false_2 by done.
  destruct (DataSeries.loc_dfile self) as [f|]; [|done]. cbv zeta.
  case_bool_decide as Hlt.
  - destruct (DataSeries.root self) as [r|] eqn:Hroot; [|done].
    unfold bind.
    pose proof (keeps_world_existing fuel r root_locs false w) as Hw1.
    destruct (DataSeries.existing fuel r root_locs false w)
      as [[found|e] w1] eqn:Hfound; [|done]. simpl in Hw1. subst w1.
    destruct (for_each _ found w) as [[lsts|e] w2] eqn:Hfor; [|done].
    simpl. intros [= <-] l Hl.
    apply for_each_ok in Hfor; [|intros; apply keeps_world_existing].
    apply list_elem_of_In, in_concat in Hl as (lst & Hlst & Hl).
    apply list_elem_of_In in Hlst, Hl.
    destruct (Forall2_elem_r _ _ _ _ Hfor Hlst) as (rl & Hrl & Hex).
    assert (root_locs `prefix_of` rl) as Hp1.
    { destruct (decide (DataSeries.nlocs r = 0)) as [Hr0|Hr0].
      - exfalso. destruct fuel as [|fuel']; [done|].
        rewrite existing_S, bool_decide_eq_true_2 in Hfound by done.
        unfold bind in Hfound. rewrite exists_run in Hfound.
        destruct (DataSeries.path_in (cwd w) r []) as [p|] eqn:Hp; [|done].
        apply path_in_length in Hp. simpl in Hp.
        rewrite root_locator_count_unfold, Hroot in Hlt. lia.
      - eapply (IH r root_locs false w found); [done|by left| |done].
        by rewrite Hfound. }
    etrans; [exact Hp1|].
    eapply (IH self rl false w lst); [done|by left|done|done].
  - destruct Hrel as [->|Hrel]; [|done]. unfold bind, assert_.
    case_bool_decide; [|done]. simpl.
    destruct (DataSeries._existing_paths self root_locs w) as [[pths|e] w1];
      [|done].
    destruct (DataSeries.read_locators f pths w1) as [[locs_lst|e] w2]; [|done].
    simpl. intros [= <-] l (x & -> & _)%list_elem_of_fmap. by eexists.
Qed.

Lemma existing_extends_root_locators_witness :
  (DataSeries.existing 1 Scenario.child1 ["a"; "b"] false Cases.w_abc).1
    = Ok [["a"; "b"; "c"]] ∧
  ∀ l, l ∈ [["a"; "b"; "c"]] → ["a"; "b"] `prefix_of` l.
Proof.
  split; [vm_compute; reflexivity|].
  apply (existing_extends_root_locators 1 Scenario.child1 ["a"; "b"] false
           Cases.w_abc).
  - simpl. lia.
  - left. reflexivity.
  - vm_compute. reflexivity.
Defined.

(** ** Values in the document *)

Lemma dict_get_set_eq k v d : dict_get k (dict_set k v d) = Some v.
Proof.
  induction d as [|k' v' r IH]; simpl.
  - by rewrite bool_decide_eq_true_2.
  - destruct (bool_decide (k' = k)) eqn:E; simpl; by rewrite E.
Qed.

Lemma dict_get_set_ne k k' v d :
  k ≠ k' → dict_get k' (dict_set k v d) = dict_get k' d.
Proof.
  intros Hne. induction d as [|k0 v0 r IH]; simpl.
  - by rewrite bool_decide_eq_false_2.
  - destruct (bool_decide (k0 = k)) eqn:E; simpl.
    + apply bool_decide_eq_true_1 in E as ->.
      by rewrite bool_decide_eq_false_2.
    + by rewrite IH.
Qed.

Lemma write_loop_at key leaf : ∀ top top',
  JSONObject.write_loop key leaf top = Ok top' →
  ∃ d d', leaf d = Ok d' ∧ dict_at key top' = Some d'.
Proof.
  induction key as [|nk rest IH]; intros top top'; simpl.
  - intros H. by exists top, top'.
  - destruct (match dict_get nk top with
              | Some v => as_dict v | None => Ok DNil end) as [sub|]; [|done].
    simpl. destruct (JSONObject.write_loop rest leaf sub) as [sub'|] eqn:Hs;
      [|done].
    simpl. intros [= <-]. rewrite dict_get_set_eq. by eapply IH.
Qed.

Lemma write_one_inv {V} (jo : JSONObject.t V) val k j j' :
  JSONObject.write_one jo val k j = Ok j' →
  ∃ top top', j = JObj top ∧ j' = JObj top' ∧
    JSONObject.write_loop k (JSONObject.set_field jo val) top = Ok top'.
Proof.
  unfold JSONObject.write_one. destruct j as [s|top]; [done|]. simpl.
  destruct (JSONObject.write_loop _ _ _) as [top'|] eqn:E; [|done].
  intros [= <-]. by exists top, top'.
Qed.

Lemma JSONEntry_exists_run {V} (self : JSONEntry.t V) key mapping w p k :
  DataSeries.json_path_in (cwd w) (JSONEntry.js self)
    (JSONObject.json_layer (JSONEntry.json self)) = Ok p →
  JSONObject._add_layer (JSONEntry.json self)
    (JSONEntry.the_key self key mapping) = Ok k →
  JSONEntry.exists_ self key mapping w
  = (res_bind (load w p) (exists_in (JSONEntry.json self) k),
     logs [ReadJson p] w).
Proof.
  intros Hp Hk. unfold JSONEntry.exists_, bind. rewrite doc_path_run, Hp.
  by apply JSONObject_exists_run.
Qed.

(** A key whose segments all resolve, with the field set at its end. *)
Lemma JSONEntry_read_hit {V} (self : JSONEntry.t V) key mapping w p k top d v :
  DataSeries.json_path_in (cwd w) (JSONEntry.js self)
    (JSONObject.json_layer (JSONEntry.json self)) = Ok p →
  JSONObject._add_layer (JSONEntry.json self)
    (JSONEntry.the_key self key mapping) = Ok k →
  load w p = Ok (JObj top) →
  dict_at k top = Some d →
  dict_get (JSONObject.name (JSONEntry.json self)) d = Some v →
  JSONEntry.exists_ self key mapping w = (Ok true, logs [ReadJson p] w) ∧
  JSONEntry.read self key mapping w
  = (res_bind (JSONObject.reader_ (JSONEntry.json self) v) (λ x, Ok (Some x)),
     logs [ReadJson p; ReadJson p] w).
Proof.
  intros Hp Hk Hj Hd Hv.
  assert (JSONEntry.exists_ self key mapping w = (Ok true, logs [ReadJson p] w))
    as Hex.
  { rewrite (JSONEntry_exists_run _ _ _ _ _ _ Hp Hk), Hj. simpl.
    unfold exists_in. simpl. rewrite (lookup_loop_hit _ _ _ _ Hd). simpl.
    unfold dict_mem. by rewrite Hv. }
  split; [done|]. unfold JSONEntry.read, bind. rewrite Hex.
  rewrite doc_path_run. simpl. rewrite Hp.
  unfold JSONObject.read, bind, lift. rewrite read_json_run, load_logs, Hj.
  rewrite logs_logs. simpl. f_equal.
  unfold JSONObject._read. rewrite Hk. simpl.
  rewrite (lookup_loop_hit _ _ _ _ Hd). simpl. by rewrite Hv.
Qed.

Lemma JSONEntry_write_inv {V} (self : JSONEntry.t V) val key mapping w w' :
  JSONEntry.write self val key mapping w = (Ok tt, w') →
  ∃ w1 p,
    JSONEntry.ensure_document self w = (Ok tt, w1) ∧
    DataSeries.json_path_in (cwd w1) (JSONEntry.js self)
      (JSONObject.json_layer (JSONEntry.json self)) = Ok p ∧
    JSONObject.write (JSONEntry.json self) val
      (JSONEntry.the_key self key mapping) p w1 = (Ok tt, w').
Proof.
  rewrite write_unfold. intros ([] & w1 & He & H)%bind_ok.
  apply bind_ok in H as (p & w2 & Hp & H). rewrite doc_path_run in Hp.
  injection Hp as Hp <-. by exists w1, p.
Qed.

Lemma JSONEntry_write_read {V} (self : JSONEntry.t V) val key mapping w w' :
  JSONEntry.write self val key mapping w = (Ok tt, w') →
  ∃ v p,
    JSONObject.writer_ (JSONEntry.json self) val = Ok v ∧
    JSONEntry.exists_ self key mapping w' = (Ok true, logs [ReadJson p] w') ∧
    JSONEntry.read self key mapping w'
    = (res_bind (JSONObject.reader_ (JSONEntry.json self) v) (λ x, Ok (Some x)),
       logs [ReadJson p; ReadJson p] w').
Proof.
  intros (w1 & p & _ & Hp & H)%JSONEntry_write_inv.
  apply JSONObject_write_ok in H as (k & j & j' & kp & Hk & Hj & Hj' & Hw & ->).
  apply write_one_inv in Hj' as (top & top' & -> & -> & Hloop).
  apply write_loop_at in Hloop as (d & d' & Hleaf & Hd').
  unfold JSONObject.set_field in Hleaf.
  destruct (JSONObject.writer_ (JSONEntry.json self) val) as [v|] eqn:Hv; [|done].
  injection Hleaf as <-. exists v, p. split; [done|].
  destruct (written_document w1 p kp (JObj top') [ReadJson p; WriteJson p] Hw)
    as [Hl _].
  eapply JSONEntry_read_hit; [exact Hp|exact Hk|exact Hl|exact Hd'|].
  apply dict_get_set_eq.
Qed.

(** X15. After a [JSONEntry.write] that returned, [exists] for the same key
    is [True] and [read] returns the reader applied to the value the writer
    produced. *)
Theorem written_value_is_read_back {V} (self : JSONEntry.t V) (val : V)
    (key : list string) (mapping : bool) (w w' : World) :
  JSONEntry.write self val key mapping w = (Ok tt, w') →
  ∃ v,
    JSONObject.writer_ (JSONEntry.json self) val = Ok v ∧
    (JSONEntry.exists_ self key mapping w').1 = Ok true ∧
    (JSONEntry.read self key mapping w').1
    = res_bind (JSONObject.reader_ (JSONEntry.json self) v) (λ x, Ok (Some x)).
Proof.
  intros (v & p & Hv & He & Hr)%JSONEntry_write_read. exists v.
  by rewrite He, Hr.
Qed.

Lemma written_value_is_read_back_witness :
  let w' := (JSONEntry.write Scenario.entry "-40.5" ["methane"] true
               Scenario.w_h2o).2 in
  ∃ v,
    JSONObject.writer_ (JSONEntry.json Scenario.entry) "-40.5" = Ok v ∧
    (JSONEntry.exists_ Scenario.entry ["methane"] true w').1 = Ok true ∧
    (JSONEntry.read Scenario.entry ["methane"] true w').1
    = res_bind (JSONObject.reader_ (JSONEntry.json Scenario.entry) v)
        (λ x, Ok (Some x)).
Proof.
  apply (written_value_is_read_back Scenario.entry "-40.5" ["methane"] true
           Scenario.w_h2o).
  vm_compute. reflexivity.
Defined.

(** ** What a write leaves alone *)

Lemma apart_cons a t1 b t2 :
  apart (a :: t1) (b :: t2) ↔ a ≠ b ∨ (a = b ∧ apart t1 t2).
Proof.
  split.
  - intros (c & x & y & r1 & r2 & H1 & H2 & Hxy).
    destruct c as [|z c]; simpl in *.
    + injection H1 as -> ->. injection H2 as -> ->. by left.
    + injection H1 as -> ->. injection H2 as -> ->. right. split; [done|].
      by exists c, x, y, r1, r2.
  - intros [Hne|[-> (c & x & y & r1 & r2 & -> & -> & Hxy)]].
    + by exists [], a, b, t1, t2.
    + by exists (b :: c), x, y, r1, r2.
Qed.

Lemma apart_nil_l a : ¬ apart [] a.
Proof. intros (c & x & y & r1 & r2 & H1 & _). by destruct c. Qed.

Lemma apart_nil_r a : ¬ apart a [].
Proof. intros (c & x & y & r1 & r2 & _ & H2 & _). by destruct c. Qed.

Lemma dict_at_cons k rest d :
  dict_at (k :: rest) d
  = match dict_get k d with
    | Some (JObj d') => dict_at rest d'
    | _ => None
    end.
Proof. done. Qed.

(** The update of one address leaves the value at any address apart from
    it where it was. *)
Lemma write_loop_frame n1 leaf n2 x :
  (∀ d d', leaf d = Ok d' → ∀ n, n ≠ n1 → dict_get n d' = dict_get n d) →
  ∀ k1 k2 top top' d2,
  apart (k1 ++ [n1]) (k2 ++ [n2]) →
  JSONObject.write_loop k1 leaf top = Ok top' →
  dict_at k2 top = Some d2 → dict_get n2 d2 = Some x →
  ∃ d2', dict_at k2 top' = Some d2' ∧ dict_get n2 d2' = Some x.
Proof.
  intros Hleaf. induction k1 as [|a k1 IH]; intros k2 top top' d2 Hap Hw Hd Hx.
  - simpl in Hw. pose proof (Hleaf _ _ Hw) as Hl.
    destruct k2 as [|b k2]; simpl in Hap; apply apart_cons in Hap
      as [Hne|[_ Hap]]; try by apply apart_nil_l in Hap.
    + simpl in Hd. injection Hd as <-. exists top'. split; [done|].
      by rewrite Hl.
    + exists d2. split; [|done]. rewrite dict_at_cons in *. by rewrite Hl.
  - simpl in Hw.
    destruct (match dict_get a top with
              | Some v => as_dict v | None => Ok DNil end) as [sub|] eqn:Hsub;
      [|done].
    simpl in Hw.
    destruct (JSONObject.write_loop k1 leaf sub) as [sub'|] eqn:Hs; [|done].
    injection Hw as <-.
    destruct k2 as [|b k2]; simpl in Hap; apply apart_cons in Hap
      as [Hne|[<- Hap]].
    + simpl in Hd. injection Hd as <-. eexists. split; [done|].
      by rewrite dict_get_set_ne.
    + destruct k1; by apply apart_nil_r in Hap.
    + exists d2. split; [|done]. rewrite dict_at_cons in *.
      by rewrite dict_get_set_ne.
    + rewrite dict_at_cons in Hd.
      destruct (dict_get a top) as [[s|d0]|] eqn:Ha; try done.
      simpl in Hsub. injection Hsub as <-.
      destruct (IH k2 d0 sub' d2 Hap Hs Hd Hx) as (d2' & Hd2' & Hx').
      exists d2'. split; [|done].
      by rewrite dict_at_cons, dict_get_set_eq.
Qed.

Lemma read_some_inv {V} (jo : JSONObject.t V) key k j x :
  JSONObject._add_layer jo key = Ok k →
  JSONObject._read jo key j = Ok (Some x) →
  ∃ top d v, j = JObj top ∧ dict_at k top = Some d ∧
             dict_get (JSONObject.name jo) d = Some v ∧
             JSONObject.reader_ jo v = Ok x.
Proof.
  intros Hk. unfold JSONObject._read. rewrite Hk. simpl.
  destruct j as [s|top]; [done|]. simpl.
  destruct (JSONObject.lookup_loop k top true) as [[d e]|] eqn:Hl; [|done].
  simpl. destruct e; [|done].
  apply lookup_loop_true in Hl as [_ Hd].
  destruct (dict_get (JSONObject.name jo) d) as [v|] eqn:Hv; [|done].
  destruct (JSONObject.reader_ jo v) as [x'|] eqn:Hr; [|done].
  intros [= <-]. by exists top, d, v.
Qed.

(** X16. A write does not disturb the other values of the document: for
    two entries of the same series and layer, a value that [read] returned
    before a [write] at another address (the layered key followed by the
    field name; two addresses are apart when they differ at a segment that
    both have) is returned by [read] after it. This covers another field
    under the same key, and any field under a key that branches off. *)
Theorem write_keeps_other_values {V1 V2} (self1 : JSONEntry.t V1)
    (self2 : JSONEntry.t V2) (val : V1) (key1 key2 : list string)
    (mapping1 mapping2 : bool) (k1 k2 : list string) (x : V2) (w w' : World) :
  JSONEntry.js self1 = JSONEntry.js self2 →
  JSONObject.json_layer (JSONEntry.json self1)
    = JSONObject.json_layer (JSONEntry.json self2) →
  JSONObject._add_layer (JSONEntry.json self1)
    (JSONEntry.the_key self1 key1 mapping1) = Ok k1 →
  JSONObject._add_layer (JSONEntry.json self2)
    (JSONEntry.the_key self2 key2 mapping2) = Ok k2 →
  apart (k1 ++ [JSONObject.name (JSONEntry.json self1)])
        (k2 ++ [JSONObject.name (JSONEntry.json self2)]) →
  (JSONEntry.read self2 key2 mapping2 w).1 = Ok (Some x) →
  JSONEntry.write self1 val key1 mapping1 w = (Ok tt, w') →
  (JSONEntry.read self2 key2 mapping2 w').1 = Ok (Some x).
Proof.
  intros Hjs Hlayer Hk1 Hk2 Hap Hread Hwrite.
  apply JSONEntry_read_inv in Hread as (p & k & j & b & Hp & Hk & Hj & _ & Hr & _).
  assert (k = k2) as -> by congruence.
  apply (read_some_inv _ _ _ _ _ Hk2) in Hr as (top & d & v & -> & Hd & Hv & Hx).
  apply JSONEntry_write_inv in Hwrite as (w1 & p1 & He & Hp1 & H).
  rewrite (ensure_document_noop self1 w p) in He.
  2:{ by rewrite Hjs, Hlayer. }
  2:{ by eapply load_file_at. }
  injection He as <-.
  assert (p1 = p) as -> by (rewrite Hjs, Hlayer in Hp1; congruence).
  apply JSONObject_write_ok in H
    as (k & j0 & j' & kp & Hk' & Hj0 & Hj' & Hw & ->).
  assert (k = k1) as -> by congruence.
  assert (j0 = JObj top) as -> by congruence.
  apply write_one_inv in Hj' as (top0 & top' & [= <-] & -> & Hloop).
  destruct (write_loop_frame (JSONObject.name (JSONEntry.json self1))
              (JSONObject.set_field (JSONEntry.json self1) val)
              (JSONObject.name (JSONEntry.json self2)) v) with
    (k1 := k1) (k2 := k2) (top := top) (top' := top') (d2 := d)
    as (d2' & Hd2' & Hv'); try done.
  { intros d0 d0'. unfold JSONObject.set_field.
    destruct (JSONObject.writer_ _ val); [|done]. simpl. intros [= <-] n Hn.
    by apply dict_get_set_ne. }
  destruct (written_document w p kp (JObj top') [ReadJson p; WriteJson p] Hw)
    as [Hl _].
  destruct (JSONEntry_read_hit self2 key2 mapping2
              (with_fs (logs [ReadJson p; WriteJson p] w)
                 (<[kp := File (Json (JObj top'))]> (fs w)))
              p k2 top' d2' v) as [_ Hrd]; try done.
  by rewrite Hrd, Hx.
Qed.

Lemma write_keeps_other_values_witness :
  let w' := (JSONEntry.write Scenario.entry "-40.5" ["methane"] true
               Scenario.w_h2o).2 in
  (JSONEntry.read Scenario.entry ["h2o"] true w').1 = Ok (Some "-75.123").
Proof.
  apply (write_keeps_other_values Scenario.entry Scenario.entry "-40.5"
           ["methane"] ["h2o"] true true ["methane"] ["h2o"] "-75.123"
           Scenario.w_h2o).
  - reflexivity.
  - reflexivity.
  - reflexivity.
  - reflexivity.
  - exists [], "methane", "h2o", ["energy"], ["energy"]. done.
  - vm_compute. reflexivity.
  - vm_compute. reflexivity.
Defined.

(** ** The first write makes the document *)

Lemma write_loop_fresh {V} (jo : JSONObject.t V) val v k :
  JSONObject.writer_ jo val = Ok v →
  JSONObject.write_loop k (JSONObject.set_field jo val) DNil
  = Ok (nested k (JSONObject.name jo) v).
Proof.
  intros Hv. induction k as [|nk rest IH]; simpl.
  - unfold JSONObject.set_field. by rewrite Hv.
  - by rewrite IH.
Qed.

Lemma json_exists_run self layer w :
  DataSeries.json_exists self layer w
  = match DataSeries.json_path_in (cwd w) self layer with
    | Ok p => (Ok (file_at w p), w)
    | Raise e => (Raise e, w)
    end.
Proof.
  unfold DataSeries.json_exists, DataSeries.json_path, bind, getcwd, lift.
  by destruct (DataSeries.json_path_in _ _ _).
Qed.

Lemma json_path_run self layer w :
  DataSeries.json_path self layer w
  = (DataSeries.json_path_in (cwd w) self layer, w).
Proof. done. Qed.

Lemma write_json_run j p w :
  json_.write_json j p w
  = match writable w p with
    | Ok k => (Ok tt, with_fs (logs [WriteJson p] w) (<[k := File (Json j)]> (fs w)))
    | Raise e => (Raise e, logs [WriteJson p] w)
    end.
Proof.
  unfold json_.write_json, put_file. rewrite log_logs, writable_logs.
  by destruct (writable w p).
Qed.

(** X17. The first write makes the document: when neither the document nor
    the unlayered document exists and the document file can be written,
    [write] returns, the document holds exactly the nested mappings of the
    key with the written value at the field name, no other file changes,
    and the document is written twice and read once. *)
Theorem first_write_makes_the_document {V} (self : JSONEntry.t V) (val : V)
    (key : list string) (mapping : bool) (w : World)
    (p p0 : string) (kp k : list string) (v : json) :
  DataSeries.json_path_in (cwd w) (JSONEntry.js self)
    (JSONObject.json_layer (JSONEntry.json self)) = Ok p →
  DataSeries.json_path_in (cwd w) (JSONEntry.js self) None = Ok p0 →
  file_at w p = false → file_at w p0 = false →
  writable w p = Ok kp →
  JSONObject._add_layer (JSONEntry.json self)
    (JSONEntry.the_key self key mapping) = Ok k →
  JSONObject.writer_ (JSONEntry.json self) val = Ok v →
  ∃ w',
    JSONEntry.write self val key mapping w = (Ok tt, w') ∧
    load w' p = Ok (JObj (nested k (JSONObject.name (JSONEntry.json self)) v)) ∧
    fs w' = <[kp := File (Json (JObj (nested k (JSONObject.name
                                                 (JSONEntry.json self)) v)))]>
              (fs w) ∧
    trace w' = trace w ++ [WriteJson p; ReadJson p; WriteJson p].
Proof.
  intros Hp Hp0 Hf Hf0 Hw Hk Hv.
  set (j' := JObj (nested k (JSONObject.name (JSONEntry.json self)) v)).
  set (w1 := with_fs (logs [WriteJson p] w) (<[kp := File (Json (JObj DNil))]> (fs w))).
  assert (JSONEntry.ensure_document self w = (Ok tt, w1)) as He.
  { unfold JSONEntry.ensure_document. unfold bind at 1.
    rewrite json_exists_run, Hp, Hf. simpl.
    unfold DataSeries.json_create, bind.
    rewrite json_exists_run, Hp0, Hf0. simpl.
    by rewrite Hp, write_json_run, Hw. }
  destruct (written_document w p kp (JObj DNil) [WriteJson p] Hw) as [Hl1 Hw1].
  fold w1 in Hl1, Hw1.
  set (w' := with_fs (logs [ReadJson p; WriteJson p] w1)
               (<[kp := File (Json j')]> (fs w1))).
  assert (JSONEntry.write self val key mapping w = (Ok tt, w')) as Hwr.
  { rewrite write_unfold. unfold bind at 1. rewrite He.
    unfold bind at 1. rewrite doc_path_run.
    change (cwd w1) with (cwd w). rewrite Hp.
    unfold JSONObject.write, bind, lift. rewrite Hk, read_json_run, Hl1.
    unfold JSONObject.write_one. simpl.
    rewrite (write_loop_fresh _ _ _ _ Hv). simpl.
    rewrite write_json_run, writable_logs, Hw1.
    by rewrite logs_logs. }
  exists w'. split; [done|].
  destruct (written_document w1 p kp j' [ReadJson p; WriteJson p] Hw1) as [Hl' _].
  split; [exact Hl'|]. split.
  - simpl. apply insert_insert_eq.
  - simpl. by rewrite <- app_assoc.
Qed.

Lemma first_write_makes_the_document_witness :
  ∃ w',
    JSONEntry.write Scenario.entry "-75.123" ["h2o"] true Scenario.w0
      = (Ok tt, w') ∧
    load w' "/P/db.json" = Ok (JObj (nested ["h2o"] "energy" (JLeaf "-75.123"))) ∧
    fs w' = <[ ["P"; "db.json"] :=
                 File (Json (JObj (nested ["h2o"] "energy" (JLeaf "-75.123")))) ]>
              (fs Scenario.w0) ∧
    trace w' = trace Scenario.w0
               ++ [WriteJson "/P/db.json"; ReadJson "/P/db.json";
                   WriteJson "/P/db.json"].
Proof.
  apply (first_write_makes_the_document Scenario.entry "-75.123" ["h2o"] true
           Scenario.w0 "/P/db.json" "/P/db.json" ["P"; "db.json"] ["h2o"]
           (JLeaf "-75.123")); reflexivity.
Defined.

(** X18. [json_create] looks for the unlayered document before it creates
    the layered one; when the unlayered document exists and the layered one
    does not, [ensure_document] changes nothing and [write] raises
    [FileNotFoundError] on reading the document it did not create. *)
Theorem layered_document_is_not_created {V} (self : JSONEntry.t V) (val : V)
    (key : list string) (mapping : bool) (w : World)
    (p p0 : string) (k : list string) :
  DataSeries.json_path_in (cwd w) (JSONEntry.js self)
    (JSONObject.json_layer (JSONEntry.json self)) = Ok p →
  DataSeries.json_path_in (cwd w) (JSONEntry.js self) None = Ok p0 →
  node_at w p = None → file_at w p0 = true →
  JSONObject._add_layer (JSONEntry.json self)
    (JSONEntry.the_key self key mapping) = Ok k →
  JSONEntry.ensure_document self w = (Ok tt, w) ∧
  JSONEntry.write self val key mapping w
    = (Raise FileNotFoundError, logs [ReadJson p] w).
Proof.
  intros Hp Hp0 Hn Hf0 Hk.
  assert (file_at w p = false) as Hf by (unfold file_at; by rewrite Hn).
  assert (JSONEntry.ensure_document self w = (Ok tt, w)) as He.
  { unfold JSONEntry.ensure_document. unfold bind at 1.
    rewrite json_exists_run, Hp, Hf. simpl.
    unfold DataSeries.json_create, bind.
    by rewrite json_exists_run, Hp0, Hf0. }
  split; [done|].
  rewrite write_unfold. unfold bind at 1. rewrite He.
  unfold bind at 1. rewrite doc_path_run, Hp.
  unfold JSONObject.write, bind, lift. rewrite Hk, read_json_run.
  unfold load. by rewrite Hn.
Qed.

Lemma layered_document_is_not_created_witness :
  JSONEntry.ensure_document Cases.layer_entry Cases.w_layer
    = (Ok tt, Cases.w_layer) ∧
  JSONEntry.write Cases.layer_entry "-75.123" ["h2o"] true Cases.w_layer
    = (Raise FileNotFoundError, logs [ReadJson "/P/db.json"] Cases.w_layer).
Proof.
  apply (layered_document_is_not_created Cases.layer_entry "-75.123" ["h2o"]
           true Cases.w_layer "/P/db.json" "/P/L/db.json" ["L"; "h2o"]);
    reflexivity.
Defined.

(** ** Reading many keys from one document *)

Lemma JSONObject_read_run {V} (jo : JSONObject.t V) key p w :
  JSONObject.read jo key p w
  = (res_bind (load w p) (JSONObject._read jo key), logs [ReadJson p] w).
Proof.
  unfold JSONObject.read, bind, lift. rewrite read_json_run.
  by destruct (load w p).
Qed.

Lemma read_all_loop_each {V} (jo : JSONObject.t V) j keys : ∀ rs,
  JSONObject.read_all_loop jo keys j = Ok rs ↔
  Forall2 (λ key r, JSONObject._read jo key j = Ok r) keys rs.
Proof.
  induction keys as [|key keys IH]; intros rs; simpl.
  - split; [intros [= <-]; constructor|by intros ->%Forall2_nil_inv_l].
  - split.
    + destruct (JSONObject._read jo key j) as [r|] eqn:Hr; [|done]. simpl.
      destruct (JSONObject.read_all_loop jo keys j) as [rs'|] eqn:Hrs; [|done].
      intros [= <-]. constructor; [done|]. by apply IH.
    + intros (r & rs' & Hr & Hrs & ->)%Forall2_cons_inv_l.
      apply IH in Hrs. by rewrite Hr, Hrs.
Qed.

(** X19. [JSONObject.read_all] is positional and reads the document once:
    it returns a list exactly when the document loads and every key can be
    read, the list has one result per key, in order, each the result of
    [JSONObject.read] for that key ([None] for a key that is not set), and
    the trace grows by one read. *)
Theorem object_read_all_is_positional {V} (jo : JSONObject.t V)
    (keys : list (list string)) (p : string) (w w' : World)
    (rs : list (option V)) :
  JSONObject.read_all jo keys p w = (Ok rs, w') ↔
  is_ok (load w p) = true ∧
  Forall2 (λ key r, (JSONObject.read jo key p w).1 = Ok r) keys rs ∧
  w' = logs [ReadJson p] w.
Proof.
  unfold JSONObject.read_all, bind, lift. rewrite read_json_run.
  destruct (load w p) as [j|e] eqn:Hj; simpl.
  - assert (∀ key r, (JSONObject.read jo key p w).1 = Ok r
                     ↔ JSONObject._read jo key j = Ok r) as Hread.
    { intros key r. by rewrite JSONObject_read_run, Hj. }
    split.
    + destruct (JSONObject.read_all_loop jo keys j) as [rs'|] eqn:Hrs; [|done].
      intros [= <- <-]. split; [done|]. split; [|done].
      apply read_all_loop_each in Hrs.
      eapply Forall2_impl; [exact Hrs|]. intros ???. by apply Hread.
    + intros (_ & Hall & ->).
      assert (JSONObject.read_all_loop jo keys j = Ok rs) as ->; [|done].
      apply read_all_loop_each.
      eapply Forall2_impl; [exact Hall|]. intros ???. by apply Hread.
  - split; [done|]. by intros [? _].
Qed.

(** ** The keys of a document *)

Lemma dict_keys_values_length d : length (dict_keys d) = length (dict_values d).
Proof. induction d as [|k v r IH]; simpl; [done|]. by rewrite IH. Qed.

Lemma dict_keys_set k v d : k ∈ dict_keys (dict_set k v d).
Proof.
  induction d as [|k' v' r IH]; simpl.
  - apply list_elem_of_here.
  - case_bool_decide; simpl.
    + subst. apply list_elem_of_here.
    + by apply list_elem_of_further.
Qed.

Lemma items_run {V} (jo : JSONObject.t V) p w :
  JSONObject.items jo p w
  = if file_at w p then
      (res_bind (load w p) (λ j,
       res_bind (as_dict j) (λ d,
       match d with
       | DNil => Raise ValueError
       | DCons _ _ _ => Ok (dict_keys d, dict_values d)
       end)), logs [ReadJson p] w)
    else (Ok ([], []), w).
Proof.
  unfold JSONObject.items, bind, os.isfile, lift.
  destruct (file_at w p); [|done]. rewrite read_json_run.
  destruct (load w p) as [[s|[|k v r]]|]; done.
Qed.

Lemma write_loop_head key leaf n : ∀ top top',
  (∀ d d', leaf d = Ok d' → n ∈ dict_keys d') →
  JSONObject.write_loop key leaf top = Ok top' →
  hd n key ∈ dict_keys top'.
Proof.
  destruct key as [|nk rest]; intros top top' Hleaf; simpl.
  - apply Hleaf.
  - destruct (match dict_get nk top with
              | Some v => as_dict v | None => Ok DNil end) as [sub|]; [|done].
    simpl. destruct (JSONObject.write_loop rest leaf sub) as [sub'|]; [|done].
    simpl. intros [= <-]. apply dict_keys_set.
Qed.

(** X20. [keys] and [entries]: without a document file both are empty; on
    the empty document [json_create] has just written both raise
    [ValueError]; after a [write] that returned both return lists of equal
    length, and the keys hold the first segment of the layered key (the
    field name for the empty key). *)
Theorem keys_need_a_value {V} (self : JSONEntry.t V) (p : string) :
  (∀ w, file_at w p = false →
     JSONObject.keys (JSONEntry.json self) p w = (Ok [], w) ∧
     JSONObject.entries (JSONEntry.json self) p w = (Ok [], w)) ∧
  (∀ w w1,
     DataSeries.json_path_in (cwd w) (JSONEntry.js self)
       (JSONObject.json_layer (JSONEntry.json self)) = Ok p →
     DataSeries.json_exists (JSONEntry.js self) None w = (Ok false, w) →
     DataSeries.json_create (JSONEntry.js self)
       (JSONObject.json_layer (JSONEntry.json self)) w = (Ok tt, w1) →
     JSONObject.keys (JSONEntry.json self) p w1
       = (Raise ValueError, logs [ReadJson p] w1) ∧
     JSONObject.entries (JSONEntry.json self) p w1
       = (Raise ValueError, logs [ReadJson p] w1)) ∧
  (∀ val key mapping k w w2,
     JSONObject._add_layer (JSONEntry.json self)
       (JSONEntry.the_key self key mapping) = Ok k →
     JSONEntry.write self val key mapping w = (Ok tt, w2) →
     DataSeries.json_path_in (cwd w2) (JSONEntry.js self)
       (JSONObject.json_layer (JSONEntry.json self)) = Ok p →
     ∃ ks es,
       JSONObject.keys (JSONEntry.json self) p w2
         = (Ok ks, logs [ReadJson p] w2) ∧
       JSONObject.entries (JSONEntry.json self) p w2
         = (Ok es, logs [ReadJson p] w2) ∧
       length ks = length es ∧
       hd (JSONObject.name (JSONEntry.json self)) k ∈ ks).
Proof.
  split; [|split].
  - intros w Hf. unfold JSONObject.keys, JSONObject.entries, bind.
    by rewrite !items_run, Hf.
  - intros w w1 Hp He Hc. unfold DataSeries.json_create, bind in Hc.
    rewrite He in Hc. simpl in Hc. rewrite Hp, write_json_run in Hc.
    destruct (writable w p) as [kp|] eqn:Hw; [|done]. injection Hc as <-.
    destruct (written_document w p kp (JObj DNil) [WriteJson p] Hw) as [Hl _].
    unfold JSONObject.keys, JSONObject.entries, bind. rewrite !items_run.
    rewrite (load_file_at _ _ _ Hl), Hl. done.
  - intros val key mapping k w w2 Hk Hw Hp.
    apply JSONEntry_write_inv in Hw as (w1 & p1 & _ & Hp1 & Hw).
    apply JSONObject_write_ok in Hw
      as (k' & j & j' & kp & Hk' & Hj & Hj' & Hwr & ->).
    assert (k' = k) as -> by congruence.
    assert (p1 = p) as -> by (simpl in Hp; congruence).
    apply write_one_inv in Hj' as (top & top' & -> & -> & Hloop).
    destruct (written_document w1 p kp (JObj top') [ReadJson p; WriteJson p] Hwr)
      as [Hl _].
    apply (write_loop_head _ _ (JSONObject.name (JSONEntry.json self))) in Hloop.
    2:{ intros d d'. unfold JSONObject.set_field.
        destruct (JSONObject.writer_ _ val); [|done]. intros [= <-].
        apply dict_keys_set. }
    unfold JSONObject.keys, JSONObject.entries, bind. rewrite !items_run.
    rewrite (load_file_at _ _ _ Hl), Hl. simpl.
    destruct top' as [|k0 v0 r0]; [by apply elem_of_nil in Hloop|].
    eexists _, _. split; [done|]. split; [done|]. split; [|exact Hloop].
    apply (dict_keys_values_length (DCons k0 v0 r0)).
Qed.

Lemma keys_need_a_value_witness :
  let w1 := (DataSeries.json_create Scenario.series None Scenario.w0).2 in
  let w2 := (JSONEntry.write Scenario.entry "-75.123" ["h2o"] true w1).2 in
  JSONObject.keys Scenario.energy "/P/db.json" Scenario.w0 = (Ok [], Scenario.w0) ∧
  JSONObject.keys Scenario.energy "/P/db.json" w1
    = (Raise ValueError, logs [ReadJson "/P/db.json"] w1) ∧
  ∃ ks es,
    JSONObject.keys Scenario.energy "/P/db.json" w2
      = (Ok ks, logs [ReadJson "/P/db.json"] w2) ∧
    JSONObject.entries Scenario.energy "/P/db.json" w2
      = (Ok es, logs [ReadJson "/P/db.json"] w2) ∧
    length ks = length es ∧ hd "energy" ["h2o"] ∈ ks.
Proof.
  intros w1 w2.
  destruct (keys_need_a_value Scenario.entry "/P/db.json") as (H1 & H2 & H3).
  split; [|split].
  - apply (H1 Scenario.w0). reflexivity.
  - apply (H2 Scenario.w0 w1); reflexivity.
  - apply (H3 "-75.123" ["h2o"] true ["h2o"] w1 w2); reflexivity.
Defined.

(** ** The keys [existing] reports *)

(** X21. [JSONEntry.existing], for every key whose layer can be added: the
    empty list without reading when there is no document file; otherwise
    one singleton per top-level key of the document, in document order,
    whatever the key and whether or not the values are mappings. *)
Theorem existing_lists_the_top_level {V} (self : JSONEntry.t V)
    (key : list string) (w : World) (p : string) :
  DataSeries.json_path_in (cwd w) (JSONEntry.js self)
    (JSONObject.json_layer (JSONEntry.json self)) = Ok p →
  is_ok (JSONObject._add_layer (JSONEntry.json self) key) = true →
  (file_at w p = false → JSONEntry.existing self key w = (Ok [], w)) ∧
  (∀ top, load w p = Ok (JObj top) →
     JSONEntry.existing self key w
     = (Ok ((λ k, [k]) <$> dict_keys top), logs [ReadJson p] w)).
Proof.
  intros Hp Hk.
  destruct (JSONObject._add_layer (JSONEntry.json self) key) as [k|] eqn:Hk';
    [|done].
  assert (JSONEntry.existing self key w
          = DataSeries.json_existing (JSONEntry.js self) k
              (JSONObject.json_layer (JSONEntry.json self)) w) as ->.
  { unfold JSONEntry.existing, bind, lift. by rewrite Hk'. }
  unfold DataSeries.json_existing, bind. rewrite json_exists_run, Hp. split.
  - by intros ->.
  - intros top Hl. rewrite (load_file_at _ _ _ Hl).
    by rewrite json_path_run, Hp, read_json_run, Hl.
Qed.

Lemma existing_lists_the_top_level_witness :
  JSONEntry.existing Scenario.entry ["h2o"] Scenario.w0 = (Ok [], Scenario.w0) ∧
  JSONEntry.existing Scenario.entry ["h2o"] Scenario.w_nested
    = (Ok ((λ k, [k]) <$> dict_keys Scenario.dict_nested),
       logs [ReadJson "/P/db.json"] Scenario.w_nested).
Proof.
  split.
  - apply (existing_lists_the_top_level Scenario.entry ["h2o"] Scenario.w0
             "/P/db.json"); reflexivity.
  - apply (existing_lists_the_top_level Scenario.entry ["h2o"] Scenario.w_nested
             "/P/db.json"); reflexivity.
Defined.

(** ** The fields of [json_objects] *)

(** X22. The fields [json_objects] builds with the default coders
    ([input_file], [output_file], [energy], [geometry], [locator],
    [hessian], the frequency, matrix, graph and Lennard-Jones fields) are
    not removable and store a value as it is: after a [write] that
    returned, [exists] is [True] and [read] returns the value written. *)
Theorem plain_fields_store_the_value (file_prefix : string)
    (json_prefix : option (list string) * option string)
    (jo : JSONObject.t json) (js : DataSeries.t) (val : json)
    (key : list string) (mapping : bool) (w w' : World) :
  jo ∈ plain_fields file_prefix json_prefix →
  JSONEntry.write (JSONEntry.__init__ js jo) val key mapping w = (Ok tt, w') →
  JSONObject.removable jo = false ∧
  (JSONEntry.exists_ (JSONEntry.__init__ js jo) key mapping w').1 = Ok true ∧
  (JSONEntry.read (JSONEntry.__init__ js jo) key mapping w').1 = Ok (Some val).
Proof.
  intros Hin Hw.
  assert (JSONObject.removable jo = false ∧
          JSONObject.writer_ jo = Ok ∧ JSONObject.reader_ jo = Ok)
    as (Hrem & Hwr & Hrd).
  { unfold plain_fields in Hin.
    repeat (apply elem_of_cons in Hin as [->|Hin]; [done|]).
    by apply elem_of_nil in Hin. }
  split; [done|].
  apply JSONEntry_write_read in Hw as (v & p & Hv & He & Hr).
  simpl in Hv, Hr. rewrite Hwr in Hv. injection Hv as <-.
  rewrite He, Hr. simpl. by rewrite Hrd.
Qed.

Lemma plain_fields_store_the_value_witness :
  let w' := (JSONEntry.write Cases.geometry_entry (JLeaf "H 0 0 0") ["h2o"] true
               Scenario.w_h2o).2 in
  JSONObject.removable (json_objects.geometry "opt") = false ∧
  (JSONEntry.exists_ Cases.geometry_entry ["h2o"] true w').1 = Ok true ∧
  (JSONEntry.read Cases.geometry_entry ["h2o"] true w').1
    = Ok (Some (JLeaf "H 0 0 0")).
Proof.
  apply (plain_fields_store_the_value "opt" json_objects.no_prefix
           (json_objects.geometry "opt") Scenario.series (JLeaf "H 0 0 0")
           ["h2o"] true Scenario.w_h2o).
  - unfold plain_fields. do 3 apply list_elem_of_further. apply list_elem_of_here.
  - vm_compute. reflexivity.
Defined.

(** ** Where the document of a layer is *)

Lemma split_join2_piece q name :
  tidy q → piece name → posixpath.split (posixpath.join2 q name) = (q, name).
Proof.
  intros Hq [Hn1 Hn2]. pose proof (piece_relative name (conj Hn1 Hn2)) as Hrel.
  apply tidy_cases in Hq as [[Ha He]|(Ha & Hn & He)];
    rewrite join2_relative by done.
  - rewrite He. unfold posixpath.split.
    rewrite rpartition_append, rpartition_all_sep by done. simpl.
    by rewrite Ha, andb_false_r.
  - rewrite Hn, He. simpl. apply split_join_piece; [by destruct q|done|done].
Qed.

(** X23. Where the document of a series is: when the prefix of the series
    (the path of its root, for a chained one) ends in the segment [layer],
    the document for that layer is [db.json] beside the layer directory;
    without a layer, or for any other layer name, it is [db.json] inside
    the prefix. *)
Theorem document_sits_beside_its_layer (c : string) (self : DataSeries.t)
    (q layer : string) :
  resolved_prefix c self [] = Ok (posixpath.join2 q layer) →
  tidy q → piece layer →
  DataSeries.json_path_in c self (Some layer)
    = Ok (posixpath.join2 q DataSeries.JSON) ∧
  DataSeries.json_path_in c self None
    = Ok (posixpath.join2 (posixpath.join2 q layer) DataSeries.JSON) ∧
  ∀ other, other ≠ layer →
    DataSeries.json_path_in c self (Some other)
    = Ok (posixpath.join2 (posixpath.join2 q layer) DataSeries.JSON).
Proof.
  intros HP Hq Hl. unfold DataSeries.json_path_in.
  unfold resolved_prefix in HP. rewrite HP. simpl.
  unfold DataSeries._remove_layer_from_path.
  rewrite split_join2_piece by done.
  assert (posixpath.is_empty layer = false) as -> by (destruct Hl; by destruct layer).
  simpl. rewrite bool_decide_eq_true_2 by done. split; [done|]. split; [done|].
  intros other Hne. destruct (posixpath.is_empty other); simpl; [done|].
  rewrite bool_decide_eq_false_2; [done|]. congruence.
Qed.

Lemma document_sits_beside_its_layer_witness :
  DataSeries.json_path_in "/" Cases.layer_series (Some "L")
    = Ok (posixpath.join2 "/P" DataSeries.JSON) ∧
  DataSeries.json_path_in "/" Cases.layer_series None
    = Ok (posixpath.join2 (posixpath.join2 "/P" "L") DataSeries.JSON) ∧
  ∀ other, other ≠ "L" →
    DataSeries.json_path_in "/" Cases.layer_series (Some other)
    = Ok (posixpath.join2 (posixpath.join2 "/P" "L") DataSeries.JSON).
Proof.
  apply (document_sits_beside_its_layer "/" Cases.layer_series "/P" "L").
  - reflexivity.
  - right. reflexivity.
  - split; [reflexivity|done].
Defined.

Lemma object_read_all_is_positional_witness :
  JSONObject.read_all Scenario.energy [["methane"]; ["h2o"]] "/P/db.json"
    Scenario.w_h2o
  = (Ok [None; Some "-75.123"], logs [ReadJson "/P/db.json"] Scenario.w_h2o).
Proof.
  apply (object_read_all_is_positional Scenario.energy [["methane"]; ["h2o"]]
           "/P/db.json" Scenario.w_h2o).
  split; [reflexivity|]. split; [|reflexivity].
  constructor; [reflexivity|]. constructor; [reflexivity|]. constructor.
Defined.

(** ** What is created is listed *)

Lemma makedirs_chain p w w' :
  os.makedirs p w = (Ok tt, w') →
  ∀ n, node_key w' (take n (resolve (cwd w) p)) = Some Dir.
Proof.
  unfold os.makedirs, node_at. set (k := resolve (cwd w) p).
  destruct (node_key w k) eqn:Hk; [done|].
  destruct (existsb _ _); [done|]. intros [= <-] n.
  destruct (take n k) as [|x r] eqn:Ht; [done|].
  rewrite node_key_ne by done. simpl. rewrite <- Ht.
  rewrite lookup_foldr_insert_dir, decide_True; [done|].
  destruct (decide (n < length k)) as [Hlt|Hge].
  - apply elem_of_app. left. unfold os.ancestors.
    apply list_elem_of_fmap. exists n. split; [done|].
    apply elem_of_seq. destruct n; [done|]. lia.
  - apply elem_of_app. right. rewrite take_ge by lia. apply list_elem_of_here.
Qed.

Lemma join2_join_sep P names :
  names ≠ [] → Forall piece names →
  posixpath.join2 P (posixpath.join_sep names) = posixpath.join P names.
Proof.
  intros Hne Hp. destruct names as [|x r]; [done|].
  apply Forall_cons in Hp as [Hx Hr]. pose proof (piece_relative _ Hx) as Hxr.
  destruct Hx as [Hx1 Hx2].
  rewrite join_cons, join_as_join_sep; [| | |done].
  - destruct r as [|y r]; [done|].
    change (posixpath.join_sep (x :: y :: r))
      with (x +:+ "/" +:+ posixpath.join_sep (y :: r)).
    change (posixpath.join_sep (posixpath.join2 P x :: y :: r))
      with (posixpath.join2 P x +:+ "/" +:+ posixpath.join_sep (y :: r)).
    rewrite !join2_relative; [|done|by destruct x].
    destruct (_ || _); by rewrite !append_assoc.
  - rewrite join2_relative by done.
    destruct (_ || _); destruct P, x; done.
  - rewrite join2_relative by done.
    destruct (_ || _); rewrite ?endswith_sep_append;
      try (by apply no_sep_endswith); done || by destruct x.
Qed.

Lemma segments_clean names : Forall segment names → Forall clean names.
Proof.
  intros H. eapply Forall_impl; [exact H|]. intros. by apply segment_clean.
Qed.

Lemma existing_run self (f : DataFile.t (list loc)) relative fuel w pths :
  DataSeries.nlocs self ≠ 0 →
  DataSeries.loc_dfile self = Some f →
  DataSeries.root self = None →
  DataSeries._existing_paths self [] w = (Ok pths, w) →
  (∀ pth e, pth ∈ pths → recorded f w pth ≠ Some (Raise e)) →
  DataSeries.existing (S fuel) self [] relative w
  = (Ok (omap (recorded_value f w) pths), w).
Proof.
  intros Hn Hf Hroot Hrun Hok. rewrite existing_S.
  rewrite bool_decide_eq_false_2, Hf by done. cbv zeta.
  rewrite root_locator_count_unfold, Hroot.
  rewrite bool_decide_eq_false_2 by (simpl; lia).
  unfold bind, assert_, ret. simpl.
  rewrite Hrun, (read_locators_run f w pths Hok).
  destruct relative; simpl; [done|]. by rewrite list_fmap_id.
Qed.

(** X24. What [create] made is listed. Take an absolute working
    directory, a filesystem whose names are path segments, and a series of
    positive arity without root whose prefix is absolute, has no trailing
    separator (unless it is the root directory) and holds none of the
    pattern characters of [glob] ([*], [?], [[]), whose mapping sends the
    locator to visible plain segments, and whose locator file reads back
    what it writes. After [create] returned for a locator whose directory
    did not exist, [existing] returns a list that holds the locator,
    provided every locator file that is there decodes. *)
Theorem created_directory_is_listed (self : DataSeries.t)
    (f : DataFile.t (list loc)) (locs : list loc) (names : list string)
    (s : string) (relative : bool) (fuel : nat) (w w1 : World) :
  posixpath.isabs (cwd w) = true → wf_names w →
  DataSeries.root self = None → anchored self →
  glob.has_magic (DataSeries.prefix self) = false →
  DataSeries.nlocs self ≠ 0 →
  DataSeries.loc_dfile self = Some f →
  DataFile.writer_ f locs = Ok s → DataFile.reader_ f s = Ok locs →
  DataSeries.map_ self locs = posixpath.join_sep names →
  names ≠ [] → Forall segment names →
  DataSeries.exists_ self locs w = (Ok false, w) →
  DataSeries.create self locs w = (Ok tt, w1) →
  (∀ pth e, recorded f w1 pth ≠ Some (Raise e)) →
  ∃ ls, DataSeries.existing (S fuel) self [] relative w1 = (Ok ls, w1) ∧
        locs ∈ ls.
Proof.
  intros Habs Hwf Hroot Hanc Hm Hn Hf Hs Hr Hmap Hne Hseg Hex Hc Hok.
  pose proof (segments_clean _ Hseg) as Hcl.
  pose proof (clean_pieces _ Hcl) as Hpc.
  set (P := DataSeries.prefix self) in *.
  assert (posixpath.isabs P = true ∧ tidy P) as [HP Ht].
  { unfold P. destruct self; simpl in *. by subst. }
  (* the path of [locs] *)
  rewrite exists_run in Hex.
  destruct (DataSeries.path_in (cwd w) self locs) as [p|] eqn:Hp; [|done].
  injection Hex as Hd.
  pose proof Hp as Hp'. rewrite path_in_unfold, Hroot in Hp'.
  apply path_tail_ok in Hp' as (Hlen & _ & Hdepth & ->). fold P in Hd, Hp |- *.
  rewrite Hmap in *. rewrite join2_join_sep in * by done.
  apply bool_decide_eq_true_1 in Hdepth. rewrite split_all_join in Hdepth by done.
  (* what [create] did *)
  pose proof (keeps_cwd_create self locs w) as Hcwd.
  pose proof (keeps_wf_create self locs w Habs Hwf) as Hwf1.
  rewrite Hc in Hcwd, Hwf1. simpl in Hcwd, Hwf1.
  rewrite create_unfold, Hroot in Hc. unfold DataSeries.create_here in Hc.
  unfold bind at 1 in Hc. rewrite exists_run, Hp, Hd in Hc. simpl in Hc.
  unfold bind at 1 in Hc. rewrite path_run, Hp in Hc.
  apply bind_ok in Hc as ([] & wm & Hmk & Hc). rewrite Hf in Hc.
  apply bind_ok in Hc as (locs' & wm' & Hl & Hc).
  unfold lift, DataSeries._self_locators in Hl.
  rewrite bool_decide_eq_true_2 in Hl by lia.
  rewrite Hlen, Nat.sub_diag, drop_0 in Hl. injection Hl as <- <-.
  pose proof (DataFile_write_kept _ _ _ _ _ Hc) as Hkept.
  apply DataFile_write_inv in Hc as (_ & s' & kf & Hs' & Hkf & Hw1).
  assert (s' = s) as -> by congruence.
  (* the directories on the way *)
  destruct (join_names names P HP Ht Hcl) as (Hk & Hjabs & _).
  assert (∀ i : nat, (i <= DataSeries.depth self)%nat →
            dir_at w1 (posixpath.join P (take i names)) = true) as Hdirs.
  { intros i Hi. apply (dir_at_kept wm); [done|].
    pose proof (Forall_take _ i _ Hcl) as Hcli.
    destruct (join_names (take i names) P HP Ht Hcli) as (Hki & Hiabs & _).
    pose proof (makedirs_chain _ _ _ Hmk
                  (length (posixpath.norm_comps P) + i)) as Hch.
    rewrite resolve_abs, Hk, take_app_add' in Hch by done.
    unfold dir_at, node_at.
    assert (cwd wm = cwd w) as Hcm.
    { pose proof (keeps_cwd_makedirs (posixpath.join P names) w) as E.
      by rewrite Hmk in E. }
    rewrite resolve_abs, Hki by done. by rewrite Hch. }
  assert (listed_dir w1 P (DataSeries.depth self) (posixpath.join P names))
    as Hlisted.
  { exists names. split; [done|]. split; [done|]. split; [done|]. done. }
  (* the listing *)
  assert (resolved_prefix (cwd w1) self [] = Ok P) as Hpre.
  { unfold resolved_prefix. by rewrite Hroot. }
  destruct (existing_paths_listed w1 P HP Ht Hm Hwf1 self [] Hpre)
    as (pths & Hrun & _ & _ & Hin).
  apply Hin in Hlisted.
  rewrite (existing_run self f relative fuel w1 pths) by (try done; eauto).
  eexists. split; [done|].
  apply list_elem_of_omap. exists (posixpath.join P names). split; [done|].
  unfold recorded_value, recorded, file_text.
  rewrite Hw1 at 1. rewrite (node_at_written _ _ _ _ Hkf). simpl.
  by rewrite Hr.
Qed.

Lemma created_directory_is_listed_witness :
  let w1 := (DataSeries.create Scenario.series ["b"] Cases.w_a).2 in
  ∃ ls, DataSeries.existing 1 Scenario.series [] false w1 = (Ok ls, w1) ∧
        ["b"] ∈ ls.
Proof.
  apply (created_directory_is_listed Scenario.series Scenario.locator_file
           ["b"] ["b"] "b" false 0 Cases.w_a).
  - reflexivity.
  - apply (bool_decide_unpack _). vm_compute. exact I.
  - reflexivity.
  - split; [reflexivity|right; reflexivity].
  - reflexivity.
  - simpl. lia.
  - reflexivity.
  - reflexivity.
  - reflexivity.
  - reflexivity.
  - done.
  - repeat constructor; done.
  - vm_compute. reflexivity.
  - vm_compute. reflexivity.
  - intros pth e. unfold recorded, Scenario.locator_file. simpl.
    by destruct (file_text _ _).
Defined.

(** ** Paths of constructed series *)

(** X25. Every path of a series the constructor returned is absolute and
    has no trailing separator, for a constructor run in an absolute working
    directory, on a root built the same way if there is one; and the
    constructor changes nothing. *)
Theorem constructed_series_have_absolute_paths
    (prefix : string) (map_ : list loc → string) (nlocs depth : nat)
    (loc_dfile : option (DataFile.t (list loc))) (root_ds : option DataSeries.t)
    (removable : bool) (w w' : World) (self : DataSeries.t)
    (c : string) (locs : list loc) (p : string) :
  posixpath.isabs (cwd w) = true →
  (∀ r, root_ds = Some r → anchored r) →
  DataSeries.__init__ prefix map_ nlocs depth loc_dfile root_ds removable w
    = (Ok self, w') →
  DataSeries.path_in c self locs = Ok p →
  w' = w ∧ posixpath.isabs p = true ∧ tidy p.
Proof.
  intros Hc Hroot Hinit Hp.
  unfold DataSeries.__init__, bind, os.isdir, assert_, getcwd, ret in Hinit.
  destruct (dir_at w prefix); simpl in Hinit; [|done].
  injection Hinit as <- <-. split; [done|].
  eapply path_in_shape; [|exact Hp]. simpl.
  destruct root_ds as [r|]; [by apply Hroot|].
  split; [by apply abspath_isabs|by apply abspath_tidy].
Qed.

Lemma constructed_series_have_absolute_paths_witness :
  Scenario.w0 = Scenario.w0 ∧ posixpath.isabs "/P/a" = true ∧ tidy "/P/a".
Proof.
  apply (constructed_series_have_absolute_paths "P" Scenario.by_name 1 1 None
           None false Scenario.w0 Scenario.w0
           (DataSeries.mk "/P" Scenario.by_name 1 1 None None false)
           "/" ["a"] "/P/a").
  - reflexivity.
  - done.
  - reflexivity.
  - reflexivity.
Defined.

(** ** What [create] leaves behind *)

Lemma keeps_dirs_world {A} (m : M A) : keeps_world m → keeps_dirs m.
Proof. intros H w. rewrite H. apply dirs_kept_refl. Qed.

Lemma keeps_dirs_bind {A B} (m : M A) (k : A → M B) :
  keeps_dirs m → (∀ a, keeps_dirs (k a)) → keeps_dirs (bind m k).
Proof.
  intros Hm Hk w. unfold bind. specialize (Hm w).
  destruct (m w) as [[a|e] w1]; simpl in *; [|done].
  eapply dirs_kept_trans; [exact Hm|apply Hk].
Qed.

Lemma keeps_dirs_makedirs p : keeps_dirs (os.makedirs p).
Proof.
  intros w. destruct (os.makedirs p w) as [[[]|e] w'] eqn:E.
  - by apply makedirs_ok in E as [? _].
  - unfold os.makedirs in E.
    destruct (node_at w p); [injection E as _ <-; apply dirs_kept_refl|].
    destruct (existsb _ _); [|done]. injection E as _ <-. apply dirs_kept_refl.
Qed.

Lemma keeps_dirs_DataFile_write {V} (f : DataFile.t V) v d :
  keeps_dirs (DataFile.write f v d).
Proof.
  intros w. destruct (DataFile.write f v d w) as [[[]|e] w'] eqn:E.
  - by eapply DataFile_write_kept.
  - unfold DataFile.write, bind, os.exists_, assert_, lift, io_.write_file,
      put_file in E.
    destruct (exists_at w d); simpl in E;
      [|injection E as _ <-; apply dirs_kept_refl].
    destruct (DataFile.writer_ f v);
      [|injection E as _ <-; apply dirs_kept_refl].
    destruct (writable w _); [done|]. injection E as _ <-.
    apply dirs_kept_refl.
Qed.

Lemma keeps_dirs_create_here self locs :
  keeps_dirs (DataSeries.create_here self locs).
Proof.
  unfold DataSeries.create_here.
  apply keeps_dirs_bind; [apply keeps_dirs_world, keeps_world_exists|].
  intros [|]; simpl; [apply keeps_dirs_world, keeps_world_ret|].
  apply keeps_dirs_bind; [apply keeps_dirs_world, keeps_world_path|]. intros p.
  apply keeps_dirs_bind; [apply keeps_dirs_makedirs|]. intros _.
  destruct (DataSeries.loc_dfile self) as [f|];
    [|apply keeps_dirs_world, keeps_world_ret].
  apply keeps_dirs_bind; [apply keeps_dirs_world, keeps_world_lift|].
  intros locs'. apply keeps_dirs_DataFile_write.
Qed.

Lemma keeps_dirs_create self : ∀ locs, keeps_dirs (DataSeries.create self locs).
Proof.
  induction self as [self Hr|self r Hr IH] using DataSeries_chain_ind;
    intros locs; rewrite create_unfold, Hr.
  - apply keeps_dirs_create_here.
  - apply keeps_dirs_bind; [apply keeps_dirs_world, keeps_world_lift|].
    intros rl. apply keeps_dirs_bind; [apply IH|]. intros _.
    apply keeps_dirs_create_here.
Qed.

(** X26. [create] loses no directory and keeps the working directory,
    whether it returns or raises; and after a [create] that returned on a
    chained series, the directory of the root locators exists, so [create]
    of the root for them changes nothing. *)
Theorem create_builds_the_chain (self : DataSeries.t) (locs : list loc)
    (w : World) :
  dirs_kept w (DataSeries.create self locs w).2 ∧
  ∀ w' r,
    DataSeries.create self locs w = (Ok tt, w') →
    DataSeries.root self = Some r →
    ∃ root_locs,
      DataSeries._root_locators self locs = Ok root_locs ∧
      DataSeries.exists_ r root_locs w' = (Ok true, w') ∧
      DataSeries.create r root_locs w' = (Ok tt, w').
Proof.
  split; [apply keeps_dirs_create|].
  intros w' r Hc Hroot.
  apply create_created in Hc as [_ Hcr].
  apply created_unfold in Hcr as [Hcr _]. rewrite Hroot in Hcr.
  destruct Hcr as (rl & Hrl & Hcr). exists rl. split; [done|].
  split; [|by apply created_create].
  apply created_unfold in Hcr as (_ & p & Hp & Hd).
  by rewrite exists_run, Hp, Hd.
Qed.

Lemma create_builds_the_chain_witness :
  dirs_kept Scenario.w0 Cases.w_abc ∧
  ∃ root_locs,
    DataSeries._root_locators Scenario.child1 ["a"; "b"; "c"] = Ok root_locs ∧
    DataSeries.exists_ Scenario.root2 root_locs Cases.w_abc
      = (Ok true, Cases.w_abc) ∧
    DataSeries.create Scenario.root2 root_locs Cases.w_abc = (Ok tt, Cases.w_abc).
Proof.
  destruct (create_builds_the_chain Scenario.child1 ["a"; "b"; "c"] Scenario.w0)
    as [H1 H2].
  split; [exact H1|].
  apply (H2 Cases.w_abc Scenario.root2); [vm_compute|]; reflexivity.
Defined.

(** ** What a write touches *)

Lemma ensure_document_inv {V} (self : JSONEntry.t V) w w1 :
  JSONEntry.ensure_document self w = (Ok tt, w1) →
  w1 = w ∨
  ∃ p kp,
    DataSeries.json_path_in (cwd w) (JSONEntry.js self)
      (JSONObject.json_layer (JSONEntry.json self)) = Ok p ∧
    writable w p = Ok kp ∧
    w1 = with_fs (logs [WriteJson p] w) (<[kp := File (Json (JObj DNil))]> (fs w)).
Proof.
  unfold JSONEntry.ensure_document. unfold bind at 1.
  rewrite json_exists_run.
  destruct (DataSeries.json_path_in (cwd w) (JSONEntry.js self)
              (JSONObject.json_layer (JSONEntry.json self))) as [p|] eqn:Hp;
    [|done].
  destruct (file_at w p); simpl; [intros [= <-]; by left|].
  unfold DataSeries.json_create, bind. rewrite json_exists_run.
  destruct (DataSeries.json_path_in (cwd w) (JSONEntry.js self) None)
    as [p0|]; [|done].
  destruct (file_at w p0); simpl; [intros [= <-]; by left|].
  rewrite Hp, write_json_run.
  destruct (writable w p) as [kp|] eqn:Hw; [|done]. intros [= <-].
  right. by exists p, kp.
Qed.

Lemma writable_not_dir w p k : writable w p = Ok k → fs w !! k ≠ Some Dir.
Proof.
  intros H. destruct (writable_key _ _ _ H) as [-> Hne].
  unfold writable in H. rewrite (node_key_ne _ _ Hne) in H.
  intros E. by rewrite E in H.
Qed.

(** X27. A [JSONEntry.write] that returned changed one file, the document:
    every other entry of the filesystem is as before, the working directory
    is kept and no directory was lost. *)
Theorem write_touches_only_the_document {V} (self : JSONEntry.t V) (val : V)
    (key : list string) (mapping : bool) (w w' : World) :
  JSONEntry.write self val key mapping w = (Ok tt, w') →
  ∃ p j,
    DataSeries.json_path_in (cwd w) (JSONEntry.js self)
      (JSONObject.json_layer (JSONEntry.json self)) = Ok p ∧
    resolve (cwd w) p ≠ [] ∧
    fs w' = <[resolve (cwd w) p := File (Json j)]> (fs w) ∧
    cwd w' = cwd w ∧ dirs_kept w w'.
Proof.
  intros (w1 & p & He & Hp & Hw)%JSONEntry_write_inv.
  apply JSONObject_write_ok in Hw
    as (k & j & j' & kp & _ & _ & _ & Hwr & ->).
  pose proof (writable_not_dir _ _ _ Hwr) as Hnd1.
  destruct (writable_key _ _ _ Hwr) as [-> Hne].
  assert (cwd w1 = cwd w ∧ fs w !! resolve (cwd w) p ≠ Some Dir ∧
          (fs w1 = fs w ∨
           ∃ j0, fs w1 = <[resolve (cwd w) p := File (Json j0)]> (fs w)))
    as (Hc & Hnd & Hfs).
  { apply ensure_document_inv in He as [->|(p' & kp' & Hp' & Hw' & ->)].
    - split; [done|]. split; [done|]. by left.
    - simpl in Hp. assert (p' = p) as -> by congruence.
      pose proof (writable_not_dir _ _ _ Hw') as Hnd.
      destruct (writable_key _ _ _ Hw') as [-> _].
      split; [done|]. split; [done|]. right. by eexists. }
  rewrite Hc in *. exists p, j'. split; [done|]. split; [done|].
  assert (fs (with_fs (logs [ReadJson p; WriteJson p] w1)
                (<[resolve (cwd w) p := File (Json j')]> (fs w1)))
          = <[resolve (cwd w) p := File (Json j')]> (fs w)) as Hfinal.
  { simpl. destruct Hfs as [->|[j0 ->]]; [done|]. apply insert_insert_eq. }
  split; [done|]. split; [done|]. split; [done|].
  intros k' Hk'. destruct (decide (k' = [])) as [->|Hne']; [done|].
  rewrite node_key_ne in * by done. rewrite Hfinal.
  destruct (decide (k' = resolve (cwd w) p)) as [->|Hdiff]; [done|].
  by rewrite lookup_insert_ne.
Qed.

Lemma write_touches_only_the_document_witness :
  let w' := (JSONEntry.write Scenario.entry "-40.5" ["methane"] true
               Scenario.w_h2o).2 in
  ∃ p j,
    DataSeries.json_path_in (cwd Scenario.w_h2o) (JSONEntry.js Scenario.entry)
      (JSONObject.json_layer (JSONEntry.json Scenario.entry)) = Ok p ∧
    resolve (cwd Scenario.w_h2o) p ≠ [] ∧
    fs w' = <[resolve (cwd Scenario.w_h2o) p := File (Json j)]>
              (fs Scenario.w_h2o) ∧
    cwd w' = cwd Scenario.w_h2o ∧ dirs_kept Scenario.w_h2o w'.
Proof.
  apply (write_touches_only_the_document Scenario.entry "-40.5" ["methane"]
           true Scenario.w_h2o).
  vm_compute. reflexivity.
Defined.

